(** * relocswap: a model of [main.cc] and the properties of its ELF
      relocation reader, dump formatter and shuffler.

    The program reads an ELF image, collects the dynamic relocation entries of
    the sections [.rel.dyn], [.rela.dyn] and [.rela.plt] together with the
    file offset of each entry, can print them, and can overwrite pairs of
    entries in a copy of the image with their [r_offset] (and [r_addend])
    fields exchanged.

    Conventions of the model.
    - A file is a [list byte]; structures are read and written in the host's
      byte order, taken to be little endian, with the field layout of
      [<elf.h>] (no padding in any of the structures used).
    - Unsigned w-bit integers are [Z] in the range [0, 2^w); [r_addend] is a
      signed [Z].
    - The template parameters [EhdrT, ShdrT, RelT, RelaT, SymT] are always
      instantiated together with the 32-bit or the 64-bit structures, so the
      model takes one [ImageClass] instead.
    - A run ends normally ([Ok]), through [errExit] ([ErrExit msg]), through a
      failed [assert] ([AssertFail msg]; the source does not define NDEBUG),
      or does something the language leaves undefined ([Undefined]): a
      division by zero, a read into an object that is too small for it, the
      use of an object only partly read, a C string without terminator.
    - Memory is unbounded: [resize] always succeeds, where the program
      itself may end with an exception that nothing catches when a table is
      too large to allocate.
    - The position of a good stream is kept as it is when it is stored as
      [uint64_t] or passed back to a seek: no file has 2^63 bytes.
    - A seek to a position that is not negative succeeds, also past the end
      of the file: the limit that a file system puts on offsets, past which
      a seek fails, is not modelled. *)

From Stdlib Require Import String Ascii ZArith List Lia Bool.
From Stdlib Require Import DecimalString HexadecimalString.
From coqutil Require Import Byte Word.LittleEndianList.
Import ListNotations.
Local Open Scope Z_scope.
Local Open Scope list_scope.

(** ** Outcomes *)

Inductive result (A : Type) : Type :=
| Ok (a : A)
| ErrExit (msg : string)
| AssertFail (msg : string)
| Undefined.
Arguments Ok {A} a.
Arguments ErrExit {A} msg.
Arguments AssertFail {A} msg.
Arguments Undefined {A}.

(** ** Bytes and files *)

Definition file := list byte.

(** The [n] bytes of [f] that start at offset [p]. *)
Definition slice (f : file) (p n : nat) : list byte := firstn n (skipn p f).

(** [f] after [buf] has been written at offset [p]; a write that starts past
    the end of the file leaves a hole of zero bytes. *)
Definition write_at (f : file) (p : nat) (buf : list byte) : file :=
  firstn p f ++ repeat Byte.x00 (p - length f) ++ buf
  ++ skipn (p + length buf) f.

(** Two's complement reading of an [n]-byte unsigned value. *)
Definition to_signed (n : nat) (z : Z) : Z :=
  if z <? 2 ^ (8 * Z.of_nat n - 1) then z else z - 2 ^ (8 * Z.of_nat n).

(** The C string that starts at the head of [l]: the bytes before the first
    NUL; [None] when there is no NUL. *)
Fixpoint until_nul (l : list byte) : option (list byte) :=
  match l with
  | [] => None
  | b :: t =>
      if Byte.eqb b Byte.x00 then Some []
      else option_map (cons b) (until_nul t)
  end.

(** [std::string(&tbl[i])] for [i < tbl.size()]. *)
Definition cstr_at (tbl : list byte) (i : nat) : result string :=
  match until_nul (skipn i tbl) with
  | Some bs => Ok (string_of_list_byte bs)
  | None => Undefined
  end.

(** ** The structures of <elf.h> *)

Inductive ImageClass := ELFCLASS32 | ELFCLASS64.

Definition SHT_STRTAB : Z := 3.
Definition SHT_RELA : Z := 4.
Definition SHT_REL : Z := 9.
Definition SHT_DYNSYM : Z := 11.

Definition ELF32_R_SYM (val : Z) : Z := Z.shiftr val 8.
Definition ELF64_R_SYM (i : Z) : Z := Z.shiftr i 32.

(** Width in bytes of [ElfN_Addr], [ElfN_Off], [Elf32_Word]/[Elf64_Xword]
    and [Elf32_Sword]/[Elf64_Sxword]. *)
Definition wordsz (cls : ImageClass) : nat :=
  match cls with ELFCLASS32 => 4 | ELFCLASS64 => 8 end%nat.

Module EhdrT.
Record t := mk { e_shoff : Z; e_shentsize : Z; e_shnum : Z; e_shstrndx : Z }.
Definition sizeof (cls : ImageClass) : nat :=
  match cls with ELFCLASS32 => 52 | ELFCLASS64 => 64 end%nat.
(** Offsets of [e_shoff] and [e_shentsize]; [e_shnum] and [e_shstrndx]
    follow [e_shentsize]. *)
Definition off_shoff (cls : ImageClass) : nat :=
  match cls with ELFCLASS32 => 32 | ELFCLASS64 => 40 end%nat.
Definition off_shentsize (cls : ImageClass) : nat :=
  match cls with ELFCLASS32 => 46 | ELFCLASS64 => 58 end%nat.
Definition decode (cls : ImageClass) (bs : list byte) : t :=
  {| e_shoff := le_combine (slice bs (off_shoff cls) (wordsz cls));
     e_shentsize := le_combine (slice bs (off_shentsize cls) 2);
     e_shnum := le_combine (slice bs (off_shentsize cls + 2) 2);
     e_shstrndx := le_combine (slice bs (off_shentsize cls + 4) 2) |}.
End EhdrT.

Module ShdrT.
Record t := mk { sh_name : Z; sh_type : Z; sh_offset : Z; sh_size : Z;
                 sh_entsize : Z }.
Definition sizeof (cls : ImageClass) : nat :=
  match cls with ELFCLASS32 => 40 | ELFCLASS64 => 64 end%nat.
Definition off_offset (cls : ImageClass) : nat :=
  match cls with ELFCLASS32 => 16 | ELFCLASS64 => 24 end%nat.
Definition off_size (cls : ImageClass) : nat :=
  match cls with ELFCLASS32 => 20 | ELFCLASS64 => 32 end%nat.
Definition off_entsize (cls : ImageClass) : nat :=
  match cls with ELFCLASS32 => 36 | ELFCLASS64 => 56 end%nat.
Definition decode (cls : ImageClass) (bs : list byte) : t :=
  {| sh_name := le_combine (slice bs 0 4);
     sh_type := le_combine (slice bs 4 4);
     sh_offset := le_combine (slice bs (off_offset cls) (wordsz cls));
     sh_size := le_combine (slice bs (off_size cls) (wordsz cls));
     sh_entsize := le_combine (slice bs (off_entsize cls) (wordsz cls)) |}.
End ShdrT.

Module SymT.
(** Only [st_name], the first member of both [Elf32_Sym] and [Elf64_Sym],
    is ever used. *)
Record t := mk { st_name : Z }.
Definition sizeof (cls : ImageClass) : nat :=
  match cls with ELFCLASS32 => 16 | ELFCLASS64 => 24 end%nat.
Definition decode (bs : list byte) : t :=
  {| st_name := le_combine (slice bs 0 4) |}.
End SymT.

Module RelT.
Record t := mk { r_offset : Z; r_info : Z }.
Definition sizeof (cls : ImageClass) : nat := (2 * wordsz cls)%nat.
Definition decode (cls : ImageClass) (bs : list byte) : t :=
  {| r_offset := le_combine (slice bs 0 (wordsz cls));
     r_info := le_combine (slice bs (wordsz cls) (wordsz cls)) |}.
Definition encode (cls : ImageClass) (r : t) : list byte :=
  le_split (wordsz cls) (r_offset r) ++ le_split (wordsz cls) (r_info r).
End RelT.

Module RelaT.
Record t := mk { r_offset : Z; r_info : Z; r_addend : Z }.
Definition sizeof (cls : ImageClass) : nat := (3 * wordsz cls)%nat.
Definition decode (cls : ImageClass) (bs : list byte) : t :=
  {| r_offset := le_combine (slice bs 0 (wordsz cls));
     r_info := le_combine (slice bs (wordsz cls) (wordsz cls));
     r_addend :=
       to_signed (wordsz cls)
         (le_combine (slice bs (2 * wordsz cls) (wordsz cls))) |}.
Definition encode (cls : ImageClass) (r : t) : list byte :=
  le_split (wordsz cls) (r_offset r) ++ le_split (wordsz cls) (r_info r)
  ++ le_split (wordsz cls) (r_addend r).
End RelaT.

(** ** Sequencing of fallible steps *)

Definition bind {A B : Type} (r : result A) (k : A -> result B) : result B :=
  match r with
  | Ok a => k a
  | ErrExit m => ErrExit m
  | AssertFail m => AssertFail m
  | Undefined => Undefined
  end.

Notation "x <- e ;; k" := (bind e (fun x => k))
  (at level 61, e at next level, right associativity).

(** [assert(c && msg)] *)
Definition assert (c : bool) (msg : string) : result unit :=
  if c then Ok tt else AssertFail msg.

(** ** The input stream [std::ifstream]

    [good] is false once a seek or a read has failed; every failed read is
    followed by [errExit], so the end-of-file flag needs no field of its own.
    Positions of a good stream are never negative. *)

Record ifstream := mk_ifstream { data : file; gpos : Z; good : bool }.

Definition tellg (fp : ifstream) : Z := if good fp then gpos fp else -1.

(** [seekg(p)]: the argument is converted to the signed 64-bit [streamoff];
    seeking to a negative position fails, seeking past the end does not; a
    failed stream is left alone. *)
Definition seekg (p : Z) (fp : ifstream) : ifstream :=
  if good fp then
    let p' := to_signed 8 (p mod 2 ^ 64) in
    if 0 <=? p' then mk_ifstream (data fp) p' true
    else mk_ifstream (data fp) (gpos fp) false
  else fp.

(** [read(buf, n)]: all [n] bytes or failure. *)
Definition read (n : Z) (fp : ifstream) : list byte * ifstream :=
  if good fp && (0 <=? n)
     && ((n =? 0) || (gpos fp + n <=? Z.of_nat (length (data fp))))
  then (slice (data fp) (Z.to_nat (gpos fp)) (Z.to_nat n),
        mk_ifstream (data fp) (gpos fp + n) true)
  else ([], mk_ifstream (data fp) (gpos fp) false).

(** ** The parsed model: the data members of [ElfT] *)

Record ElfT := mk_ElfT {
  relocs : list (Z * RelT.t);            (* Relocs without addends. *)
  relocsAddends : list (Z * RelaT.t);    (* Relocs + addends. *)
  symbolTable : list SymT.t;
  stringTable : list byte;
  sectionStringTable : list byte }.

Definition empty_ElfT : ElfT := mk_ElfT [] [] [] [] [].

(** The state that [parse] and its helpers work on: the stream they are
    passed and the object they fill. *)
Record parse_state := mk_ps { fp : ifstream; this : ElfT }.

Definition with_fp (f : ifstream -> ifstream) (s : parse_state) : parse_state :=
  mk_ps (f (fp s)) (this s).

Section Parse.
Variable cls : ImageClass.

(** The loop of [addRels] for [SHT_REL], [n] iterations. *)
Fixpoint read_rels (n : nat) (s : parse_state) : result parse_state :=
  match n with
  | O => Ok s
  | S k =>
      let relOffset := tellg (fp s) in
      let (buf, fp') := read (Z.of_nat (RelT.sizeof cls)) (fp s) in
      if negb (good fp') then ErrExit "Failed to read relocation."
      else
        let e := this s in
        read_rels k
          (mk_ps fp'
             (mk_ElfT (relocs e ++ [(relOffset, RelT.decode cls buf)])
                (relocsAddends e) (symbolTable e) (stringTable e)
                (sectionStringTable e)))
  end.

(** The loop of [addRels] for [SHT_RELA]. *)
Fixpoint read_relas (n : nat) (s : parse_state) : result parse_state :=
  match n with
  | O => Ok s
  | S k =>
      let relAOffset := tellg (fp s) in
      let (buf, fp') := read (Z.of_nat (RelaT.sizeof cls)) (fp s) in
      if negb (good fp') then ErrExit "Failed to read relocation."
      else
        let e := this s in
        read_relas k
          (mk_ps fp'
             (mk_ElfT (relocs e)
                (relocsAddends e ++ [(relAOffset, RelaT.decode cls buf)])
                (symbolTable e) (stringTable e) (sectionStringTable e)))
  end.

Definition addRels (shdr : ShdrT.t) (s : parse_state) : result parse_state :=
  _ <- assert (good (fp s)) "Invalid input stream." ;;
  _ <- assert ((ShdrT.sh_type shdr =? SHT_REL)
               || (ShdrT.sh_type shdr =? SHT_RELA))
         "Invalid section header." ;;
  let pos := tellg (fp s) in
  let s1 := with_fp (seekg (ShdrT.sh_offset shdr)) s in
  if ShdrT.sh_entsize shdr =? 0 then Undefined
  else
    let n := Z.to_nat (ShdrT.sh_size shdr / ShdrT.sh_entsize shdr) in
    s2 <- (if ShdrT.sh_type shdr =? SHT_REL then read_rels n s1
           else read_relas n s1) ;;
    Ok (with_fp (seekg pos) s2).

(** [addSectionStringTable] reads [e_shentsize] bytes into a [ShdrT] and
    then uses its members [sh_offset] and [sh_size]: more bytes than the
    object has, or too few to reach these members, is undefined. *)
Definition addSectionStringTable (hdr : EhdrT.t) (s : parse_state)
  : result parse_state :=
  _ <- assert (good (fp s)) "Invalid input stream." ;;
  let pos := tellg (fp s) in
  let s1 :=
    with_fp (seekg ((EhdrT.e_shoff hdr
                     + EhdrT.e_shstrndx hdr * EhdrT.e_shentsize hdr)
                    mod 2 ^ (8 * Z.of_nat (wordsz cls)))) s in
  if (Z.of_nat (ShdrT.sizeof cls) <? EhdrT.e_shentsize hdr)
     || (EhdrT.e_shentsize hdr
         <? Z.of_nat (ShdrT.off_size cls + wordsz cls))
  then Undefined
  else
    let (buf, fp2) := read (EhdrT.e_shentsize hdr) (fp s1) in
    if negb (good fp2)
    then ErrExit "Failed to read the section string table header."
    else
      let shdr := ShdrT.decode cls buf in
      let fp3 := seekg (ShdrT.sh_offset shdr) fp2 in
      let (tbl, fp4) := read (to_signed 8 (ShdrT.sh_size shdr)) fp3 in
      if negb (good fp4)
      then ErrExit "Failed to read the section string table."
      else
        let e := this s in
        Ok (mk_ps (seekg pos fp4)
              (mk_ElfT (relocs e) (relocsAddends e) (symbolTable e)
                 (stringTable e) tbl)).

Definition addStringTable (shdr : ShdrT.t) (s : parse_state)
  : result parse_state :=
  _ <- assert (ShdrT.sh_type shdr =? SHT_STRTAB) "Invalid section header." ;;
  _ <- assert (good (fp s)) "Invalid input stream." ;;
  let pos := tellg (fp s) in
  let fp1 := seekg (ShdrT.sh_offset shdr) (fp s) in
  let (tbl, fp2) := read (to_signed 8 (ShdrT.sh_size shdr)) fp1 in
  if negb (good fp2) then ErrExit "Failed to read string table."
  else
    let e := this s in
    Ok (mk_ps (seekg pos fp2)
          (mk_ElfT (relocs e) (relocsAddends e) (symbolTable e) tbl
             (sectionStringTable e))).

(** The loop of [addSymbolTable]: each iteration reads [entsize] bytes into
    a [SymT] and copies it into the table, which is defined only when the
    whole object has been read. *)
Fixpoint read_syms (n : nat) (entsize : Z) (s : parse_state)
  : result parse_state :=
  match n with
  | O => Ok s
  | S k =>
      if negb (entsize =? Z.of_nat (SymT.sizeof cls)) then Undefined
      else
        let (buf, fp') := read entsize (fp s) in
        if negb (good fp') then ErrExit "Failed to read symbol table entry."
        else
          let e := this s in
          read_syms k entsize
            (mk_ps fp'
               (mk_ElfT (relocs e) (relocsAddends e)
                  (symbolTable e ++ [SymT.decode buf]) (stringTable e)
                  (sectionStringTable e)))
  end.

Definition addSymbolTable (shdr : ShdrT.t) (s : parse_state)
  : result parse_state :=
  _ <- assert (good (fp s)) "Invalid input stream." ;;
  _ <- assert (ShdrT.sh_type shdr =? SHT_DYNSYM) "Invalid section header." ;;
  let pos := tellg (fp s) in
  if ShdrT.sh_entsize shdr =? 0 then Undefined
  else
    (* const int n = shdr.sh_size / shdr.sh_entsize; *)
    let n := to_signed 4
               ((ShdrT.sh_size shdr / ShdrT.sh_entsize shdr) mod 2 ^ 32) in
    let s1 := with_fp (seekg (ShdrT.sh_offset shdr)) s in
    s2 <- read_syms (Z.to_nat n) (ShdrT.sh_entsize shdr) s1 ;;
    Ok (with_fp (seekg pos) s2).

Definition isSection (e : ElfT) (idx : Z) (name : string) : result bool :=
  if idx <? Z.of_nat (length (sectionStringTable e)) then
    s <- cstr_at (sectionStringTable e) (Z.to_nat idx) ;;
    Ok (String.eqb name s)
  else Ok false.

(** [a || b] and [a && b] on fallible operands, left to right. *)
Definition or_else (a b : result bool) : result bool :=
  x <- a ;; if x then Ok true else b.
Definition and_then (a b : result bool) : result bool :=
  x <- a ;; if x then b else Ok false.

(** One iteration of the loop over the section headers in [parse]. *)
Definition parse_section (s : parse_state) : result parse_state :=
  let (buf, fp') := read (Z.of_nat (ShdrT.sizeof cls)) (fp s) in
  if negb (good fp') then ErrExit "Failed to read section header."
  else
    let s1 := mk_ps fp' (this s) in
    let shdr := ShdrT.decode cls buf in
    let ty := ShdrT.sh_type shdr in
    let named := isSection (this s1) (ShdrT.sh_name shdr) in
    isRel <- and_then (Ok ((ty =? SHT_REL) || (ty =? SHT_RELA)))
               (or_else (named ".rel.dyn"%string)
                  (or_else (named ".rela.dyn"%string)
                     (named ".rela.plt"%string))) ;;
    if isRel then addRels shdr s1
    else
      isStr <- and_then (Ok (ty =? SHT_STRTAB)) (named ".dynstr"%string) ;;
      if isStr then addStringTable shdr s1
      else
        isSym <- and_then (Ok (ty =? SHT_DYNSYM)) (named ".dynsym"%string) ;;
        if isSym then addSymbolTable shdr s1
        else Ok s1.

Fixpoint parse_sections (n : nat) (s : parse_state) : result parse_state :=
  match n with
  | O => Ok s
  | S k => s' <- parse_section s ;; parse_sections k s'
  end.

(** [ElfT::parse] on a freshly constructed object. *)
Definition parse (fp0 : ifstream) : result parse_state :=
  _ <- assert (good fp0) "Invalid fp state." ;;
  let (buf, fp1) := read (Z.of_nat (EhdrT.sizeof cls)) fp0 in
  if negb (good fp1) then ErrExit "Failed to read ELF header."
  else
    let hdr := EhdrT.decode cls buf in
    s1 <- addSectionStringTable hdr (mk_ps fp1 empty_ElfT) ;;
    let s2 := with_fp (seekg (EhdrT.e_shoff hdr)) s1 in
    parse_sections (Z.to_nat (EhdrT.e_shnum hdr)) s2.
End Parse.

Definition EI_NIDENT : nat := 16.
Definition ELFMAG : list byte := [Byte.x7f; Byte.x45; Byte.x4c; Byte.x46].
Definition EI_CLASS : nat := 4.

(** [parseElf] on a stream just opened on the file [f]: the class that was
    chosen and the object that [parse] filled. *)
Definition parseElf (f : file) : result (ImageClass * ElfT) :=
  let fp0 := mk_ifstream f 0 true in
  let (buf, fp1) := read (Z.of_nat EI_NIDENT) fp0 in
  let c := nth EI_CLASS buf Byte.x00 in
  if negb (good fp1)
     || negb (if list_eq_dec Byte.byte_eq_dec (firstn 4 buf) ELFMAG
              then true else false)
     || (negb (Byte.eqb c Byte.x01) && negb (Byte.eqb c Byte.x02))
  then ErrExit "Failed to read ELF header."
  else
    let fp2 := seekg 0 fp1 in
    let cls := if Byte.eqb c Byte.x01 then ELFCLASS32 else ELFCLASS64 in
    s <- parse cls fp2 ;;
    Ok (cls, this s).

(** ** The output text stream [std::cout] *)

Record ostream := mk_ostream { text : string; hexfield : bool }.

Inductive item :=
| Str (s : string)             (* a string or character *)
| Num (z : Z)                  (* an unsigned integer, or a nonnegative int *)
| SNum (bytes : nat) (z : Z)   (* a signed integer of that many bytes *)
| Hex                          (* std::hex *)
| Dec                          (* std::dec *)
| Endl.                        (* std::endl *)

Definition hex_of (z : Z) : string :=
  HexadecimalString.NilZero.string_of_uint (N.to_hex_uint (Z.to_N z)).
Definition dec_of (z : Z) : string :=
  DecimalString.NilZero.string_of_uint (N.to_uint (Z.to_N z)).

Definition newline : string := String (ascii_of_nat 10) EmptyString.

(** [o << x].  In hexadecimal a signed integer is printed as the unsigned
    value of its bit pattern. *)
Definition put (o : ostream) (x : item) : ostream :=
  match x with
  | Str s => mk_ostream (text o ++ s) (hexfield o)
  | Num z =>
      mk_ostream (text o ++ (if hexfield o then hex_of z else dec_of z))
        (hexfield o)
  | SNum w z =>
      mk_ostream
        (text o ++ (if hexfield o then hex_of (z mod 2 ^ (8 * Z.of_nat w))
                    else if z <? 0 then "-" ++ dec_of (- z) else dec_of z))
        (hexfield o)
  | Hex => mk_ostream (text o) true
  | Dec => mk_ostream (text o) false
  | Endl => mk_ostream (text o ++ newline) (hexfield o)
  end.

(** [o << x1 << x2 << ...] *)
Definition puts (o : ostream) (xs : list item) : ostream := fold_left put xs o.

(** ** Symbol names and the dump *)

(** The element reads of [relocSymName], kept so that their bounds can be
    stated: [symbolTable[i]] and the C string at [&stringTable[i]]. *)
Inductive access := ReadSym (i : Z) | ReadStr (i : Z).

Section Dump.
Variable cls : ImageClass.
Variable e : ElfT.

(** [relocSymName] with the reads it performs. *)
Definition relocSymName_reads (rInfo : Z) : list access * result string :=
  let symIdx :=
    if Nat.eqb (RelT.sizeof cls) (RelT.sizeof ELFCLASS32)
    then ELF32_R_SYM rInfo else ELF64_R_SYM rInfo in
  if symIdx <? Z.of_nat (length (symbolTable e)) then
    match nth_error (symbolTable e) (Z.to_nat symIdx) with
    | Some sym =>
        if SymT.st_name sym <? Z.of_nat (length (stringTable e))
        then ([ReadSym symIdx; ReadStr (SymT.st_name sym)],
              cstr_at (stringTable e) (Z.to_nat (SymT.st_name sym)))
        else ([ReadSym symIdx], Ok "N/A"%string)
    | None => ([ReadSym symIdx], Undefined)
    end
  else ([], Ok "N/A"%string).

Definition relocSymName (rInfo : Z) : result string :=
  snd (relocSymName_reads rInfo).

(** [dumpReloc(const RelT &)] *)
Definition dumpReloc (rel : RelT.t) (o : ostream) : result ostream :=
  name <- relocSymName (RelT.r_info rel) ;;
  Ok (puts o [Hex; Num (RelT.r_offset rel); Str ", 0x";
              Num (RelT.r_info rel); Str name; Dec]).

(** [dumpReloc(const RelaT &)] *)
Definition dumpRelocA (rel : RelaT.t) (o : ostream) : result ostream :=
  name <- relocSymName (RelaT.r_info rel) ;;
  Ok (puts o [Hex; Num (RelaT.r_offset rel); Str ", 0x";
              Num (RelaT.r_info rel); Str ", 0x";
              SNum (wordsz cls) (RelaT.r_addend rel); Str ", "; Str name;
              Dec]).

(** [std::for_each] with the lambda of [dumpRelocs]; [i] is the counter the
    lambda captures. *)
Fixpoint for_each {R : Type} (dump : R -> ostream -> result ostream)
  (l : list (Z * R)) (i : Z) (o : ostream) : result ostream :=
  match l with
  | [] => Ok o
  | pr :: rest =>
      let o1 := puts o [Str "  "; Num i; Str ") 0x"; Hex; Num (fst pr);
                        Str ", "; Dec] in
      o2 <- dump (snd pr) o1 ;;
      for_each dump rest (i + 1) (put o2 Endl)
  end.

Definition dumpRelocs (o : ostream) : result ostream :=
  o1 <- (if negb (Nat.eqb (length (relocs e)) 0) then
           let o' := puts o [Str "Dynamic relocs (";
                             Num (Z.of_nat (length (relocs e))); Str ")";
                             Endl] in
           let o'' := puts o' [Str "ELFOffset, RelocOffset, RelocInfo, SymName";
                               Endl] in
           for_each dumpReloc (relocs e) 0 o''
         else Ok o) ;;
  if negb (Nat.eqb (length (relocsAddends e)) 0) then
    let o' := puts o1 [Str "Dynamic or PLT relocs with addends (";
                       Num (Z.of_nat (length (relocsAddends e))); Str ")";
                       Endl] in
    let o'' := puts o' [Str "ELFOffset, RelocOffset, RelocInfo, RelocAddend, SymName";
                        Endl] in
    for_each dumpRelocA (relocsAddends e) 0 o''
  else Ok o1.
End Dump.

(** ** The output file stream [std::ofstream]

    [written] is not part of the stream: it lists the [write] calls made so
    far, each with the position it wrote at. *)

Record ofstream := mk_ofstream {
  contents : file; ppos : Z; written : list (Z * list byte) }.

Definition seekp (p : Z) (out : ofstream) : ofstream :=
  mk_ofstream (contents out) p (written out).

Definition write (buf : list byte) (out : ofstream) : ofstream :=
  mk_ofstream (write_at (contents out) (Z.to_nat (ppos out)) buf)
    (ppos out + Z.of_nat (length buf))
    (written out ++ [(ppos out, buf)]).

(** ** The shuffler *)

Definition RAND_MAX : Z := 2147483647.

(** What [swapN] works on besides the object itself: the output stream, the
    number of calls to [rand] made so far, and [std::cout]. *)
Record swap_state := mk_ss { output : ofstream; rand_calls : nat; cout : ostream }.

Section Swap.
Variable cls : ImageClass.
(** The pseudo-random sequence: the value of the k-th call of [rand]. *)
Variable rnd : nat -> Z.

Definition rand (s : swap_state) : Z * swap_state :=
  (rnd (rand_calls s) mod (RAND_MAX + 1),
   mk_ss (output s) (S (rand_calls s)) (cout s)).

Definition no_rel : Z * RelT.t := (0, RelT.mk 0 0).
Definition no_rela : Z * RelaT.t := (0, RelaT.mk 0 0 0).

(** The choice of the collection at the head of the loop body:
    [useRelocs], or [None] for the [return] taken when both are empty. *)
Definition choose_collection (e : ElfT) (s : swap_state)
  : option (bool * swap_state) :=
  if negb (Nat.eqb (length (relocs e)) 0)
     && negb (Nat.eqb (length (relocsAddends e)) 0)
  then let (r, s') := rand s in Some (negb (r mod 2 =? 0), s')
  else if negb (Nat.eqb (length (relocs e)) 0) then Some (true, s)
  else if negb (Nat.eqb (length (relocsAddends e)) 0) then Some (false, s)
  else None.

(** [aIdx = rand() % size; bIdx = rand() % size] *)
Definition choose_indices (size : nat) (s : swap_state)
  : nat * nat * swap_state :=
  let (r1, s1) := rand s in
  let (r2, s2) := rand s1 in
  (Z.to_nat (r1 mod Z.of_nat size), Z.to_nat (r2 mod Z.of_nat size), s2).

(** "Swap 2 relocs": the copies [a] and [b], the exchange of their
    [r_offset], and the two writes. *)
Definition swap_rel (e : ElfT) (aIdx bIdx : nat) (out : ofstream)
  : ofstream :=
  let a := snd (nth aIdx (relocs e) no_rel) in
  let b := snd (nth bIdx (relocs e) no_rel) in
  (* Swap a with b. (Do not modify r_info). *)
  let a' := RelT.mk (RelT.r_offset b) (RelT.r_info a) in
  let b' := RelT.mk (RelT.r_offset a) (RelT.r_info b) in
  let out := seekp (fst (nth aIdx (relocs e) no_rel)) out in
  let out := write (RelT.encode cls a') out in
  let out := seekp (fst (nth bIdx (relocs e) no_rel)) out in
  write (RelT.encode cls b') out.

(** "Else, swap 2 relocs with addends": [r_offset] and [r_addend] are
    exchanged. *)
Definition swap_rela (e : ElfT) (aIdx bIdx : nat) (out : ofstream)
  : ofstream :=
  let a := snd (nth aIdx (relocsAddends e) no_rela) in
  let b := snd (nth bIdx (relocsAddends e) no_rela) in
  (* Swap a with b. (Do not modify r_info). *)
  let a' :=
    RelaT.mk (RelaT.r_offset b) (RelaT.r_info a) (RelaT.r_addend b) in
  let b' :=
    RelaT.mk (RelaT.r_offset a) (RelaT.r_info b) (RelaT.r_addend a) in
  let out := seekp (fst (nth aIdx (relocsAddends e) no_rela)) out in
  let out := write (RelaT.encode cls a') out in
  let out := seekp (fst (nth bIdx (relocsAddends e) no_rela)) out in
  write (RelaT.encode cls b') out.

(** The body of the loop of [swapN]; [None] is the [return]. *)
Definition swap_round (e : ElfT) (s : swap_state) : option swap_state :=
  match choose_collection e s with
  | None => None
  | Some (true, s0) =>
      let '(aIdx, bIdx, s2) := choose_indices (length (relocs e)) s0 in
      Some (mk_ss (swap_rel e aIdx bIdx (output s2)) (rand_calls s2)
              (puts (cout s2) [Str "Swapped reloc "; Num (Z.of_nat aIdx);
                               Str " with "; Num (Z.of_nat bIdx); Endl]))
  | Some (false, s0) =>
      let '(aIdx, bIdx, s2) :=
        choose_indices (length (relocsAddends e)) s0 in
      Some (mk_ss (swap_rela e aIdx bIdx (output s2)) (rand_calls s2)
              (puts (cout s2) [Str "Swapped reloc with addend ";
                               Num (Z.of_nat aIdx); Str " with ";
                               Num (Z.of_nat bIdx); Endl]))
  end.

(** The loop of [swapN], [n] iterations at most. *)
Fixpoint swap_loop (e : ElfT) (n : nat) (s : swap_state) : swap_state :=
  match n with
  | O => s
  | S k =>
      match swap_round e s with
      | None => s
      | Some s' => swap_loop e k s'
      end
  end.

(** [swapN(output, n)] on the object [e].  The member function is [const]:
    the object it returns with is the one it was called on. *)
Definition swapN (e : ElfT) (n : Z) (s : swap_state)
  : result (ElfT * swap_state) :=
  _ <- assert (0 <? n) "Invalid input." ;;
  Ok (e, swap_loop e (Z.to_nat n) s).
End Swap.

(** ** [main] after option parsing

    [doDump], [outFname] and [nSwaps] are what the option loop left; [f] is
    the content of the input file and [rnd] the pseudo-random sequence.  The
    result is the text on standard output and the output file, if one was
    made, with the writes it received after the copy.

    The model is of the runs in which [main] has found one file name after
    the options and has opened that file, and in which the output file, when
    one is asked for, can be opened and receives the copy of the input.  The
    [return] for [-h], the [return] for a missing file name and the
    [errExit] for a file that cannot be opened or copied are not in it. *)
Definition main (rnd : nat -> Z) (doDump : bool) (outFname : option string)
  (nSwaps : Z) (f : file) : result (string * option ofstream) :=
  let nSwaps := if nSwaps <? 0 then 0 else nSwaps in
  ce <- parseElf f ;;
  let '(c, e) := ce in
  o <- (if doDump then dumpRelocs c e (mk_ostream "" false)
        else Ok (mk_ostream "" false)) ;;
  match outFname with
  | Some _ =>
      if 0 <? nSwaps then
        (* Copy input to output. *)
        let outFile := mk_ofstream f 0 [] in
        (* Swap 'n' relocs. *)
        r <- swapN c rnd e nSwaps (mk_ss outFile 0 o) ;;
        Ok (text (cout (snd r)), Some (output (snd r)))
      else Ok (text o, None)
  | None => Ok (text o, None)
  end.

(** ** Small images to run the model on *)

Module Image.
Definition u16 (z : Z) : list byte := le_split 2 z.
Definition u32 (z : Z) : list byte := le_split 4 z.
Definition u64 (z : Z) : list byte := le_split 8 z.
Definition len (l : list byte) : Z := Z.of_nat (length l).

(** An [Elf64_Ehdr] with the given [e_shoff], [e_shnum] and [e_shstrndx]. *)
Definition ehdr64 (shoff shnum shstrndx : Z) : list byte :=
  ELFMAG ++ [Byte.x02] ++ repeat Byte.x00 11
  ++ u16 3 ++ u16 62 ++ u32 1 ++ u64 0 ++ u64 0 ++ u64 shoff ++ u32 0
  ++ u16 64 ++ u16 0 ++ u16 0 ++ u16 64 ++ u16 shnum ++ u16 shstrndx.

(** An [Elf64_Shdr]. *)
Definition shdr64 (name type offset size entsize : Z) : list byte :=
  u32 name ++ u32 type ++ u64 0 ++ u64 0 ++ u64 offset ++ u64 size
  ++ u32 0 ++ u32 0 ++ u64 1 ++ u64 entsize.

Definition rela64 (offset info addend : Z) : list byte :=
  u64 offset ++ u64 info ++ u64 addend.
Definition rel64 (offset info : Z) : list byte := u64 offset ++ u64 info.
Definition sym64 (name : Z) : list byte :=
  u32 name ++ repeat Byte.x00 20.

(** The section name table used by all images: the names start at
    1 [.rela.dyn], 11 [.rela.plt], 21 [.rel.dyn], 30 [.dynsym],
    38 [.dynstr], 46 [.shstrtab]. *)
Definition shstrtab : list byte :=
  Byte.x00 :: list_byte_of_string ".rela.dyn" ++ Byte.x00
  :: list_byte_of_string ".rela.plt" ++ Byte.x00
  :: list_byte_of_string ".rel.dyn" ++ Byte.x00
  :: list_byte_of_string ".dynsym" ++ Byte.x00
  :: list_byte_of_string ".dynstr" ++ Byte.x00
  :: list_byte_of_string ".shstrtab" ++ [Byte.x00].

(** Sections (name index, type, entry size, content) laid out one after
    the other from offset [off]: their contents and their headers. *)
Fixpoint layout (off : Z) (secs : list (Z * Z * Z * list byte))
  : list byte * list byte :=
  match secs with
  | [] => ([], [])
  | (name, ty, ent, body) :: rest =>
      let (bodies, hdrs) := layout (off + len body) rest in
      (body ++ bodies, shdr64 name ty off (len body) ent ++ hdrs)
  end.

(** Header, section name table, contents, section headers; the section
    name table is the last section. *)
Definition image64 (secs : list (Z * Z * Z * list byte)) : file :=
  let start := 64 + len shstrtab in
  let (bodies, hdrs) := layout start secs in
  ehdr64 (start + len bodies) (Z.of_nat (length secs) + 1)
    (Z.of_nat (length secs))
  ++ shstrtab ++ bodies ++ hdrs ++ shdr64 46 SHT_STRTAB 64 (len shstrtab) 0.

Definition dynstr_foo : list byte :=
  Byte.x00 :: list_byte_of_string "foo" ++ [Byte.x00].

(** Two relocations with addends, one symbol named [foo]. *)
Definition two_rela : file :=
  image64
    [ (1, SHT_RELA, 24, rela64 16 257 0 ++ rela64 32 514 4);
      (30, SHT_DYNSYM, 24, sym64 1);
      (38, SHT_STRTAB, 0, dynstr_foo) ].

(** Three relocations without addends. *)
Definition three_rel : file :=
  image64
    [ (21, SHT_REL, 16, rel64 16 257 ++ rel64 32 514 ++ rel64 48 771) ].

(** [.rela.dyn] with two entries and [.rela.plt] with one. *)
Definition dyn_and_plt : file :=
  image64
    [ (1, SHT_RELA, 24, rela64 16 257 0 ++ rela64 32 514 4);
      (11, SHT_RELA, 24, rela64 48 771 8) ].

(** Every recognised name twice. *)
Definition duplicates : file :=
  image64
    [ (1, SHT_RELA, 24, rela64 16 257 0);
      (30, SHT_DYNSYM, 24, sym64 1);
      (38, SHT_STRTAB, 0, dynstr_foo);
      (1, SHT_RELA, 24, rela64 32 514 4);
      (30, SHT_DYNSYM, 24, sym64 5);
      (38, SHT_STRTAB, 0,
        Byte.x00 :: list_byte_of_string "bar" ++ [Byte.x00]) ].

(** No relocation section at all. *)
Definition no_relocs : file :=
  image64 [ (30, SHT_DYNSYM, 24, sym64 1); (38, SHT_STRTAB, 0, dynstr_foo) ].

(** A malformed image: [.rela.dyn] at offset 120 and [.rela.plt] at offset
    128, of one entry each, so that the two entries share 16 bytes. *)
Definition overlapping : file :=
  ehdr64 168 3 2 ++ shstrtab ++ rela64 16 257 0 ++ rela64 32 514 4
  ++ shdr64 1 SHT_RELA 120 24 24 ++ shdr64 11 SHT_RELA 128 24 24
  ++ shdr64 46 SHT_STRTAB 64 (len shstrtab) 0.
End Image.

(** * Notions used in the statements *)

(** The values a structure read from a file can hold. *)
Definition rel_wf (cls : ImageClass) (r : RelT.t) : Prop :=
  0 <= RelT.r_offset r < 2 ^ (8 * Z.of_nat (wordsz cls))
  /\ 0 <= RelT.r_info r < 2 ^ (8 * Z.of_nat (wordsz cls)).

Definition rela_wf (cls : ImageClass) (r : RelaT.t) : Prop :=
  0 <= RelaT.r_offset r < 2 ^ (8 * Z.of_nat (wordsz cls))
  /\ 0 <= RelaT.r_info r < 2 ^ (8 * Z.of_nat (wordsz cls))
  /\ - 2 ^ (8 * Z.of_nat (wordsz cls) - 1) <= RelaT.r_addend r
     < 2 ^ (8 * Z.of_nat (wordsz cls) - 1).

(** The [n] entries of width [sizeof RelT] that lie in [f] from offset [pos]
    on, each with its offset. *)
Fixpoint rel_entries (cls : ImageClass) (f : file) (pos : Z) (n : nat)
  : list (Z * RelT.t) :=
  match n with
  | O => []
  | S k =>
      (pos, RelT.decode cls (slice f (Z.to_nat pos) (RelT.sizeof cls)))
      :: rel_entries cls f (pos + Z.of_nat (RelT.sizeof cls)) k
  end.

Fixpoint rela_entries (cls : ImageClass) (f : file) (pos : Z) (n : nat)
  : list (Z * RelaT.t) :=
  match n with
  | O => []
  | S k =>
      (pos, RelaT.decode cls (slice f (Z.to_nat pos) (RelaT.sizeof cls)))
      :: rela_entries cls f (pos + Z.of_nat (RelaT.sizeof cls)) k
  end.

(** The entry was read from [f] at the offset stored with it. *)
Definition rel_at (cls : ImageClass) (f : file) (pr : Z * RelT.t) : Prop :=
  0 <= fst pr
  /\ fst pr + Z.of_nat (RelT.sizeof cls) <= Z.of_nat (length f)
  /\ snd pr = RelT.decode cls (slice f (Z.to_nat (fst pr)) (RelT.sizeof cls)).

Definition rela_at (cls : ImageClass) (f : file) (pr : Z * RelaT.t) : Prop :=
  0 <= fst pr
  /\ fst pr + Z.of_nat (RelaT.sizeof cls) <= Z.of_nat (length f)
  /\ snd pr = RelaT.decode cls (slice f (Z.to_nat (fst pr)) (RelaT.sizeof cls)).

Definition store_ok (cls : ImageClass) (f : file) (e : ElfT) : Prop :=
  Forall (rel_at cls f) (relocs e) /\ Forall (rela_at cls f) (relocsAddends e).

Definition fp_ok (f : file) (fp0 : ifstream) : Prop :=
  data fp0 = f /\ 0 <= gpos fp0.

Definition ps_inv (cls : ImageClass) (f : file) (s : parse_state) : Prop :=
  fp_ok f (fp s) /\ store_ok cls f (this s).

(** What the exchange of the entries [a] and [b] of [relocs] makes of the
    output stream [out]: two buffers [wa] and [wb] of the width of an entry
    are written at the offsets recorded with [a] and [b]; decoded, each
    carries its own entry's [r_info] and the other entry's [r_offset]; the
    length of the file stays; [wb] is what the file then holds at [b]'s
    offset, and [wa] at [a]'s offset when the two entries do not overlap. *)
Definition exchanged_rel (cls : ImageClass) (e : ElfT) (a b : nat)
  (out out' : ofstream) : Prop :=
  let pa := nth a (relocs e) no_rel in
  let pb := nth b (relocs e) no_rel in
  let w := RelT.sizeof cls in
  exists wa wb : list byte,
    written out' = written out ++ [(fst pa, wa); (fst pb, wb)]
    /\ length wa = w /\ length wb = w
    /\ RelT.r_info (RelT.decode cls wa) = RelT.r_info (snd pa)
    /\ RelT.r_info (RelT.decode cls wb) = RelT.r_info (snd pb)
    /\ RelT.r_offset (RelT.decode cls wa) = RelT.r_offset (snd pb)
    /\ RelT.r_offset (RelT.decode cls wb) = RelT.r_offset (snd pa)
    /\ RelT.r_offset (RelT.decode cls wa) + RelT.r_offset (RelT.decode cls wb)
       = RelT.r_offset (snd pa) + RelT.r_offset (snd pb)
    /\ length (contents out') = length (contents out)
    /\ slice (contents out') (Z.to_nat (fst pb)) w = wb
    /\ (fst pa + Z.of_nat w <= fst pb \/ fst pb + Z.of_nat w <= fst pa ->
        slice (contents out') (Z.to_nat (fst pa)) w = wa).

(** The same for [relocsAddends], where [r_addend] is exchanged too. *)
Definition exchanged_rela (cls : ImageClass) (e : ElfT) (a b : nat)
  (out out' : ofstream) : Prop :=
  let pa := nth a (relocsAddends e) no_rela in
  let pb := nth b (relocsAddends e) no_rela in
  let w := RelaT.sizeof cls in
  exists wa wb : list byte,
    written out' = written out ++ [(fst pa, wa); (fst pb, wb)]
    /\ length wa = w /\ length wb = w
    /\ RelaT.r_info (RelaT.decode cls wa) = RelaT.r_info (snd pa)
    /\ RelaT.r_info (RelaT.decode cls wb) = RelaT.r_info (snd pb)
    /\ RelaT.r_offset (RelaT.decode cls wa) = RelaT.r_offset (snd pb)
    /\ RelaT.r_offset (RelaT.decode cls wb) = RelaT.r_offset (snd pa)
    /\ RelaT.r_addend (RelaT.decode cls wa) = RelaT.r_addend (snd pb)
    /\ RelaT.r_addend (RelaT.decode cls wb) = RelaT.r_addend (snd pa)
    /\ RelaT.r_offset (RelaT.decode cls wa)
       + RelaT.r_offset (RelaT.decode cls wb)
       = RelaT.r_offset (snd pa) + RelaT.r_offset (snd pb)
    /\ length (contents out') = length (contents out)
    /\ slice (contents out') (Z.to_nat (fst pb)) w = wb
    /\ (fst pa + Z.of_nat w <= fst pb \/ fst pb + Z.of_nat w <= fst pa ->
        slice (contents out') (Z.to_nat (fst pa)) w = wa).

(** The line of the dump for entry number [i] of [relocs], whose symbol has
    the name [name]: number, file offset, [r_offset], [r_info], name. *)
Definition rel_line (i : Z) (pr : Z * RelT.t) (name : string) : string :=
  ("  " ++ dec_of i ++ ") 0x" ++ hex_of (fst pr) ++ ", "
   ++ hex_of (RelT.r_offset (snd pr)) ++ ", 0x"
   ++ hex_of (RelT.r_info (snd pr)) ++ name ++ newline)%string.

(** The line for an entry of [relocsAddends]: the addend comes before the
    name, as the unsigned value of its bit pattern. *)
Definition rela_line (cls : ImageClass) (i : Z) (pr : Z * RelaT.t)
  (name : string) : string :=
  ("  " ++ dec_of i ++ ") 0x" ++ hex_of (fst pr) ++ ", "
   ++ hex_of (RelaT.r_offset (snd pr)) ++ ", 0x"
   ++ hex_of (RelaT.r_info (snd pr)) ++ ", 0x"
   ++ hex_of (RelaT.r_addend (snd pr) mod 2 ^ (8 * Z.of_nat (wordsz cls)))
   ++ ", " ++ name ++ newline)%string.

(** One line per entry, numbered from [i], in the order of the list. *)
Fixpoint dump_lines {R : Type} (line : Z -> Z * R -> string -> string)
  (i : Z) (l : list (Z * R)) (names : list string) : string :=
  match l, names with
  | pr :: l', name :: names' =>
      (line i pr name ++ dump_lines line (i + 1) l' names')%string
  | _, _ => ""%string
  end.

(** Nothing for an empty list; otherwise a line with the title and the
    number of entries, a line of column names, and the lines of the
    entries. *)
Definition dump_block {R : Type} (title columns : string)
  (line : Z -> Z * R -> string -> string) (l : list (Z * R))
  (names : list string) : string :=
  match l with
  | [] => ""%string
  | _ =>
      (title ++ dec_of (Z.of_nat (length l)) ++ ")" ++ newline
       ++ columns ++ newline ++ dump_lines line 0 l names)%string
  end.

(** The text of the whole dump, given the names of the entries' symbols. *)
Definition dump_text (cls : ImageClass) (e : ElfT) (names namesA : list string)
  : string :=
  (dump_block "Dynamic relocs ("
     "ELFOffset, RelocOffset, RelocInfo, SymName" rel_line (relocs e) names
   ++ dump_block "Dynamic or PLT relocs with addends ("
        "ELFOffset, RelocOffset, RelocInfo, RelocAddend, SymName"
        (rela_line cls) (relocsAddends e) namesA)%string.

(** The section header's entry count. *)
Definition entry_count (shdr : ShdrT.t) : nat :=
  Z.to_nat (ShdrT.sh_size shdr / ShdrT.sh_entsize shdr).



Fixpoint sym_entries (cls : ImageClass) (f : file) (pos : Z) (n : nat)
  : list SymT.t :=
  match n with
  | O => []
  | S k =>
      SymT.decode (slice f (Z.to_nat pos) (SymT.sizeof cls))
      :: sym_entries cls f (pos + Z.of_nat (SymT.sizeof cls)) k
  end.

(** The symbol index in an info value: the bits above the low 8 for the
    32-bit structures, above the low 32 for the 64-bit ones. *)
Definition sym_index (cls : ImageClass) (rInfo : Z) : Z :=
  match cls with
  | ELFCLASS32 => rInfo / 2 ^ 8
  | ELFCLASS64 => rInfo / 2 ^ 32
  end.

(** The truth value of a test that may be undefined. *)
Definition truth (r : result bool) : bool :=
  match r with Ok b => b | _ => false end.

(** The section name table holds [name], with its terminator, at [idx]:
    the test of [isSection]. *)
Definition named (e : ElfT) (idx : Z) (name : string) : bool :=
  truth (isSection e idx name).

(** The [n] section headers that lie in [f] from offset [pos] on, in the
    order of the table. *)
Fixpoint section_headers (cls : ImageClass) (f : file) (pos : Z) (n : nat)
  : list ShdrT.t :=
  match n with
  | O => []
  | S k =>
      ShdrT.decode cls (slice f (Z.to_nat pos) (ShdrT.sizeof cls))
      :: section_headers cls f (pos + Z.of_nat (ShdrT.sizeof cls)) k
  end.

(** The number of symbols of a section as [addSymbolTable] holds it, in an
    [int]. *)
Definition symbol_count (shdr : ShdrT.t) : nat :=
  Z.to_nat
    (to_signed 4 ((ShdrT.sh_size shdr / ShdrT.sh_entsize shdr) mod 2 ^ 32)).

(** What loading the section [shdr] of the file [f] makes of the object
    [e], whatever [e] holds already: the entries of a relocation section
    named [.rel.dyn], [.rela.dyn] or [.rela.plt] come after the entries of
    their collection, the bytes of a string table named [.dynstr] become the
    dynamic string table, the symbols of a [.dynsym] come after the symbols
    there are; any other section leaves the object as it is. *)
Definition load_section (cls : ImageClass) (f : file) (e : ElfT)
  (shdr : ShdrT.t) : ElfT :=
  let ty := ShdrT.sh_type shdr in
  let nm := ShdrT.sh_name shdr in
  if ((ty =? SHT_REL) || (ty =? SHT_RELA))
     && (named e nm ".rel.dyn" || named e nm ".rela.dyn"
         || named e nm ".rela.plt")
  then
    if ty =? SHT_REL then
      mk_ElfT
        (relocs e ++ rel_entries cls f (ShdrT.sh_offset shdr)
                       (entry_count shdr))
        (relocsAddends e) (symbolTable e) (stringTable e)
        (sectionStringTable e)
    else
      mk_ElfT (relocs e)
        (relocsAddends e ++ rela_entries cls f (ShdrT.sh_offset shdr)
                              (entry_count shdr))
        (symbolTable e) (stringTable e) (sectionStringTable e)
  else if (ty =? SHT_STRTAB) && named e nm ".dynstr" then
    mk_ElfT (relocs e) (relocsAddends e) (symbolTable e)
      (slice f (Z.to_nat (ShdrT.sh_offset shdr))
         (Z.to_nat (ShdrT.sh_size shdr)))
      (sectionStringTable e)
  else if (ty =? SHT_DYNSYM) && named e nm ".dynsym" then
    mk_ElfT (relocs e) (relocsAddends e)
      (symbolTable e ++ sym_entries cls f (ShdrT.sh_offset shdr)
                          (symbol_count shdr))
      (stringTable e) (sectionStringTable e)
  else e.

(** The line that a round of [swapN] prints: for the collection with
    addends or the one without, and the two indices drawn. *)
Definition round_line (withAddend : bool) (a b : nat) : string :=
  ((if withAddend then "Swapped reloc with addend " else "Swapped reloc ")
   ++ dec_of (Z.of_nat a) ++ " with " ++ dec_of (Z.of_nat b) ++ newline)%string.

(** The lines of a sequence of rounds. *)
Fixpoint round_lines (rounds : list (bool * nat * nat)) : string :=
  match rounds with
  | [] => ""%string
  | (w, a, b) :: rest => (round_line w a b ++ round_lines rest)%string
  end.

(** * Models and states of the small images *)

(** The model that [parseElf] builds from [Image.two_rela]. *)
Definition two_rela_model : ElfT :=
  mk_ElfT []
    [(120, RelaT.mk 16 257 0); (144, RelaT.mk 32 514 4)]
    [SymT.mk 1] Image.dynstr_foo Image.shstrtab.

(** A swap state over a fresh copy of the file [f]. *)
Definition fresh (f : file) : swap_state :=
  mk_ss (mk_ofstream f 0 []) 0 (mk_ostream "" false).

(** The header of [.rela.plt] in [Image.dyn_and_plt], and the state of
    [parse] when it reaches it: [.rela.dyn] has been added. *)
Definition plt_shdr : ShdrT.t := ShdrT.mk 11 SHT_RELA 168 24 24.

Definition before_plt : parse_state :=
  mk_ps (mk_ifstream Image.dyn_and_plt 320 true)
    (mk_ElfT [] [(120, RelaT.mk 16 257 0); (144, RelaT.mk 32 514 4)]
       [] [] Image.shstrtab).

(** The state of [parse] on [Image.duplicates] when the first section of
    each name has been loaded, and the headers of the three that follow. *)
Definition after_first_occurrences : parse_state :=
  mk_ps (mk_ifstream Image.duplicates 418 true)
    (mk_ElfT [] [(120, RelaT.mk 16 257 0)] [SymT.mk 1] Image.dynstr_foo
       Image.shstrtab).

Definition second_rela_dyn : ShdrT.t := ShdrT.mk 1 SHT_RELA 173 24 24.
Definition second_dynsym : ShdrT.t := ShdrT.mk 30 SHT_DYNSYM 197 24 24.
Definition second_dynstr : ShdrT.t := ShdrT.mk 38 SHT_STRTAB 221 5 0.

(** [Image.duplicates] with the second section of each name made a section
    of type 0, which the loader skips: the image as it would be seen if
    only first occurrences were loaded. *)
Definition first_occurrences : file :=
  Image.image64
    [ (1, SHT_RELA, 24, Image.rela64 16 257 0);
      (30, SHT_DYNSYM, 24, Image.sym64 1);
      (38, SHT_STRTAB, 0, Image.dynstr_foo);
      (1, 0, 24, Image.rela64 32 514 4);
      (30, 0, 24, Image.sym64 5);
      (38, 0, 0, Byte.x00 :: list_byte_of_string "bar" ++ [Byte.x00]) ].

(** A model whose only symbol has a name index past the string table. *)
Definition dangling_name_model : ElfT :=
  mk_ElfT [] [] [SymT.mk 100] Image.dynstr_foo [].

(** The model that [parseElf] builds from [Image.no_relocs]. *)
Definition no_relocs_model : ElfT :=
  mk_ElfT [] [] [SymT.mk 1] Image.dynstr_foo Image.shstrtab.

(** The pseudo-random sequence 0, 1, 0, 0, ...: on [Image.two_rela] the
    first round exchanges entries 0 and 1 and the second draws 0 twice. *)
Definition rnd_0100 (k : nat) : Z := if Nat.eqb k 1 then 1 else 0.

(** The model that [parseElf] builds from [Image.duplicates]. *)
Definition duplicates_model : ElfT :=
  mk_ElfT []
    [(120, RelaT.mk 16 257 0); (173, RelaT.mk 32 514 4)]
    [SymT.mk 1; SymT.mk 5]
    (Byte.x00 :: list_byte_of_string "bar" ++ [Byte.x00])
    Image.shstrtab.

(** * Notions used in the further properties *)

(** The value of [e_ident[EI_CLASS]] for a class. *)
Definition class_byte (cls : ImageClass) : byte :=
  match cls with ELFCLASS32 => Byte.x01 | ELFCLASS64 => Byte.x02 end.

(** The number of values the type part of an info value can take: what
    [ELF32_R_SYM] and [ELF64_R_SYM] shift out. *)
Definition type_range (cls : ImageClass) : Z :=
  match cls with ELFCLASS32 => 2 ^ 8 | ELFCLASS64 => 2 ^ 32 end.

(** The run does not end in a failed assertion. *)
Definition no_assert {A : Type} (r : result A) : Prop :=
  forall msg, r <> AssertFail msg.

(** The ELF header of [Image.two_rela] and the state in which [parse] calls
    [addSectionStringTable] on it. *)
Definition two_rela_hdr : EhdrT.t := EhdrT.mk 197 64 4 3.

Definition after_ehdr : parse_state :=
  mk_ps (mk_ifstream Image.two_rela 64 true) empty_ElfT.

(** A header of a symbol table whose entry count does not fit in [int]. *)
Definition huge_dynsym : ShdrT.t :=
  ShdrT.mk 30 SHT_DYNSYM 144 (2 ^ 31 * 24) 24.

(** A header of [.rela.dyn] that claims three entries where the file
    [Image.two_rela] ends before the third. *)
Definition long_rela_dyn : ShdrT.t := ShdrT.mk 1 SHT_RELA 400 72 24.

(** The byte at index [i] of the file belongs to no entry of the store. *)
Definition outside_entries (cls : ImageClass) (e : ElfT) (i : nat) : Prop :=
  Forall (fun pr : Z * RelT.t =>
            ~ (fst pr <= Z.of_nat i < fst pr + Z.of_nat (RelT.sizeof cls)))
    (relocs e)
  /\ Forall (fun pr : Z * RelaT.t =>
               ~ (fst pr <= Z.of_nat i
                  < fst pr + Z.of_nat (RelaT.sizeof cls)))
       (relocsAddends e).

(** [buf] is the entry stored with the offset [pos], encoded with its own
    [r_info] and with the [r_offset] (and [r_addend]) of an entry of the
    same collection. *)
Definition exchanged_buffer (cls : ImageClass) (e : ElfT) (pos : Z)
  (buf : list byte) : Prop :=
  (exists r r',
      In (pos, r) (relocs e) /\ In r' (map snd (relocs e))
      /\ buf = RelT.encode cls (RelT.mk (RelT.r_offset r') (RelT.r_info r)))
  \/ (exists r r',
         In (pos, r) (relocsAddends e) /\ In r' (map snd (relocsAddends e))
         /\ buf = RelaT.encode cls
                    (RelaT.mk (RelaT.r_offset r') (RelaT.r_info r)
                       (RelaT.r_addend r'))).

(** The number of calls of [rand] in a round. *)
Definition draws_per_round (e : ElfT) : nat :=
  if negb (Nat.eqb (length (relocs e)) 0)
     && negb (Nat.eqb (length (relocsAddends e)) 0)
  then 3 else 2.

(** An image with a single relocation entry, and its model. *)
Definition one_rela : file :=
  Image.image64 [ (1, SHT_RELA, 24, Image.rela64 16 257 0) ].

Definition one_rela_model : ElfT :=
  mk_ElfT [] [(120, RelaT.mk 16 257 0)] [] [] Image.shstrtab.


(** [Image.two_rela] cut after 40 bytes: the identification is complete,
    the ELF header is not. *)
Definition cut_header : file := firstn 40 Image.two_rela.

(** * Properties *)

(** ** Files: slices and writes *)

Lemma length_slice (f : file) (p n : nat) :
  (p + n <= length f)%nat -> length (slice f p n) = n.
Proof.
  intros H. unfold slice. rewrite length_firstn, length_skipn. lia.
Qed.

Lemma length_slice_le (f : file) (p n : nat) : (length (slice f p n) <= n)%nat.
Proof. unfold slice. rewrite length_firstn. lia. Qed.

Lemma slice_app_l (a b : list byte) : slice (a ++ b) 0 (length a) = a.
Proof.
  unfold slice. cbn [skipn]. rewrite firstn_app, firstn_all, Nat.sub_diag.
  cbn [firstn]. apply app_nil_r.
Qed.

Lemma slice_app_r (a b : list byte) (n : nat) :
  slice (a ++ b) (length a) n = slice b 0 n.
Proof.
  unfold slice. rewrite skipn_app, skipn_all, Nat.sub_diag. reflexivity.
Qed.

Lemma slice_slice (f : file) (p n q m : nat) :
  (q + m <= n)%nat -> slice (slice f p n) q m = slice f (p + q) m.
Proof.
  intros H. unfold slice.
  rewrite skipn_firstn_comm, firstn_firstn, skipn_skipn.
  f_equal; [lia | f_equal; lia].
Qed.

Lemma slice_split (f : file) (p n m : nat) :
  slice f p (n + m) = slice f p n ++ slice f (p + n) m.
Proof.
  unfold slice.
  replace (skipn (p + n) f) with (skipn n (skipn p f))
    by (rewrite skipn_skipn; f_equal; lia).
  rewrite (firstn_skipn_comm m n (skipn p f)).
  rewrite <- (firstn_skipn n (firstn (n + m) (skipn p f))) at 1.
  f_equal. rewrite firstn_firstn. f_equal. lia.
Qed.

Lemma slice_all (bs : list byte) : slice bs 0 (length bs) = bs.
Proof. unfold slice. cbn [skipn]. apply firstn_all. Qed.

Lemma write_at_inside (f : file) (p : nat) (buf : list byte) :
  (p + length buf <= length f)%nat ->
  write_at f p buf = firstn p f ++ buf ++ skipn (p + length buf) f.
Proof.
  intros H. unfold write_at.
  replace (p - length f)%nat with 0%nat by lia. reflexivity.
Qed.

Lemma length_write_at (f : file) (p : nat) (buf : list byte) :
  (p + length buf <= length f)%nat -> length (write_at f p buf) = length f.
Proof.
  intros H. rewrite write_at_inside by exact H.
  rewrite !length_app, length_firstn, length_skipn. lia.
Qed.

Lemma slice_write_at (f : file) (p : nat) (buf : list byte) :
  (p + length buf <= length f)%nat ->
  slice (write_at f p buf) p (length buf) = buf.
Proof.
  intros H. rewrite write_at_inside by exact H. unfold slice.
  rewrite skipn_app, length_firstn, Nat.min_l by lia.
  rewrite skipn_firstn_comm, Nat.sub_diag. cbn [firstn app skipn].
  rewrite firstn_app, firstn_all, Nat.sub_diag. cbn [firstn].
  apply app_nil_r.
Qed.

Lemma slice_write_at_disjoint (f : file) (p : nat) (buf : list byte)
  (q n : nat) :
  (p + length buf <= length f)%nat ->
  (q + n <= p \/ p + length buf <= q)%nat ->
  slice (write_at f p buf) q n = slice f q n.
Proof.
  intros H [Hb | Ha]; rewrite write_at_inside by exact H; unfold slice.
  - rewrite skipn_app, length_firstn, Nat.min_l by lia.
    rewrite firstn_app.
    replace (n - length (skipn q (firstn p f)))%nat with 0%nat
      by (rewrite length_skipn, length_firstn; lia).
    cbn [firstn]. rewrite app_nil_r.
    rewrite skipn_firstn_comm, firstn_firstn. f_equal. lia.
  - rewrite skipn_app, length_firstn, Nat.min_l by lia.
    rewrite (skipn_all2 (n := q) (firstn p f)) by (rewrite length_firstn; lia).
    cbn [app]. rewrite skipn_app.
    rewrite (skipn_all2 (n := (q - p)%nat) buf) by lia.
    cbn [app]. rewrite skipn_skipn. do 2 f_equal. lia.
Qed.

Lemma write_at_slice (f : file) (p n : nat) :
  (p + n <= length f)%nat -> write_at f p (slice f p n) = f.
Proof.
  intros H. rewrite write_at_inside by (rewrite length_slice; lia).
  rewrite length_slice by exact H. unfold slice.
  rewrite <- (firstn_skipn p f) at 4.
  f_equal.
  rewrite <- (firstn_skipn n (skipn p f)) at 2.
  f_equal. rewrite skipn_skipn. f_equal. lia.
Qed.

(** ** Encoding and decoding of relocation entries *)

Lemma pow_wordsz (cls : ImageClass) :
  2 ^ (8 * Z.of_nat (wordsz cls)) = 2 ^ 32
  \/ 2 ^ (8 * Z.of_nat (wordsz cls)) = 2 ^ 64.
Proof. destruct cls; [left | right]; reflexivity. Qed.

Lemma le_combine_slice_range (cls : ImageClass) (bs : list byte) (p : nat) :
  0 <= le_combine (slice bs p (wordsz cls)) < 2 ^ (8 * Z.of_nat (wordsz cls)).
Proof.
  pose proof (le_combine_bound (slice bs p (wordsz cls))) as Hb.
  pose proof (length_slice_le bs p (wordsz cls)) as Hl.
  split; [apply Hb |].
  eapply Z.lt_le_trans; [apply Hb |].
  apply Z.pow_le_mono_r; lia.
Qed.

Lemma to_signed_mod (n : nat) (z : Z) :
  (0 < n)%nat ->
  to_signed n z mod 2 ^ (Z.of_nat n * 8) = z mod 2 ^ (Z.of_nat n * 8).
Proof.
  intros Hn. unfold to_signed.
  replace (8 * Z.of_nat n) with (Z.of_nat n * 8) by lia.
  destruct (z <? 2 ^ (Z.of_nat n * 8 - 1)); [reflexivity |].
  replace (z - 2 ^ (Z.of_nat n * 8)) with (z + (-1) * 2 ^ (Z.of_nat n * 8))
    by lia.
  apply Z_mod_plus_full.
Qed.

Lemma to_signed_of_mod (cls : ImageClass) (z : Z) :
  - 2 ^ (8 * Z.of_nat (wordsz cls) - 1) <= z
    < 2 ^ (8 * Z.of_nat (wordsz cls) - 1) ->
  to_signed (wordsz cls) (z mod 2 ^ (Z.of_nat (wordsz cls) * 8)) = z.
Proof.
  unfold to_signed. destruct cls; cbn [wordsz]; intros H.
  - change (2 ^ (8 * Z.of_nat 4 - 1)) with 2147483648 in *.
    change (2 ^ (Z.of_nat 4 * 8)) with 4294967296.
    change (2 ^ (8 * Z.of_nat 4)) with 4294967296.
    destruct (Z.ltb_spec (z mod 4294967296) 2147483648);
      Z.div_mod_to_equations; lia.
  - change (2 ^ (8 * Z.of_nat 8 - 1)) with 9223372036854775808 in *.
    change (2 ^ (Z.of_nat 8 * 8)) with 18446744073709551616.
    change (2 ^ (8 * Z.of_nat 8)) with 18446744073709551616.
    destruct (Z.ltb_spec (z mod 18446744073709551616) 9223372036854775808);
      Z.div_mod_to_equations; lia.
Qed.

Lemma to_signed_range (cls : ImageClass) (z : Z) :
  0 <= z < 2 ^ (8 * Z.of_nat (wordsz cls)) ->
  - 2 ^ (8 * Z.of_nat (wordsz cls) - 1) <= to_signed (wordsz cls) z
    < 2 ^ (8 * Z.of_nat (wordsz cls) - 1).
Proof.
  unfold to_signed. destruct cls; cbn [wordsz]; intros H.
  - change (2 ^ (8 * Z.of_nat 4 - 1)) with 2147483648 in *.
    change (2 ^ (8 * Z.of_nat 4)) with 4294967296 in *.
    destruct (Z.ltb_spec z 2147483648); lia.
  - change (2 ^ (8 * Z.of_nat 8 - 1)) with 9223372036854775808 in *.
    change (2 ^ (8 * Z.of_nat 8)) with 18446744073709551616 in *.
    destruct (Z.ltb_spec z 9223372036854775808); lia.
Qed.

Lemma slice_app_l' (a b : list byte) (n : nat) :
  length a = n -> slice (a ++ b) 0 n = a.
Proof. intros <-. apply slice_app_l. Qed.

Lemma slice_app_r' (a b : list byte) (n m : nat) :
  length a = n -> slice (a ++ b) n m = slice b 0 m.
Proof. intros <-. apply slice_app_r. Qed.

Lemma slice_all' (bs : list byte) (n : nat) :
  length bs = n -> slice bs 0 n = bs.
Proof. intros <-. apply slice_all. Qed.

Lemma le_combine_split_small (n : nat) (z : Z) :
  0 <= z < 2 ^ (8 * Z.of_nat n) -> le_combine (le_split n z) = z.
Proof.
  intros H. rewrite le_combine_split.
  apply Z.mod_small. now replace (Z.of_nat n * 8) with (8 * Z.of_nat n) by lia.
Qed.

Lemma wordsz_pos (cls : ImageClass) : (0 < wordsz cls)%nat.
Proof. destruct cls; cbn; lia. Qed.

Lemma rel_length_encode (cls : ImageClass) (r : RelT.t) :
  length (RelT.encode cls r) = RelT.sizeof cls.
Proof.
  unfold RelT.encode, RelT.sizeof.
  rewrite length_app, !length_le_split. lia.
Qed.

Lemma rela_length_encode (cls : ImageClass) (r : RelaT.t) :
  length (RelaT.encode cls r) = RelaT.sizeof cls.
Proof.
  unfold RelaT.encode, RelaT.sizeof.
  rewrite !length_app, !length_le_split. lia.
Qed.

Lemma rel_decode_wf (cls : ImageClass) (bs : list byte) :
  rel_wf cls (RelT.decode cls bs).
Proof. split; apply le_combine_slice_range. Qed.

Lemma rela_decode_wf (cls : ImageClass) (bs : list byte) :
  rela_wf cls (RelaT.decode cls bs).
Proof.
  repeat split; try apply le_combine_slice_range;
    apply to_signed_range, le_combine_slice_range.
Qed.

Lemma rel_decode_encode (cls : ImageClass) (r : RelT.t) :
  rel_wf cls r -> RelT.decode cls (RelT.encode cls r) = r.
Proof.
  intros [Ho Hi]. destruct r as [o i]. cbn [RelT.r_offset RelT.r_info] in *.
  unfold RelT.decode, RelT.encode. cbn [RelT.r_offset RelT.r_info].
  rewrite slice_app_l' by apply length_le_split.
  rewrite slice_app_r' by apply length_le_split.
  rewrite slice_all' by apply length_le_split.
  now rewrite !le_combine_split_small.
Qed.

Lemma rela_decode_encode (cls : ImageClass) (r : RelaT.t) :
  rela_wf cls r -> RelaT.decode cls (RelaT.encode cls r) = r.
Proof.
  intros (Ho & Hi & Ha). destruct r as [o i a].
  cbn [RelaT.r_offset RelaT.r_info RelaT.r_addend] in *.
  unfold RelaT.decode, RelaT.encode.
  cbn [RelaT.r_offset RelaT.r_info RelaT.r_addend].
  rewrite slice_app_l' by apply length_le_split.
  rewrite slice_app_r' by apply length_le_split.
  rewrite slice_app_l' by apply length_le_split.
  rewrite app_assoc.
  rewrite slice_app_r'
    by (rewrite length_app, !length_le_split; lia).
  rewrite slice_all' by apply length_le_split.
  rewrite !le_combine_split_small by assumption.
  rewrite le_combine_split, to_signed_of_mod by assumption.
  reflexivity.
Qed.

Lemma rel_encode_decode (cls : ImageClass) (bs : list byte) :
  length bs = RelT.sizeof cls -> RelT.encode cls (RelT.decode cls bs) = bs.
Proof.
  intros Hl. unfold RelT.sizeof in Hl.
  unfold RelT.encode, RelT.decode. cbn [RelT.r_offset RelT.r_info].
  rewrite !split_le_combine' by (apply length_slice; lia).
  change (wordsz cls) with (0 + wordsz cls)%nat at 3.
  rewrite <- slice_split. apply slice_all'. lia.
Qed.

Lemma rela_encode_decode (cls : ImageClass) (bs : list byte) :
  length bs = RelaT.sizeof cls -> RelaT.encode cls (RelaT.decode cls bs) = bs.
Proof.
  intros Hl. unfold RelaT.sizeof in Hl.
  unfold RelaT.encode, RelaT.decode.
  cbn [RelaT.r_offset RelaT.r_info RelaT.r_addend].
  rewrite (le_split_mod (to_signed _ _)), to_signed_mod by apply wordsz_pos.
  rewrite <- le_split_mod.
  rewrite !split_le_combine' by (apply length_slice; lia).
  change (wordsz cls) with (0 + wordsz cls)%nat at 3.
  replace (2 * wordsz cls)%nat with (0 + wordsz cls + wordsz cls)%nat by lia.
  rewrite <- !slice_split. apply slice_all'. lia.
Qed.

(** ** Sequencing *)

Lemma bind_Ok {A B : Type} (r : result A) (k : A -> result B) (b : B) :
  bind r k = Ok b -> exists a, r = Ok a /\ k a = Ok b.
Proof. destruct r; cbn; intros H; try discriminate. eauto. Qed.

Lemma assert_Ok (c : bool) (msg : string) (u : unit) :
  assert c msg = Ok u -> c = true.
Proof. destruct c; cbn; [reflexivity | discriminate]. Qed.

(** ** The loops of [addRels] *)





Lemma rel_sizeof_pos cls : 0 < Z.of_nat (RelT.sizeof cls).
Proof. destruct cls; cbn; lia. Qed.

Lemma rela_sizeof_pos cls : 0 < Z.of_nat (RelaT.sizeof cls).
Proof. destruct cls; cbn; lia. Qed.

(** What [read] does with a positive count. *)
Lemma read_pos (n : Z) (fp0 : ifstream) :
  0 < n ->
  read n fp0 =
  if good fp0 && (gpos fp0 + n <=? Z.of_nat (length (data fp0)))
  then (slice (data fp0) (Z.to_nat (gpos fp0)) (Z.to_nat n),
        mk_ifstream (data fp0) (gpos fp0 + n) true)
  else ([], mk_ifstream (data fp0) (gpos fp0) false).
Proof.
  intros Hn. unfold read.
  destruct (Z.leb_spec 0 n); [| lia].
  destruct (Z.eqb_spec n 0); [lia |].
  now rewrite andb_true_r, orb_false_l.
Qed.

(** The loop for [SHT_REL]: it fails unless the stream is good and all [n]
    entries lie within the file, and then appends exactly these. *)
Lemma read_rels_spec (cls : ImageClass) (n : nat) : forall s,
  read_rels cls n s =
  if Nat.eqb n 0 then Ok s
  else if good (fp s)
          && (gpos (fp s) + Z.of_nat n * Z.of_nat (RelT.sizeof cls)
              <=? Z.of_nat (length (data (fp s))))
  then Ok (mk_ps
             (mk_ifstream (data (fp s))
                (gpos (fp s) + Z.of_nat n * Z.of_nat (RelT.sizeof cls)) true)
             (mk_ElfT
                (relocs (this s)
                 ++ rel_entries cls (data (fp s)) (gpos (fp s)) n)
                (relocsAddends (this s)) (symbolTable (this s))
                (stringTable (this s)) (sectionStringTable (this s))))
  else ErrExit "Failed to read relocation.".
Proof.
  induction n as [| n IH]; intros s; [reflexivity |].
  pose proof (rel_sizeof_pos cls) as Hw.
  cbn [read_rels Nat.eqb].
  rewrite read_pos by exact Hw.
  destruct s as [[d g gd] e]; cbn [fp this data gpos good tellg] in *.
  destruct gd; cbn [andb negb]; [| reflexivity].
  destruct (Z.leb_spec (g + Z.of_nat (RelT.sizeof cls)) (Z.of_nat (length d)))
    as [Hle | Hgt]; cbn [good negb].
  - rewrite IH. cbn [fp this data gpos good relocs relocsAddends symbolTable
                       stringTable sectionStringTable andb].
    destruct n as [| n]; cbn [Nat.eqb].
    + cbn [rel_entries].
      destruct (Z.leb_spec (g + Z.of_nat 1 * Z.of_nat (RelT.sizeof cls))
                  (Z.of_nat (length d))); [| lia].
      rewrite Nat2Z.id. do 3 f_equal. lia.
    + replace (g + Z.of_nat (RelT.sizeof cls)
               + Z.of_nat (S n) * Z.of_nat (RelT.sizeof cls))
        with (g + Z.of_nat (S (S n)) * Z.of_nat (RelT.sizeof cls)) by lia.
      destruct (_ <=? _); [| reflexivity].
      rewrite <- app_assoc, Nat2Z.id. reflexivity.
  - destruct (Z.leb_spec (g + Z.of_nat (S n) * Z.of_nat (RelT.sizeof cls))
                (Z.of_nat (length d))); [nia | reflexivity].
Qed.

Lemma read_relas_spec (cls : ImageClass) (n : nat) : forall s,
  read_relas cls n s =
  if Nat.eqb n 0 then Ok s
  else if good (fp s)
          && (gpos (fp s) + Z.of_nat n * Z.of_nat (RelaT.sizeof cls)
              <=? Z.of_nat (length (data (fp s))))
  then Ok (mk_ps
             (mk_ifstream (data (fp s))
                (gpos (fp s) + Z.of_nat n * Z.of_nat (RelaT.sizeof cls)) true)
             (mk_ElfT (relocs (this s))
                (relocsAddends (this s)
                 ++ rela_entries cls (data (fp s)) (gpos (fp s)) n)
                (symbolTable (this s)) (stringTable (this s))
                (sectionStringTable (this s))))
  else ErrExit "Failed to read relocation.".
Proof.
  induction n as [| n IH]; intros s; [reflexivity |].
  pose proof (rela_sizeof_pos cls) as Hw.
  cbn [read_relas Nat.eqb].
  rewrite read_pos by exact Hw.
  destruct s as [[d g gd] e]; cbn [fp this data gpos good tellg] in *.
  destruct gd; cbn [andb negb]; [| reflexivity].
  destruct (Z.leb_spec (g + Z.of_nat (RelaT.sizeof cls)) (Z.of_nat (length d)))
    as [Hle | Hgt]; cbn [good negb].
  - rewrite IH. cbn [fp this data gpos good relocs relocsAddends symbolTable
                       stringTable sectionStringTable andb].
    destruct n as [| n]; cbn [Nat.eqb].
    + cbn [rela_entries].
      destruct (Z.leb_spec (g + Z.of_nat 1 * Z.of_nat (RelaT.sizeof cls))
                  (Z.of_nat (length d))); [| lia].
      rewrite Nat2Z.id. do 3 f_equal. lia.
    + replace (g + Z.of_nat (RelaT.sizeof cls)
               + Z.of_nat (S n) * Z.of_nat (RelaT.sizeof cls))
        with (g + Z.of_nat (S (S n)) * Z.of_nat (RelaT.sizeof cls)) by lia.
      destruct (_ <=? _); [| reflexivity].
      rewrite <- app_assoc, Nat2Z.id. reflexivity.
  - destruct (Z.leb_spec (g + Z.of_nat (S n) * Z.of_nat (RelaT.sizeof cls))
                (Z.of_nat (length d))); [nia | reflexivity].
Qed.

(** ** What [parse] guarantees about the relocation store *)

Lemma rel_entries_at cls f n : forall pos,
  0 <= pos ->
  pos + Z.of_nat n * Z.of_nat (RelT.sizeof cls) <= Z.of_nat (length f) ->
  Forall (rel_at cls f) (rel_entries cls f pos n).
Proof.
  pose proof (rel_sizeof_pos cls) as Hw.
  induction n as [| n IH]; intros pos H0 Hle; cbn [rel_entries];
    constructor.
  - unfold rel_at; cbn [fst snd]. repeat split; [lia | nia].
  - apply IH; nia.
Qed.

Lemma rela_entries_at cls f n : forall pos,
  0 <= pos ->
  pos + Z.of_nat n * Z.of_nat (RelaT.sizeof cls) <= Z.of_nat (length f) ->
  Forall (rela_at cls f) (rela_entries cls f pos n).
Proof.
  pose proof (rela_sizeof_pos cls) as Hw.
  induction n as [| n IH]; intros pos H0 Hle; cbn [rela_entries];
    constructor.
  - unfold rela_at; cbn [fst snd]. repeat split; [lia | nia].
  - apply IH; nia.
Qed.

Lemma seekg_fp_ok f p fp0 : fp_ok f fp0 -> fp_ok f (seekg p fp0).
Proof.
  intros [Hd Hg]. unfold seekg.
  destruct (good fp0); [| now split].
  destruct (Z.leb_spec 0 (to_signed 8 (p mod 2 ^ 64))); now split.
Qed.

Lemma read_fp_ok f n fp0 buf fp' :
  read n fp0 = (buf, fp') -> fp_ok f fp0 -> fp_ok f fp'.
Proof.
  unfold read. intros H [Hd Hg].
  destruct (good fp0 && (0 <=? n)
            && ((n =? 0) || (gpos fp0 + n <=? Z.of_nat (length (data fp0)))))
    eqn:Hc; inversion H; subst; split; cbn; try assumption; try reflexivity.
  apply andb_prop in Hc as [Hc _]. apply andb_prop in Hc as [_ Hc].
  apply Z.leb_le in Hc. lia.
Qed.

Lemma read_rels_inv cls f n s s' :
  ps_inv cls f s -> read_rels cls n s = Ok s' -> ps_inv cls f s'.
Proof.
  intros [[Hd Hg] [Hr Ha]]. rewrite read_rels_spec.
  destruct (Nat.eqb n 0); [intros [= <-]; now repeat split |].
  destruct (good (fp s)); cbn [andb]; [| discriminate].
  destruct (Z.leb_spec
              (gpos (fp s) + Z.of_nat n * Z.of_nat (RelT.sizeof cls))
              (Z.of_nat (length (data (fp s))))) as [Hle | Hgt];
    [| discriminate].
  intros [= <-]. pose proof (rel_sizeof_pos cls).
  repeat split; cbn; try assumption; [nia |].
  apply Forall_app; split; [assumption |].
  rewrite Hd in *. now apply rel_entries_at.
Qed.

Lemma read_relas_inv cls f n s s' :
  ps_inv cls f s -> read_relas cls n s = Ok s' -> ps_inv cls f s'.
Proof.
  intros [[Hd Hg] [Hr Ha]]. rewrite read_relas_spec.
  destruct (Nat.eqb n 0); [intros [= <-]; now repeat split |].
  destruct (good (fp s)); cbn [andb]; [| discriminate].
  destruct (Z.leb_spec
              (gpos (fp s) + Z.of_nat n * Z.of_nat (RelaT.sizeof cls))
              (Z.of_nat (length (data (fp s))))) as [Hle | Hgt];
    [| discriminate].
  intros [= <-]. pose proof (rela_sizeof_pos cls).
  repeat split; cbn; try assumption; [nia |].
  apply Forall_app; split; [assumption |].
  rewrite Hd in *. now apply rela_entries_at.
Qed.

Lemma read_syms_inv cls f n ent : forall s s',
  ps_inv cls f s -> read_syms cls n ent s = Ok s' -> ps_inv cls f s'.
Proof.
  induction n as [| n IH]; intros s s' Hinv; cbn [read_syms].
  - now intros [= <-].
  - destruct (negb (ent =? Z.of_nat (SymT.sizeof cls))); [discriminate |].
    destruct (read ent (fp s)) as [buf fp'] eqn:Hrd.
    destruct (negb (good fp')); [discriminate |].
    apply IH. destruct Hinv as [Hfp Hst].
    split; [eapply read_fp_ok; eauto | exact Hst].
Qed.

Lemma addRels_inv cls f shdr s s' :
  ps_inv cls f s -> addRels cls shdr s = Ok s' -> ps_inv cls f s'.
Proof.
  intros Hinv H. unfold addRels in H.
  apply bind_Ok in H as (_ & _ & H). apply bind_Ok in H as (_ & _ & H).
  destruct (ShdrT.sh_entsize shdr =? 0); [discriminate |].
  apply bind_Ok in H as (s2 & H2 & H). injection H as <-.
  assert (Hs1 : ps_inv cls f (with_fp (seekg (ShdrT.sh_offset shdr)) s)).
  { destruct Hinv as [Hfp Hst]. split; [now apply seekg_fp_ok | exact Hst]. }
  assert (Hs2 : ps_inv cls f s2).
  { destruct (ShdrT.sh_type shdr =? SHT_REL);
      [eapply read_rels_inv | eapply read_relas_inv]; eauto. }
  destruct Hs2 as [Hfp Hst]. split; [now apply seekg_fp_ok | exact Hst].
Qed.

Lemma addStringTable_inv cls f shdr s s' :
  ps_inv cls f s -> addStringTable shdr s = Ok s' -> ps_inv cls f s'.
Proof.
  intros [Hfp Hst] H. unfold addStringTable in H.
  apply bind_Ok in H as (_ & _ & H). apply bind_Ok in H as (_ & _ & H).
  destruct (read _ _) as [tbl fp2] eqn:Hrd.
  destruct (negb (good fp2)); [discriminate |].
  injection H as <-. split; [| exact Hst].
  apply seekg_fp_ok. eapply read_fp_ok; [exact Hrd |].
  now apply seekg_fp_ok.
Qed.

Lemma addSectionStringTable_inv cls f hdr s s' :
  ps_inv cls f s -> addSectionStringTable cls hdr s = Ok s' -> ps_inv cls f s'.
Proof.
  intros [Hfp Hst] H. unfold addSectionStringTable in H.
  apply bind_Ok in H as (_ & _ & H).
  destruct (_ || _); [discriminate |].
  destruct (read (EhdrT.e_shentsize hdr) _) as [buf fp2] eqn:Hrd.
  destruct (negb (good fp2)); [discriminate |].
  destruct (read (to_signed 8 _) _) as [tbl fp4] eqn:Hrd'.
  destruct (negb (good fp4)); [discriminate |].
  injection H as <-. split; [| exact Hst].
  apply seekg_fp_ok. eapply read_fp_ok; [exact Hrd' |].
  apply seekg_fp_ok. eapply read_fp_ok; [exact Hrd |].
  now apply seekg_fp_ok.
Qed.

Lemma addSymbolTable_inv cls f shdr s s' :
  ps_inv cls f s -> addSymbolTable cls shdr s = Ok s' -> ps_inv cls f s'.
Proof.
  intros Hinv H. unfold addSymbolTable in H.
  apply bind_Ok in H as (_ & _ & H). apply bind_Ok in H as (_ & _ & H).
  destruct (ShdrT.sh_entsize shdr =? 0); [discriminate |].
  apply bind_Ok in H as (s2 & H2 & H). injection H as <-.
  apply read_syms_inv with (f := f) in H2.
  - destruct H2 as [Hfp Hst]. split; [now apply seekg_fp_ok | exact Hst].
  - destruct Hinv as [Hfp Hst]. split; [now apply seekg_fp_ok | exact Hst].
Qed.

Lemma parse_section_inv cls f s s' :
  ps_inv cls f s -> parse_section cls s = Ok s' -> ps_inv cls f s'.
Proof.
  intros Hinv H. unfold parse_section in H.
  destruct (read _ (fp s)) as [buf fp'] eqn:Hrd.
  destruct (negb (good fp')); [discriminate |].
  assert (Hs1 : ps_inv cls f (mk_ps fp' (this s))).
  { destruct Hinv as [Hfp Hst]. split; [eapply read_fp_ok; eauto | exact Hst]. }
  apply bind_Ok in H as ([] & _ & H); [eapply addRels_inv; eauto |].
  apply bind_Ok in H as ([] & _ & H); [eapply addStringTable_inv; eauto |].
  apply bind_Ok in H as ([] & _ & H); [eapply addSymbolTable_inv; eauto |].
  now injection H as <-.
Qed.

Lemma parse_sections_inv cls f n : forall s s',
  ps_inv cls f s -> parse_sections cls n s = Ok s' -> ps_inv cls f s'.
Proof.
  induction n as [| n IH]; intros s s' Hinv; cbn [parse_sections].
  - now intros [= <-].
  - intros H. apply bind_Ok in H as (s1 & H1 & H).
    eapply IH; [| exact H]. eapply parse_section_inv; eauto.
Qed.

(** Every entry that [parse] stores was decoded from the bytes of the file
    at the offset stored with it, and lies within the file. *)
Lemma parse_store_ok cls (f : file) (p : Z) (s : parse_state) :
  0 <= p ->
  parse cls (mk_ifstream f p true) = Ok s -> store_ok cls f (this s).
Proof.
  intros Hp H. unfold parse in H.
  apply bind_Ok in H as (_ & _ & H).
  destruct (read _ _) as [buf fp1] eqn:Hrd.
  destruct (negb (good fp1)); [discriminate |].
  apply bind_Ok in H as (s1 & H1 & H).
  assert (Hfp1 : fp_ok f fp1).
  { eapply read_fp_ok; [exact Hrd |]. now split. }
  assert (Hs1 : ps_inv cls f s1).
  { eapply addSectionStringTable_inv; [| exact H1].
    split; [exact Hfp1 |]. split; constructor. }
  eapply parse_sections_inv in H; [apply H |].
  destruct Hs1 as [Hfp Hst]. split; [now apply seekg_fp_ok | exact Hst].
Qed.

Lemma parseElf_store_ok (f : file) (cls : ImageClass) (e : ElfT) :
  parseElf f = Ok (cls, e) -> store_ok cls f e.
Proof.
  unfold parseElf. destruct (read _ _) as [buf fp1] eqn:Hrd.
  destruct (_ || _); [discriminate |].
  intros H. apply bind_Ok in H as (s & Hs & H).
  injection H as <- <-.
  assert (Hfp : fp_ok f (seekg 0 fp1)).
  { apply seekg_fp_ok. eapply read_fp_ok; [exact Hrd |]. now split. }
  destruct (seekg 0 fp1) as [d g gd] eqn:Hsk. destruct Hfp as [Hd Hg].
  cbn in Hd, Hg. subst d.
  unfold parse in Hs. destruct gd.
  - eapply parse_store_ok; [exact Hg | exact Hs].
  - cbn in Hs. discriminate.
Qed.

(** ** One round of the shuffler *)

Lemma nth_Forall {A : Type} (P : A -> Prop) (l : list A) (i : nat) (d : A) :
  Forall P l -> (i < length l)%nat -> P (nth i l d).
Proof. intros HF Hi. rewrite Forall_forall in HF. now apply HF, nth_In. Qed.

Section SwapRound.
Variable cls : ImageClass.
Variable rnd : nat -> Z.

Lemma rand_range (s : swap_state) : 0 <= fst (rand rnd s) <= RAND_MAX.
Proof.
  unfold rand, RAND_MAX; cbn [fst].
  pose proof (Z.mod_pos_bound (rnd (rand_calls s)) (2147483647 + 1)). lia.
Qed.

Lemma rand_frame (s : swap_state) :
  output (snd (rand rnd s)) = output s /\ cout (snd (rand rnd s)) = cout s.
Proof. now split. Qed.

Lemma choose_collection_frame (e : ElfT) (s s0 : swap_state) (u : bool) :
  choose_collection rnd e s = Some (u, s0) ->
  output s0 = output s /\ cout s0 = cout s
  /\ (0 < if u then length (relocs e) else length (relocsAddends e))%nat.
Proof.
  unfold choose_collection.
  destruct (length (relocs e)) as [| n1], (length (relocsAddends e)) as [| n2];
    cbn [Nat.eqb negb andb]; try discriminate.
  - intros [= <- <-]. repeat split; lia.
  - intros [= <- <-]. repeat split; lia.
  - intros [= <- <-]. repeat split; try reflexivity.
    destruct (negb _); lia.
Qed.

Lemma choose_indices_frame (size : nat) (s s2 : swap_state) (a b : nat) :
  (0 < size)%nat ->
  choose_indices rnd size s = (a, b, s2) ->
  output s2 = output s /\ cout s2 = cout s
  /\ (a < size)%nat /\ (b < size)%nat.
Proof.
  intros Hsz. unfold choose_indices, rand. intros [= <- <- <-].
  repeat split;
    match goal with
    | |- (Z.to_nat (?x mod ?m) < _)%nat =>
        pose proof (Z.mod_pos_bound x m); lia
    end.
Qed.

(** The two writes of "swap 2 relocs". *)
Lemma swap_rel_effect (e : ElfT) (a b : nat) (out : ofstream) :
  let pa := nth a (relocs e) no_rel in
  let pb := nth b (relocs e) no_rel in
  let wa := RelT.encode cls
              (RelT.mk (RelT.r_offset (snd pb)) (RelT.r_info (snd pa))) in
  let wb := RelT.encode cls
              (RelT.mk (RelT.r_offset (snd pa)) (RelT.r_info (snd pb))) in
  written (swap_rel cls e a b out) = written out ++ [(fst pa, wa); (fst pb, wb)]
  /\ contents (swap_rel cls e a b out) =
     write_at (write_at (contents out) (Z.to_nat (fst pa)) wa)
       (Z.to_nat (fst pb)) wb.
Proof.
  cbv zeta. unfold swap_rel, write, seekp. cbn [written contents ppos].
  split; [now rewrite <- app_assoc | reflexivity].
Qed.

Lemma swap_rela_effect (e : ElfT) (a b : nat) (out : ofstream) :
  let pa := nth a (relocsAddends e) no_rela in
  let pb := nth b (relocsAddends e) no_rela in
  let wa := RelaT.encode cls
              (RelaT.mk (RelaT.r_offset (snd pb)) (RelaT.r_info (snd pa))
                 (RelaT.r_addend (snd pb))) in
  let wb := RelaT.encode cls
              (RelaT.mk (RelaT.r_offset (snd pa)) (RelaT.r_info (snd pb))
                 (RelaT.r_addend (snd pa))) in
  written (swap_rela cls e a b out)
  = written out ++ [(fst pa, wa); (fst pb, wb)]
  /\ contents (swap_rela cls e a b out) =
     write_at (write_at (contents out) (Z.to_nat (fst pa)) wa)
       (Z.to_nat (fst pb)) wb.
Proof.
  cbv zeta. unfold swap_rela, write, seekp. cbn [written contents ppos].
  split; [now rewrite <- app_assoc | reflexivity].
Qed.

(** Two writes of [w] bytes each inside a file: its length stays, the
    second buffer can be read back, and so can the first when the two
    ranges do not overlap. *)
Lemma two_writes (c : file) (pa pb : nat) (wa wb : list byte) (w : nat) :
  length wa = w -> length wb = w ->
  (pa + w <= length c)%nat -> (pb + w <= length c)%nat ->
  length (write_at (write_at c pa wa) pb wb) = length c
  /\ slice (write_at (write_at c pa wa) pb wb) pb w = wb
  /\ ((pa + w <= pb \/ pb + w <= pa)%nat ->
      slice (write_at (write_at c pa wa) pb wb) pa w = wa).
Proof.
  intros Hwa Hwb Ha Hb.
  assert (H1 : length (write_at c pa wa) = length c)
    by (apply length_write_at; lia).
  repeat split.
  - rewrite length_write_at; lia.
  - rewrite <- Hwb. apply slice_write_at. lia.
  - intros Hd. rewrite slice_write_at_disjoint by lia.
    rewrite <- Hwa. apply slice_write_at. lia.
Qed.
End SwapRound.

Lemma swap_rel_exchanged cls f e a b out :
  store_ok cls f e -> length (contents out) = length f ->
  (a < length (relocs e))%nat -> (b < length (relocs e))%nat ->
  exchanged_rel cls e a b out (swap_rel cls e a b out).
Proof.
  intros [Hst _] Hlen Ha Hb.
  destruct (swap_rel_effect cls e a b out) as [Hw Hc]. cbv zeta in Hw, Hc.
  pose proof (nth_Forall _ _ _ no_rel Hst Ha) as (Ha0 & Ha1 & Ha2).
  pose proof (nth_Forall _ _ _ no_rel Hst Hb) as (Hb0 & Hb1 & Hb2).
  set (pa := nth a (relocs e) no_rel) in *.
  set (pb := nth b (relocs e) no_rel) in *.
  assert (Hwa : rel_wf cls (snd pa)) by (rewrite Ha2; apply rel_decode_wf).
  assert (Hwb : rel_wf cls (snd pb)) by (rewrite Hb2; apply rel_decode_wf).
  unfold exchanged_rel. fold pa pb.
  eexists _, _. split; [exact Hw |].
  rewrite !rel_length_encode.
  rewrite !rel_decode_encode
    by (destruct Hwa, Hwb; split; cbn [RelT.r_offset RelT.r_info]; assumption).
  cbn [RelT.r_offset RelT.r_info].
  do 7 (split; [reflexivity || lia |]).
  rewrite Hc.
  match goal with
  | |- context [write_at (write_at ?c ?p ?wa) ?q ?wb] =>
      destruct (two_writes c p q wa wb (RelT.sizeof cls))
        as (H1 & H2 & H3);
      [apply rel_length_encode | apply rel_length_encode | lia | lia |]
  end.
  split; [exact H1 |]. split; [exact H2 |].
  intros Hd. apply H3. lia.
Qed.

Lemma swap_rela_exchanged cls f e a b out :
  store_ok cls f e -> length (contents out) = length f ->
  (a < length (relocsAddends e))%nat -> (b < length (relocsAddends e))%nat ->
  exchanged_rela cls e a b out (swap_rela cls e a b out).
Proof.
  intros [_ Hst] Hlen Ha Hb.
  destruct (swap_rela_effect cls e a b out) as [Hw Hc]. cbv zeta in Hw, Hc.
  pose proof (nth_Forall _ _ _ no_rela Hst Ha) as (Ha0 & Ha1 & Ha2).
  pose proof (nth_Forall _ _ _ no_rela Hst Hb) as (Hb0 & Hb1 & Hb2).
  set (pa := nth a (relocsAddends e) no_rela) in *.
  set (pb := nth b (relocsAddends e) no_rela) in *.
  assert (Hwa : rela_wf cls (snd pa)) by (rewrite Ha2; apply rela_decode_wf).
  assert (Hwb : rela_wf cls (snd pb)) by (rewrite Hb2; apply rela_decode_wf).
  unfold exchanged_rela. fold pa pb.
  eexists _, _. split; [exact Hw |].
  rewrite !rela_length_encode.
  rewrite !rela_decode_encode
    by (destruct Hwa as (? & ? & ?), Hwb as (? & ? & ?); repeat split;
        cbn [RelaT.r_offset RelaT.r_info RelaT.r_addend]; tauto).
  cbn [RelaT.r_offset RelaT.r_info RelaT.r_addend].
  do 9 (split; [reflexivity || lia |]).
  rewrite Hc.
  match goal with
  | |- context [write_at (write_at ?c ?p ?wa) ?q ?wb] =>
      destruct (two_writes c p q wa wb (RelaT.sizeof cls))
        as (H1 & H2 & H3);
      [apply rela_length_encode | apply rela_length_encode | lia | lia |]
  end.
  split; [exact H1 |]. split; [exact H2 |].
  intros Hd. apply H3. lia.
Qed.

Lemma parseElf_two_rela :
  parseElf Image.two_rela = Ok (ELFCLASS64, two_rela_model).
Proof. vm_compute. reflexivity. Qed.

(** C1.  In every round of the shuffler on a parsed image and an output file
    as long as the image, with [a] and [b] the indices the round draws from
    the collection it chose: two buffers are written, at the offsets recorded
    with entries [a] and [b]; each holds its entry's own [r_info] and the
    other entry's [r_offset] (and [r_addend], for entries with addends), so
    that the sum of the two [r_offset] is unchanged; the file keeps its
    length; and the file holds the buffers afterwards where the two entries
    do not overlap.  This holds whether or not [a] and [b] differ. *)
Theorem swap_round_exchanges (cls : ImageClass) (rnd : nat -> Z) (f : file)
  (e : ElfT) (s s0 s2 : swap_state) (useRelocs : bool) (a b : nat) :
  parseElf f = Ok (cls, e) ->
  length (contents (output s)) = length f ->
  choose_collection rnd e s = Some (useRelocs, s0) ->
  choose_indices rnd
    (if useRelocs then length (relocs e) else length (relocsAddends e)) s0
  = (a, b, s2) ->
  a <> b ->
  exists s',
    swap_round cls rnd e s = Some s'
    /\ if useRelocs then exchanged_rel cls e a b (output s) (output s')
       else exchanged_rela cls e a b (output s) (output s').
Proof.
  intros Hp Hlen Hcc Hci _.
  apply parseElf_store_ok in Hp.
  destruct (choose_collection_frame rnd e s s0 useRelocs Hcc)
    as (Ho0 & _ & Hsz).
  unfold swap_round. rewrite Hcc.
  destruct useRelocs; rewrite Hci;
    destruct (choose_indices_frame rnd _ s0 s2 a b Hsz Hci)
      as (Ho2 & _ & Ha & Hb);
    eexists; (split; [reflexivity |]); cbn [output];
    rewrite Ho2, Ho0.
  - eapply swap_rel_exchanged; eauto.
  - eapply swap_rela_exchanged; eauto.
Qed.

Lemma swap_round_exchanges_witness :
  exists s',
    swap_round ELFCLASS64 Z.of_nat two_rela_model (fresh Image.two_rela)
    = Some s'
    /\ exchanged_rela ELFCLASS64 two_rela_model 0 1
         (output (fresh Image.two_rela)) (output s').
Proof.
  apply (swap_round_exchanges ELFCLASS64 Z.of_nat Image.two_rela
           two_rela_model (fresh Image.two_rela) (fresh Image.two_rela)
           (mk_ss (mk_ofstream Image.two_rela 0 []) 2 (mk_ostream "" false))
           false 0 1).
  - exact parseElf_two_rela.
  - reflexivity.
  - reflexivity.
  - reflexivity.
  - discriminate.
Defined.

(** ** The dump *)

Lemma append_assoc (s1 s2 s3 : string) :
  ((s1 ++ s2) ++ s3 = s1 ++ (s2 ++ s3))%string.
Proof. induction s1 as [| c s1 IH]; cbn; [reflexivity | now rewrite IH]. Qed.

Lemma append_nil_r (s : string) : (s ++ "" = s)%string.
Proof. induction s as [| c s IH]; cbn; [reflexivity | now rewrite IH]. Qed.

Lemma for_each_rel_text cls e (l : list (Z * RelT.t)) : forall names i o,
  hexfield o = false ->
  Forall2 (fun pr name => relocSymName cls e (RelT.r_info (snd pr)) = Ok name)
    l names ->
  for_each (dumpReloc cls e) l i o
  = Ok (mk_ostream (text o ++ dump_lines rel_line i l names) false).
Proof.
  induction l as [| pr l IH]; intros names i o Hh HF; inversion HF; subst.
  - cbn. rewrite append_nil_r. destruct o; cbn in *; now subst.
  - cbn [for_each]. unfold dumpReloc at 1.
    match goal with H : relocSymName _ _ _ = Ok _ |- _ => rewrite H end.
    cbn [bind]. erewrite IH; [| reflexivity | eassumption].
    f_equal. cbn [dump_lines]. unfold rel_line, puts.
    cbn [fold_left put text hexfield]. rewrite Hh.
    now rewrite ?append_assoc.
Qed.

Lemma for_each_rela_text cls e (l : list (Z * RelaT.t)) : forall names i o,
  hexfield o = false ->
  Forall2 (fun pr name => relocSymName cls e (RelaT.r_info (snd pr)) = Ok name)
    l names ->
  for_each (dumpRelocA cls e) l i o
  = Ok (mk_ostream (text o ++ dump_lines (rela_line cls) i l names) false).
Proof.
  induction l as [| pr l IH]; intros names i o Hh HF; inversion HF; subst.
  - cbn. rewrite append_nil_r. destruct o; cbn in *; now subst.
  - cbn [for_each]. unfold dumpRelocA at 1.
    match goal with H : relocSymName _ _ _ = Ok _ |- _ => rewrite H end.
    cbn [bind]. erewrite IH; [| reflexivity | eassumption].
    f_equal. cbn [dump_lines]. unfold rela_line, puts.
    cbn [fold_left put text hexfield]. rewrite Hh.
    now rewrite ?append_assoc.
Qed.

(** The text that [dumpRelocs] appends. *)
Lemma dumpRelocs_text (cls : ImageClass) (e : ElfT) (o : ostream)
  (names namesA : list string) :
  hexfield o = false ->
  Forall2 (fun pr name => relocSymName cls e (RelT.r_info (snd pr)) = Ok name)
    (relocs e) names ->
  Forall2 (fun pr name => relocSymName cls e (RelaT.r_info (snd pr)) = Ok name)
    (relocsAddends e) namesA ->
  dumpRelocs cls e o
  = Ok (mk_ostream (text o ++ dump_text cls e names namesA) false).
Proof.
  intros Hh H1 H2. unfold dumpRelocs, dump_text, dump_block.
  destruct (relocs e) as [| pr l] eqn:El;
    destruct (relocsAddends e) as [| pra la] eqn:Ela;
    cbn [length Nat.eqb negb bind].
  - cbn. rewrite append_nil_r. destruct o; cbn in *; now subst.
  - erewrite for_each_rela_text; [| cbn; exact Hh | eassumption].
    f_equal. unfold puts. cbn [fold_left put text hexfield append].
    rewrite Hh. now rewrite ?append_assoc.
  - erewrite for_each_rel_text; [| cbn; exact Hh | eassumption].
    cbn [bind]. f_equal. unfold puts. cbn [fold_left put text hexfield].
    rewrite Hh. now rewrite ?append_assoc, append_nil_r.
  - erewrite for_each_rel_text; [| cbn; exact Hh | eassumption].
    cbn [bind].
    erewrite for_each_rela_text; [| reflexivity | eassumption].
    f_equal. unfold puts. cbn [fold_left put text hexfield].
    rewrite Hh. now rewrite ?append_assoc.
Qed.





(** C9.  On a stream in decimal mode, when the symbol names of all entries
    can be read, [dumpRelocs] appends exactly [dump_text]: for [relocs] and
    then for [relocsAddends], nothing if the collection is empty, and
    otherwise a title line with the number of entries in decimal, a line of
    column names, and one line per entry in order, with the file offset,
    [r_offset], [r_info] (and [r_addend]) in hexadecimal and the name of the
    symbol. *)
Theorem dumpRelocs_format (cls : ImageClass) (e : ElfT) (o : ostream)
  (names namesA : list string) :
  hexfield o = false ->
  Forall2 (fun pr name => relocSymName cls e (RelT.r_info (snd pr)) = Ok name)
    (relocs e) names ->
  Forall2 (fun pr name => relocSymName cls e (RelaT.r_info (snd pr)) = Ok name)
    (relocsAddends e) namesA ->
  dumpRelocs cls e o
  = Ok (mk_ostream (text o ++ dump_text cls e names namesA) false).
Proof. exact (dumpRelocs_text cls e o names namesA). Qed.

Lemma dumpRelocs_format_witness :
  dumpRelocs ELFCLASS64 two_rela_model (mk_ostream "" false)
  = Ok (mk_ostream
          ("" ++ dump_text ELFCLASS64 two_rela_model []
                   ["foo"%string; "foo"%string])
          false).
Proof.
  apply (dumpRelocs_format ELFCLASS64 two_rela_model (mk_ostream "" false)
           [] ["foo"%string; "foo"%string]).
  - reflexivity.
  - constructor.
  - repeat constructor.
Defined.

(** ** [addRels] *)

Lemma seekg_small (p : Z) (fp0 : ifstream) :
  good fp0 = true -> 0 <= p < 2 ^ 63 ->
  seekg p fp0 = mk_ifstream (data fp0) p true.
Proof.
  intros Hg Hp. unfold seekg, to_signed. rewrite Hg.
  change (2 ^ (8 * Z.of_nat 8 - 1)) with (2 ^ 63).
  rewrite Z.mod_small by (change (2 ^ 64) with (2 * 2 ^ 63); lia).
  destruct (Z.ltb_spec p (2 ^ 63)); [| lia].
  destruct (Z.leb_spec 0 p); [reflexivity | lia].
Qed.







(** ** [addStringTable] and [addSymbolTable] *)

Lemma to_signed_small (z : Z) : 0 <= z < 2 ^ 63 -> to_signed 8 z = z.
Proof.
  intros H. unfold to_signed.
  change (2 ^ (8 * Z.of_nat 8 - 1)) with (2 ^ 63).
  destruct (Z.ltb_spec z (2 ^ 63)); [reflexivity | lia].
Qed.

(** What [read] gives when the bytes are there. *)
Lemma read_inside (n : Z) (fp0 : ifstream) :
  good fp0 = true -> 0 <= n ->
  n = 0 \/ gpos fp0 + n <= Z.of_nat (length (data fp0)) ->
  read n fp0
  = (slice (data fp0) (Z.to_nat (gpos fp0)) (Z.to_nat n),
     mk_ifstream (data fp0) (gpos fp0 + n) true).
Proof.
  intros Hg Hn Hfit. unfold read. rewrite Hg.
  destruct (Z.leb_spec 0 n); [| lia]. cbn [andb].
  destruct (Z.eqb_spec n 0); [reflexivity |].
  destruct (Z.leb_spec (gpos fp0 + n) (Z.of_nat (length (data fp0))));
    [reflexivity | lia].
Qed.

(** [addStringTable] replaces [stringTable] by the bytes of the section,
    whatever the table held before. *)
Lemma addStringTable_spec (shdr : ShdrT.t) (s : parse_state) :
  good (fp s) = true ->
  0 <= gpos (fp s) < 2 ^ 63 ->
  ShdrT.sh_type shdr = SHT_STRTAB ->
  0 <= ShdrT.sh_offset shdr < 2 ^ 63 ->
  0 <= ShdrT.sh_size shdr < 2 ^ 63 ->
  (ShdrT.sh_size shdr = 0
   \/ ShdrT.sh_offset shdr + ShdrT.sh_size shdr
      <= Z.of_nat (length (data (fp s)))) ->
  addStringTable shdr s
  = Ok (mk_ps (fp s)
          (mk_ElfT (relocs (this s)) (relocsAddends (this s))
             (symbolTable (this s))
             (slice (data (fp s)) (Z.to_nat (ShdrT.sh_offset shdr))
                (Z.to_nat (ShdrT.sh_size shdr)))
             (sectionStringTable (this s)))).
Proof.
  intros Hg Hpos Hty Hoff Hsz Hfit. unfold addStringTable.
  rewrite Hty, Hg. cbn [assert bind Z.eqb SHT_STRTAB Pos.eqb].
  unfold tellg. rewrite Hg, (seekg_small _ _ Hg Hoff), to_signed_small by lia.
  rewrite read_inside by (cbn; auto; lia).
  cbn [good negb data gpos].
  rewrite seekg_small by (cbn; auto).
  destruct s as [[d g gd] e]. cbn in *. now subst gd.
Qed.

Lemma length_sym_entries cls f pos n : length (sym_entries cls f pos n) = n.
Proof. revert pos; induction n; intros; cbn; [reflexivity | now rewrite IHn]. Qed.

Lemma sym_sizeof_pos cls : 0 < Z.of_nat (SymT.sizeof cls).
Proof. destruct cls; cbn; lia. Qed.

Lemma read_syms_spec (cls : ImageClass) (n : nat) : forall s,
  read_syms cls n (Z.of_nat (SymT.sizeof cls)) s =
  if Nat.eqb n 0 then Ok s
  else if good (fp s)
          && (gpos (fp s) + Z.of_nat n * Z.of_nat (SymT.sizeof cls)
              <=? Z.of_nat (length (data (fp s))))
  then Ok (mk_ps
             (mk_ifstream (data (fp s))
                (gpos (fp s) + Z.of_nat n * Z.of_nat (SymT.sizeof cls)) true)
             (mk_ElfT (relocs (this s)) (relocsAddends (this s))
                (symbolTable (this s)
                 ++ sym_entries cls (data (fp s)) (gpos (fp s)) n)
                (stringTable (this s)) (sectionStringTable (this s))))
  else ErrExit "Failed to read symbol table entry.".
Proof.
  induction n as [| n IH]; intros s; [reflexivity |].
  pose proof (sym_sizeof_pos cls) as Hw.
  cbn [read_syms Nat.eqb]. rewrite Z.eqb_refl. cbn [negb].
  rewrite read_pos by exact Hw.
  destruct s as [[d g gd] e]; cbn [fp this data gpos good tellg] in *.
  destruct gd; cbn [andb negb]; [| reflexivity].
  destruct (Z.leb_spec (g + Z.of_nat (SymT.sizeof cls)) (Z.of_nat (length d)))
    as [Hle | Hgt]; cbn [good negb].
  - rewrite IH. cbn [fp this data gpos good relocs relocsAddends symbolTable
                       stringTable sectionStringTable andb].
    destruct n as [| n]; cbn [Nat.eqb].
    + cbn [sym_entries].
      destruct (Z.leb_spec (g + Z.of_nat 1 * Z.of_nat (SymT.sizeof cls))
                  (Z.of_nat (length d))); [| lia].
      rewrite Nat2Z.id. do 3 f_equal. lia.
    + replace (g + Z.of_nat (SymT.sizeof cls)
               + Z.of_nat (S n) * Z.of_nat (SymT.sizeof cls))
        with (g + Z.of_nat (S (S n)) * Z.of_nat (SymT.sizeof cls)) by lia.
      destruct (_ <=? _); [| reflexivity].
      rewrite <- app_assoc, Nat2Z.id. reflexivity.
  - destruct (Z.leb_spec (g + Z.of_nat (S n) * Z.of_nat (SymT.sizeof cls))
                (Z.of_nat (length d))); [nia | reflexivity].
Qed.

(** [addSymbolTable] appends the symbols of the section to [symbolTable],
    after whatever the table held before. *)
Lemma addSymbolTable_spec (cls : ImageClass) (shdr : ShdrT.t)
  (s : parse_state) :
  good (fp s) = true ->
  0 <= gpos (fp s) < 2 ^ 63 ->
  ShdrT.sh_type shdr = SHT_DYNSYM ->
  ShdrT.sh_entsize shdr = Z.of_nat (SymT.sizeof cls) ->
  0 <= ShdrT.sh_size shdr < 2 ^ 31 ->
  0 <= ShdrT.sh_offset shdr < 2 ^ 63 ->
  ShdrT.sh_offset shdr
  + Z.of_nat (entry_count shdr) * Z.of_nat (SymT.sizeof cls)
  <= Z.of_nat (length (data (fp s))) ->
  addSymbolTable cls shdr s
  = Ok (mk_ps (fp s)
          (mk_ElfT (relocs (this s)) (relocsAddends (this s))
             (symbolTable (this s)
              ++ sym_entries cls (data (fp s)) (ShdrT.sh_offset shdr)
                   (entry_count shdr))
             (stringTable (this s)) (sectionStringTable (this s)))).
Proof.
  intros Hg Hpos Hty Hent Hsz Hoff Hfit. unfold addSymbolTable, entry_count in *.
  pose proof (sym_sizeof_pos cls) as Hw.
  rewrite Hty, Hg. cbn [assert bind Z.eqb SHT_DYNSYM Pos.eqb].
  destruct (Z.eqb_spec (ShdrT.sh_entsize shdr) 0) as [| _]; [lia |].
  assert (Hq : 0 <= ShdrT.sh_size shdr / ShdrT.sh_entsize shdr < 2 ^ 31).
  { split; [apply Z.div_pos; lia |].
    apply Z.div_lt_upper_bound; [lia |]. nia. }
  replace (to_signed 4
             ((ShdrT.sh_size shdr / ShdrT.sh_entsize shdr) mod 2 ^ 32))
    with (ShdrT.sh_size shdr / ShdrT.sh_entsize shdr).
  2:{ rewrite Z.mod_small by (change (2 ^ 32) with (2 * 2 ^ 31); lia).
      unfold to_signed. change (2 ^ (8 * Z.of_nat 4 - 1)) with (2 ^ 31).
      destruct (Z.ltb_spec (ShdrT.sh_size shdr / ShdrT.sh_entsize shdr)
                  (2 ^ 31)); [reflexivity | lia]. }
  set (n := Z.to_nat (ShdrT.sh_size shdr / ShdrT.sh_entsize shdr)) in *.
  unfold with_fp, tellg. rewrite Hg, (seekg_small _ _ Hg Hoff), Hent.
  rewrite read_syms_spec.
  destruct s as [[d g gd] e]. cbn [fp this data gpos good andb] in *. subst gd.
  destruct (Nat.eqb_spec n 0) as [Hn | Hn].
  - cbn [bind fp this]. rewrite seekg_small by (cbn; auto).
    rewrite Hn. cbn [sym_entries]. rewrite app_nil_r. now destruct e.
  - destruct (Z.leb_spec (ShdrT.sh_offset shdr
                          + Z.of_nat n * Z.of_nat (SymT.sizeof cls))
                (Z.of_nat (length d))); [| lia].
    cbn [bind fp this]. rewrite seekg_small by (cbn; auto). reflexivity.
Qed.


(** ** The loop of [parse] over the section headers *)

(** The identification bytes as [parseElf] sees them. *)
Lemma parseElf_ident (f : file) :
  parseElf f =
  if (16 <=? length f)%nat then
    if negb (if list_eq_dec Byte.byte_eq_dec (firstn 4 f) ELFMAG
             then true else false)
       || (negb (Byte.eqb (nth 4 f Byte.x00) Byte.x01)
           && negb (Byte.eqb (nth 4 f Byte.x00) Byte.x02))
    then ErrExit "Failed to read ELF header."
    else
      let cls := if Byte.eqb (nth 4 f Byte.x00) Byte.x01
                 then ELFCLASS32 else ELFCLASS64 in
      s <- parse cls (mk_ifstream f 0 true) ;; Ok (cls, this s)
  else ErrExit "Failed to read ELF header.".
Proof.
  unfold parseElf, EI_NIDENT, EI_CLASS. rewrite read_pos by lia.
  cbn [good data gpos andb Z.add].
  destruct (Nat.leb_spec 16 (length f)) as [Hle | Hlt].
  - destruct (Z.leb_spec (Z.of_nat 16) (Z.of_nat (length f))); [| lia].
    cbn [good negb orb]. unfold slice.
    change (Z.to_nat 0) with 0%nat. cbn [skipn].
    rewrite Nat2Z.id, firstn_firstn, nth_firstn.
    change (Nat.min 4 16) with 4%nat. change (4 <? 16)%nat with true.
    rewrite seekg_small by (cbn; auto; lia). reflexivity.
  - destruct (Z.leb_spec (Z.of_nat 16) (Z.of_nat (length f))); [lia |].
    reflexivity.
Qed.

Lemma seekg_data (p : Z) (fp0 : ifstream) : data (seekg p fp0) = data fp0.
Proof.
  unfold seekg. destruct (good fp0); [| reflexivity].
  now destruct (0 <=? _).
Qed.

(** A seek on a good stream: to the position asked for, or failure. *)
Lemma seekg_cases (p : Z) (fp0 : ifstream) :
  good fp0 = true -> 0 <= p < 2 ^ 64 ->
  seekg p fp0 = mk_ifstream (data fp0) p true
  \/ seekg p fp0 = mk_ifstream (data fp0) (gpos fp0) false.
Proof.
  intros Hg Hp. unfold seekg. rewrite Hg, Z.mod_small by exact Hp.
  unfold to_signed. change (2 ^ (8 * Z.of_nat 8 - 1)) with (2 ^ 63).
  change (2 ^ (8 * Z.of_nat 8)) with (2 ^ 64).
  destruct (Z.ltb_spec p (2 ^ 63)).
  - destruct (Z.leb_spec 0 p); [now left | lia].
  - destruct (Z.leb_spec 0 (p - 2 ^ 64)); [lia | now right].
Qed.

Lemma seekg_failed (p : Z) (fp0 : ifstream) :
  good fp0 = false -> seekg p fp0 = fp0.
Proof. intros Hg. unfold seekg. now rewrite Hg. Qed.

(** The stream after the seek back to a position [pos] within the file. *)
Lemma seekg_back (pos : Z) (fp0 : ifstream) :
  0 <= pos < 2 ^ 63 ->
  data (seekg pos fp0) = data fp0
  /\ (good (seekg pos fp0) = true -> gpos (seekg pos fp0) = pos).
Proof.
  intros Hp. split; [apply seekg_data |].
  destruct (good fp0) eqn:Hg.
  - now rewrite seekg_small.
  - rewrite seekg_failed by exact Hg. congruence.
Qed.

Lemma ElfT_eta (e : ElfT) :
  mk_ElfT (relocs e) (relocsAddends e) (symbolTable e) (stringTable e)
    (sectionStringTable e) = e.
Proof. now destruct e. Qed.

Lemma shdr_decode_range (cls : ImageClass) (bs : list byte) :
  0 <= ShdrT.sh_offset (ShdrT.decode cls bs) < 2 ^ 64
  /\ 0 <= ShdrT.sh_size (ShdrT.decode cls bs) < 2 ^ 64.
Proof.
  cbn [ShdrT.decode ShdrT.sh_offset ShdrT.sh_size].
  pose proof (le_combine_slice_range cls bs (ShdrT.off_offset cls)) as H1.
  pose proof (le_combine_slice_range cls bs (ShdrT.off_size cls)) as H2.
  assert (2 ^ (8 * Z.of_nat (wordsz cls)) <= 2 ^ 64)
    by (destruct cls; cbn; lia).
  lia.
Qed.

(** What a call of [addRels] that returns has made of the state. *)
Lemma addRels_Ok (cls : ImageClass) (shdr : ShdrT.t) (s s' : parse_state) :
  good (fp s) = true ->
  0 <= gpos (fp s) < 2 ^ 63 ->
  0 <= ShdrT.sh_offset shdr < 2 ^ 64 ->
  addRels cls shdr s = Ok s' ->
  this s'
  = (if ShdrT.sh_type shdr =? SHT_REL then
       mk_ElfT
         (relocs (this s)
          ++ rel_entries cls (data (fp s)) (ShdrT.sh_offset shdr)
               (entry_count shdr))
         (relocsAddends (this s)) (symbolTable (this s))
         (stringTable (this s)) (sectionStringTable (this s))
     else
       mk_ElfT (relocs (this s))
         (relocsAddends (this s)
          ++ rela_entries cls (data (fp s)) (ShdrT.sh_offset shdr)
               (entry_count shdr))
         (symbolTable (this s)) (stringTable (this s))
         (sectionStringTable (this s)))
  /\ data (fp s') = data (fp s)
  /\ (good (fp s') = true -> gpos (fp s') = gpos (fp s)).
Proof.
  intros Hg Hpos Hoff H. unfold addRels in H.
  apply bind_Ok in H as (_ & _ & H). apply bind_Ok in H as (_ & _ & H).
  destruct (ShdrT.sh_entsize shdr =? 0); [discriminate |].
  apply bind_Ok in H as (s2 & H2 & H). injection H as <-.
  unfold tellg. rewrite Hg. unfold with_fp in *. cbn [fp this].
  fold (entry_count shdr) in H2.
  destruct (seekg_back (gpos (fp s)) (fp s2) Hpos) as [Hd Hp].
  rewrite Hd.
  destruct (seekg_cases (ShdrT.sh_offset shdr) (fp s) Hg Hoff) as [Hsk | Hsk];
    rewrite Hsk in H2;
    destruct (ShdrT.sh_type shdr =? SHT_REL);
    [rewrite read_rels_spec in H2 | rewrite read_relas_spec in H2
    | rewrite read_rels_spec in H2 | rewrite read_relas_spec in H2];
    cbn [fp this data gpos good andb] in H2;
    (destruct (Nat.eqb_spec (entry_count shdr) 0) as [Hn | Hn];
     [injection H2 as <-; rewrite Hn; cbn [rel_entries rela_entries this fp data];
      rewrite app_nil_r, ElfT_eta; auto
     | try discriminate]);
    (destruct (_ <=? _); [| discriminate]);
    injection H2 as <-; cbn [this fp data]; auto.
Qed.

(** What a call of [addStringTable] that returns has made of the state. *)
Lemma addStringTable_Ok (shdr : ShdrT.t) (s s' : parse_state) :
  good (fp s) = true ->
  0 <= gpos (fp s) < 2 ^ 63 ->
  0 <= ShdrT.sh_offset shdr < 2 ^ 64 ->
  0 <= ShdrT.sh_size shdr < 2 ^ 64 ->
  addStringTable shdr s = Ok s' ->
  this s'
  = mk_ElfT (relocs (this s)) (relocsAddends (this s)) (symbolTable (this s))
      (slice (data (fp s)) (Z.to_nat (ShdrT.sh_offset shdr))
         (Z.to_nat (ShdrT.sh_size shdr)))
      (sectionStringTable (this s))
  /\ data (fp s') = data (fp s)
  /\ (good (fp s') = true -> gpos (fp s') = gpos (fp s)).
Proof.
  intros Hg Hpos Hoff Hsz H. unfold addStringTable in H.
  apply bind_Ok in H as (_ & _ & H). apply bind_Ok in H as (_ & _ & H).
  unfold tellg in H. rewrite Hg in H.
  destruct (read _ _) as [tbl fp2] eqn:Hrd.
  destruct (good fp2) eqn:Hg2; [| discriminate]. cbn [negb] in H.
  injection H as <-. cbn [this fp].
  destruct (seekg_back (gpos (fp s)) fp2 Hpos) as [Hd Hp].
  rewrite Hd.
  unfold read in Hrd.
  destruct (seekg_cases (ShdrT.sh_offset shdr) (fp s) Hg Hoff) as [Hsk | Hsk];
    rewrite Hsk in Hrd; cbn [good data gpos andb] in Hrd.
  2:{ injection Hrd as _ <-. discriminate. }
  destruct (Z.leb_spec 0 (to_signed 8 (ShdrT.sh_size shdr))) as [Hs | Hs];
    cbn [andb] in Hrd.
  2:{ injection Hrd as _ <-. discriminate. }
  assert (Hsmall : to_signed 8 (ShdrT.sh_size shdr) = ShdrT.sh_size shdr).
  { revert Hs. unfold to_signed.
    change (2 ^ (8 * Z.of_nat 8 - 1)) with (2 ^ 63).
    change (2 ^ (8 * Z.of_nat 8)) with (2 ^ 64).
    destruct (Z.ltb_spec (ShdrT.sh_size shdr) (2 ^ 63)); lia. }
  rewrite Hsmall in Hrd.
  destruct (_ || _); injection Hrd as <- <-; [| discriminate].
  cbn [data]. auto.
Qed.

(** What a call of [addSymbolTable] that returns has made of the state. *)
Lemma addSymbolTable_Ok (cls : ImageClass) (shdr : ShdrT.t)
  (s s' : parse_state) :
  good (fp s) = true ->
  0 <= gpos (fp s) < 2 ^ 63 ->
  0 <= ShdrT.sh_offset shdr < 2 ^ 64 ->
  addSymbolTable cls shdr s = Ok s' ->
  this s'
  = mk_ElfT (relocs (this s)) (relocsAddends (this s))
      (symbolTable (this s)
       ++ sym_entries cls (data (fp s)) (ShdrT.sh_offset shdr)
            (symbol_count shdr))
      (stringTable (this s)) (sectionStringTable (this s))
  /\ data (fp s') = data (fp s)
  /\ (good (fp s') = true -> gpos (fp s') = gpos (fp s)).
Proof.
  intros Hg Hpos Hoff H. unfold addSymbolTable in H.
  apply bind_Ok in H as (_ & _ & H). apply bind_Ok in H as (_ & _ & H).
  destruct (ShdrT.sh_entsize shdr =? 0); [discriminate |].
  apply bind_Ok in H as (s2 & H2 & H). injection H as <-.
  unfold tellg. rewrite Hg. unfold with_fp in *. cbn [fp this].
  fold (symbol_count shdr) in H2.
  destruct (seekg_back (gpos (fp s)) (fp s2) Hpos) as [Hd Hp].
  rewrite Hd.
  destruct (symbol_count shdr) as [| k] eqn:Hn.
  - cbn [read_syms] in H2. injection H2 as <-.
    cbn [sym_entries this fp]. rewrite app_nil_r, ElfT_eta, seekg_data. auto.
  - assert (Hent : ShdrT.sh_entsize shdr = Z.of_nat (SymT.sizeof cls)).
    { cbn [read_syms] in H2.
      destruct (Z.eqb_spec (ShdrT.sh_entsize shdr) (Z.of_nat (SymT.sizeof cls)));
        [assumption | discriminate]. }
    rewrite Hent, read_syms_spec in H2. cbn [Nat.eqb fp this] in H2.
    destruct (seekg_cases (ShdrT.sh_offset shdr) (fp s) Hg Hoff) as [Hsk | Hsk];
      rewrite Hsk in H2; cbn [good data gpos andb] in H2; [| discriminate].
    destruct (_ <=? _); [| discriminate].
    injection H2 as <-. cbn [this fp data]. auto.
Qed.

Lemma or_else_Ok (a b c : result bool) (x : bool) :
  or_else a (or_else b c) = Ok x -> x = truth a || truth b || truth c.
Proof.
  destruct a as [[|] | | |], b as [[|] | | |], c as [[|] | | |]; cbn;
    congruence.
Qed.

Lemma and_then_Ok (t : bool) (r : result bool) (x : bool) :
  and_then (Ok t) r = Ok x -> x = t && truth r.
Proof. destruct t, r as [[|] | | |]; cbn; congruence. Qed.

Lemma rel_test_Ok (t : bool) (a b c : result bool) (x : bool) :
  and_then (Ok t) (or_else a (or_else b c)) = Ok x ->
  x = t && (truth a || truth b || truth c).
Proof. destruct t; cbn [and_then bind andb]; [apply or_else_Ok | congruence]. Qed.

(** An iteration of the loop that returns has loaded the section whose
    header lies at the position of the stream, and has left the stream, if
    it is still good, behind that header. *)
Lemma parse_section_loads (cls : ImageClass) (s s' : parse_state) :
  good (fp s) = true ->
  0 <= gpos (fp s) ->
  Z.of_nat (length (data (fp s))) < 2 ^ 63 ->
  parse_section cls s = Ok s' ->
  this s'
  = load_section cls (data (fp s)) (this s)
      (ShdrT.decode cls
         (slice (data (fp s)) (Z.to_nat (gpos (fp s))) (ShdrT.sizeof cls)))
  /\ data (fp s') = data (fp s)
  /\ (good (fp s') = true ->
      gpos (fp s') = gpos (fp s) + Z.of_nat (ShdrT.sizeof cls)).
Proof.
  intros Hg Hpos Hlen H. unfold parse_section in H.
  assert (Hw : 0 < Z.of_nat (ShdrT.sizeof cls)) by (destruct cls; cbn; lia).
  rewrite read_pos in H by exact Hw. rewrite Hg in H. cbn [andb] in H.
  destruct (Z.leb_spec (gpos (fp s) + Z.of_nat (ShdrT.sizeof cls))
              (Z.of_nat (length (data (fp s))))) as [Hfit | Hfit];
    [| discriminate].
  cbn [good negb this] in H. rewrite Nat2Z.id in H.
  set (shdr := ShdrT.decode cls _) in *.
  destruct (shdr_decode_range cls
              (slice (data (fp s)) (Z.to_nat (gpos (fp s)))
                 (ShdrT.sizeof cls))) as [Hoff Hsz].
  fold shdr in Hoff, Hsz.
  assert (Hp1 : 0 <= gpos (fp s) + Z.of_nat (ShdrT.sizeof cls) < 2 ^ 63)
    by lia.
  unfold load_section, named.
  apply bind_Ok in H as (isRel & HisRel & H).
  apply rel_test_Ok in HisRel. rewrite <- HisRel.
  destruct isRel.
  { apply addRels_Ok in H; [| reflexivity | exact Hp1 | exact Hoff].
    exact H. }
  apply bind_Ok in H as (isStr & HisStr & H).
  apply and_then_Ok in HisStr. rewrite <- HisStr.
  destruct isStr.
  { apply addStringTable_Ok in H;
      [| reflexivity | exact Hp1 | exact Hoff | exact Hsz].
    exact H. }
  apply bind_Ok in H as (isSym & HisSym & H).
  apply and_then_Ok in HisSym. rewrite <- HisSym.
  destruct isSym.
  { apply addSymbolTable_Ok in H; [| reflexivity | exact Hp1 | exact Hoff].
    exact H. }
  injection H as <-. cbn [this fp data good gpos]. auto.
Qed.

Lemma parse_section_good (cls : ImageClass) (s s' : parse_state) :
  parse_section cls s = Ok s' -> good (fp s) = true.
Proof.
  unfold parse_section, read.
  destruct (good (fp s)); [reflexivity |]. cbn. discriminate.
Qed.

(** When the loop over [n] section headers returns, the object is what
    [load_section] makes of it, header after header. *)
Lemma parse_sections_load (cls : ImageClass) (n : nat) : forall s s',
  0 <= gpos (fp s) ->
  Z.of_nat (length (data (fp s))) < 2 ^ 63 ->
  parse_sections cls n s = Ok s' ->
  this s'
  = fold_left (load_section cls (data (fp s)))
      (section_headers cls (data (fp s)) (gpos (fp s)) n) (this s).
Proof.
  induction n as [| n IH]; intros s s' Hpos Hlen H;
    cbn [parse_sections section_headers fold_left] in *.
  - now injection H as <-.
  - apply bind_Ok in H as (s1 & H1 & H).
    pose proof (parse_section_good cls s s1 H1) as Hg.
    destruct (parse_section_loads cls s s1 Hg Hpos Hlen H1)
      as (Hthis & Hdata & Hnext).
    rewrite <- Hthis, <- Hdata.
    destruct n as [| n].
    + cbn [parse_sections] in H. injection H as <-. reflexivity.
    + assert (Hg1 : good (fp s1) = true).
      { cbn [parse_sections] in H. apply bind_Ok in H as (s2 & H2 & _).
        eapply parse_section_good; eauto. }
      rewrite <- (Hnext Hg1).
      apply IH; [rewrite (Hnext Hg1); lia | now rewrite Hdata | exact H].
Qed.

Lemma load_section_names (cls : ImageClass) (f : file) (e : ElfT)
  (shdr : ShdrT.t) :
  sectionStringTable (load_section cls f e shdr) = sectionStringTable e.
Proof.
  unfold load_section.
  repeat match goal with
         | |- context [if ?c then _ else _] => destruct c
         end; reflexivity.
Qed.

Lemma fold_load_section_names (cls : ImageClass) (f : file)
  (l : list ShdrT.t) : forall e,
  sectionStringTable (fold_left (load_section cls f) l e)
  = sectionStringTable e.
Proof.
  induction l as [| shdr l IH]; intros e; cbn [fold_left]; [reflexivity |].
  now rewrite IH, load_section_names.
Qed.

(** [addSectionStringTable] touches the section name table only. *)
Lemma addSectionStringTable_Ok (cls : ImageClass) (hdr : EhdrT.t)
  (s s' : parse_state) :
  addSectionStringTable cls hdr s = Ok s' ->
  this s'
  = mk_ElfT (relocs (this s)) (relocsAddends (this s)) (symbolTable (this s))
      (stringTable (this s)) (sectionStringTable (this s')).
Proof.
  intros H. unfold addSectionStringTable in H.
  apply bind_Ok in H as (_ & _ & H).
  destruct (_ || _); [discriminate |].
  destruct (read (EhdrT.e_shentsize hdr) _) as [buf fp2].
  destruct (negb (good fp2)); [discriminate |].
  destruct (read (to_signed 8 _) _) as [tbl fp4].
  destruct (negb (good fp4)); [discriminate |].
  now injection H as <-.
Qed.

(** [parse] from the start of the file: the section headers are those at
    [e_shoff], [e_shnum] of them. *)
Lemma parse_loads (cls : ImageClass) (f : file) (s : parse_state) :
  Z.of_nat (length f) < 2 ^ 63 ->
  parse cls (mk_ifstream f 0 true) = Ok s ->
  let hdr := EhdrT.decode cls (slice f 0 (EhdrT.sizeof cls)) in
  this s
  = fold_left (load_section cls f)
      (section_headers cls f (EhdrT.e_shoff hdr)
         (Z.to_nat (EhdrT.e_shnum hdr)))
      (mk_ElfT [] [] [] [] (sectionStringTable (this s))).
Proof.
  intros Hlen H hdr. unfold parse in H. cbn [good assert bind] in H.
  assert (Hw : 0 < Z.of_nat (EhdrT.sizeof cls)) by (destruct cls; cbn; lia).
  rewrite read_pos in H by exact Hw. cbn [good data gpos andb Z.add] in H.
  destruct (_ <=? _); [| discriminate]. cbn [good negb] in H.
  rewrite Nat2Z.id in H. change (Z.to_nat 0) with 0%nat in H. fold hdr in H.
  apply bind_Ok in H as (s1 & H1 & H).
  pose proof (addSectionStringTable_Ok cls hdr _ s1 H1) as Hthis1.
  cbn [this relocs relocsAddends symbolTable stringTable empty_ElfT]
    in Hthis1.
  assert (Hinv : ps_inv cls f s1).
  { eapply addSectionStringTable_inv; [| exact H1].
    split; [split; cbn; [reflexivity | lia] | split; constructor]. }
  destruct Hinv as [[Hd1 Hp1] _].
  assert (Hoff : 0 <= EhdrT.e_shoff hdr < 2 ^ 64).
  { pose proof (le_combine_slice_range cls (slice f 0 (EhdrT.sizeof cls))
                  (EhdrT.off_shoff cls)) as Hr.
    assert (2 ^ (8 * Z.of_nat (wordsz cls)) <= 2 ^ 64)
      by (destruct cls; cbn; lia).
    unfold hdr. cbn [EhdrT.decode EhdrT.e_shoff]. lia. }
  destruct (Z.to_nat (EhdrT.e_shnum hdr)) as [| n] eqn:Hn.
  - cbn [parse_sections] in H. injection H as <-.
    cbn [section_headers fold_left with_fp this]. exact Hthis1.
  - assert (Hg2 : good (seekg (EhdrT.e_shoff hdr) (fp s1)) = true).
    { cbn [parse_sections] in H. apply bind_Ok in H as (s3 & H3 & _).
      apply parse_section_good in H3. exact H3. }
    assert (Hsk : seekg (EhdrT.e_shoff hdr) (fp s1)
                  = mk_ifstream f (EhdrT.e_shoff hdr) true).
    { destruct (good (fp s1)) eqn:Hg1.
      - destruct (seekg_cases _ _ Hg1 Hoff) as [E | E];
          rewrite E in Hg2 |- *; [now rewrite Hd1 | discriminate].
      - rewrite seekg_failed in Hg2 by exact Hg1. congruence. }
    apply parse_sections_load in H;
      unfold with_fp in *; cbn [fp this] in *; rewrite Hsk in *;
      cbn [data gpos] in *; [| lia | exact Hlen].
    rewrite H, fold_load_section_names, <- Hthis1. reflexivity.
Qed.

(** C3, as the code has it.  For every file that [parseElf] accepts, the
    object is what loading the sections one after the other, in the order of
    the section header table, makes of an object that holds the section
    name table only.  Every section that has a recognised name and the type
    that goes with it is loaded, whatever is loaded already: the entries of
    a later relocation section come after those stored before, the symbols
    of a later [.dynsym] after the symbols stored before, and a later
    [.dynstr] takes the place of the one before. *)
Theorem repeated_sections_are_loaded (f : file) (cls : ImageClass)
  (e : ElfT) :
  Z.of_nat (length f) < 2 ^ 63 ->
  parseElf f = Ok (cls, e) ->
  let hdr := EhdrT.decode cls (slice f 0 (EhdrT.sizeof cls)) in
  e = fold_left (load_section cls f)
        (section_headers cls f (EhdrT.e_shoff hdr)
           (Z.to_nat (EhdrT.e_shnum hdr)))
        (mk_ElfT [] [] [] [] (sectionStringTable e)).
Proof.
  intros Hlen. rewrite parseElf_ident.
  destruct (16 <=? length f)%nat; [| discriminate].
  destruct (_ || _); [discriminate |].
  intros H. apply bind_Ok in H as (s & Hs & H).
  injection H as <- <-.
  now apply parse_loads.
Qed.

Lemma repeated_sections_are_loaded_witness :
  let hdr := EhdrT.decode ELFCLASS64 (slice Image.duplicates 0 64) in
  duplicates_model
  = fold_left (load_section ELFCLASS64 Image.duplicates)
      (section_headers ELFCLASS64 Image.duplicates (EhdrT.e_shoff hdr)
         (Z.to_nat (EhdrT.e_shnum hdr)))
      (mk_ElfT [] [] [] [] (sectionStringTable duplicates_model)).
Proof.
  apply (repeated_sections_are_loaded Image.duplicates ELFCLASS64
           duplicates_model).
  - apply Z.ltb_lt. vm_compute. reflexivity.
  - vm_compute. reflexivity.
Defined.

(** On [Image.duplicates] the second [.rela.dyn] and the second [.dynsym]
    are added to the store and the second [.dynstr] replaces the first:
    nothing is as the first occurrences alone would have left it. *)
Lemma later_duplicates_are_not_ignored :
  exists e1 e,
    parseElf first_occurrences = Ok (ELFCLASS64, e1)
    /\ parseElf Image.duplicates = Ok (ELFCLASS64, e)
    /\ relocsAddends e1 = [(120, RelaT.mk 16 257 0)]
    /\ relocsAddends e = relocsAddends e1 ++ [(173, RelaT.mk 32 514 4)]
    /\ symbolTable e1 = [SymT.mk 1]
    /\ symbolTable e = symbolTable e1 ++ [SymT.mk 5]
    /\ stringTable e1 = Image.dynstr_foo
    /\ stringTable e = Byte.x00 :: list_byte_of_string "bar" ++ [Byte.x00]
    /\ relocsAddends e <> relocsAddends e1
    /\ symbolTable e <> symbolTable e1
    /\ stringTable e <> stringTable e1.
Proof.
  eexists. eexists.
  split; [vm_compute; reflexivity |]. split; [vm_compute; reflexivity |].
  repeat match goal with |- _ /\ _ => split end;
    try (vm_compute; reflexivity); cbn; discriminate.
Qed.

(** ** [relocSymName] *)

Lemma relocSymName_index (cls : ImageClass) (rInfo : Z) :
  (if Nat.eqb (RelT.sizeof cls) (RelT.sizeof ELFCLASS32)
   then ELF32_R_SYM rInfo else ELF64_R_SYM rInfo)
  = sym_index cls rInfo.
Proof.
  destruct cls; cbn [RelT.sizeof wordsz Nat.mul Nat.add Nat.eqb sym_index];
    unfold ELF32_R_SYM, ELF64_R_SYM; now rewrite Z.shiftr_div_pow2 by lia.
Qed.

Lemma until_nul_found (bs post : list byte) :
  ~ In Byte.x00 bs -> until_nul (bs ++ Byte.x00 :: post) = Some bs.
Proof.
  induction bs as [| b bs IH]; intros Hn; cbn [app until_nul].
  - reflexivity.
  - destruct (Byte.eqb b Byte.x00) eqn:Eb.
    + apply Byte.byte_dec_bl in Eb. subst b. exfalso. apply Hn. now left.
    + rewrite IH; [reflexivity |]. intros Hin. apply Hn. now right.
Qed.

Lemma cstr_at_found (pre bs post : list byte) :
  ~ In Byte.x00 bs ->
  cstr_at (pre ++ bs ++ Byte.x00 :: post) (length pre)
  = Ok (string_of_list_byte bs).
Proof.
  intros Hn. unfold cstr_at.
  rewrite skipn_app, skipn_all, Nat.sub_diag. cbn [skipn app].
  now rewrite until_nul_found.
Qed.

Lemma nth_error_in_bounds {A : Type} (l : list A) (i : nat) :
  (i < length l)%nat -> exists x, nth_error l i = Some x.
Proof.
  intros Hi. destruct (nth_error l i) eqn:E; [eauto |].
  apply nth_error_None in E. lia.
Qed.

(** C4.  [relocSymName] takes the symbol index from the info value by the
    split of the object's class ([sym_index]).  If the index is within the
    symbol table, that symbol exists, and when its name index is within the
    dynamic string table and a string ending in NUL starts there, this
    string is the result.  If the index is not within the symbol table, the
    result is "N/A" and nothing is read from either table.  The function is
    a function of the object and the info value only. *)
Theorem relocSymName_resolves (cls : ImageClass) (e : ElfT) (rInfo : Z) :
  0 <= rInfo ->
  (sym_index cls rInfo < Z.of_nat (length (symbolTable e)) ->
   exists sym,
     nth_error (symbolTable e) (Z.to_nat (sym_index cls rInfo)) = Some sym
     /\ forall pre bs post,
          0 <= SymT.st_name sym ->
          stringTable e = pre ++ bs ++ Byte.x00 :: post ->
          length pre = Z.to_nat (SymT.st_name sym) ->
          ~ In Byte.x00 bs ->
          relocSymName_reads cls e rInfo
          = ([ReadSym (sym_index cls rInfo); ReadStr (SymT.st_name sym)],
             Ok (string_of_list_byte bs)))
  /\ (Z.of_nat (length (symbolTable e)) <= sym_index cls rInfo ->
      relocSymName_reads cls e rInfo = ([], Ok "N/A"%string)).
Proof.
  intros Hr.
  assert (Hidx : 0 <= sym_index cls rInfo)
    by (destruct cls; cbn; apply Z.div_pos; lia).
  unfold relocSymName_reads. rewrite relocSymName_index.
  split.
  - intros Hlt.
    destruct (nth_error_in_bounds (symbolTable e)
                (Z.to_nat (sym_index cls rInfo))) as (sym & Hsym); [lia |].
    exists sym. split; [exact Hsym |].
    intros pre bs post Hn Htbl Hpre Hnul.
    destruct (Z.ltb_spec (sym_index cls rInfo)
                (Z.of_nat (length (symbolTable e)))); [| lia].
    rewrite Hsym.
    destruct (Z.ltb_spec (SymT.st_name sym)
                (Z.of_nat (length (stringTable e)))) as [_ | Hge].
    + rewrite Htbl, <- Hpre. now rewrite cstr_at_found.
    + rewrite Htbl, !length_app in Hge. cbn [length] in Hge. lia.
  - intros Hge.
    destruct (Z.ltb_spec (sym_index cls rInfo)
                (Z.of_nat (length (symbolTable e)))); [lia | reflexivity].
Qed.

Lemma relocSymName_resolves_witness :
  (sym_index ELFCLASS64 257 < 1 ->
   exists sym,
     nth_error (symbolTable two_rela_model)
       (Z.to_nat (sym_index ELFCLASS64 257)) = Some sym
     /\ forall pre bs post,
          0 <= SymT.st_name sym ->
          stringTable two_rela_model = pre ++ bs ++ Byte.x00 :: post ->
          length pre = Z.to_nat (SymT.st_name sym) ->
          ~ In Byte.x00 bs ->
          relocSymName_reads ELFCLASS64 two_rela_model 257
          = ([ReadSym (sym_index ELFCLASS64 257); ReadStr (SymT.st_name sym)],
             Ok (string_of_list_byte bs)))
  /\ (1 <= sym_index ELFCLASS64 257 ->
      relocSymName_reads ELFCLASS64 two_rela_model 257 = ([], Ok "N/A"%string)).
Proof.
  apply (relocSymName_resolves ELFCLASS64 two_rela_model 257). lia.
Defined.

(** C10.  When the symbol index is within the symbol table but that
    symbol's name index is not within the dynamic string table,
    [relocSymName] reads the symbol, does not read the string table, and
    returns "N/A".  In general every read of a string it performs starts
    within the dynamic string table. *)
Theorem relocSymName_name_index_checked (cls : ImageClass) (e : ElfT)
  (rInfo : Z) :
  0 <= rInfo ->
  Forall (fun sym => 0 <= SymT.st_name sym) (symbolTable e) ->
  (forall sym,
      sym_index cls rInfo < Z.of_nat (length (symbolTable e)) ->
      nth_error (symbolTable e) (Z.to_nat (sym_index cls rInfo)) = Some sym ->
      Z.of_nat (length (stringTable e)) <= SymT.st_name sym ->
      relocSymName_reads cls e rInfo
      = ([ReadSym (sym_index cls rInfo)], Ok "N/A"%string))
  /\ (forall i,
        In (ReadStr i) (fst (relocSymName_reads cls e rInfo)) ->
        0 <= i < Z.of_nat (length (stringTable e)))
  /\ (forall i,
        In (ReadSym i) (fst (relocSymName_reads cls e rInfo)) ->
        0 <= i < Z.of_nat (length (symbolTable e))).
Proof.
  intros Hr Hwf.
  assert (Hidx : 0 <= sym_index cls rInfo)
    by (destruct cls; cbn; apply Z.div_pos; lia).
  unfold relocSymName_reads. rewrite relocSymName_index.
  destruct (Z.ltb_spec (sym_index cls rInfo)
              (Z.of_nat (length (symbolTable e)))) as [Hlt | Hge].
  - destruct (nth_error (symbolTable e) (Z.to_nat (sym_index cls rInfo)))
      as [sym |] eqn:Hsym.
    + assert (Hn : 0 <= SymT.st_name sym).
      { rewrite Forall_forall in Hwf. eapply Hwf, nth_error_In, Hsym. }
      destruct (Z.ltb_spec (SymT.st_name sym)
                  (Z.of_nat (length (stringTable e)))) as [Hs | Hs].
      * split; [intros sym' _ [= <-] Hge'; lia |].
        split; intros i [Hi | [Hi | []]]; inversion Hi; subst; lia.
      * split; [intros sym' _ [= <-] _; reflexivity |].
        split; intros i [Hi | []]; inversion Hi; subst; lia.
    + apply nth_error_None in Hsym. lia.
  - split; [intros; lia |]. split; intros i [].
Qed.

Lemma relocSymName_name_index_checked_witness :
  (forall sym,
      sym_index ELFCLASS64 257 < 1 ->
      nth_error (symbolTable dangling_name_model)
        (Z.to_nat (sym_index ELFCLASS64 257)) = Some sym ->
      5 <= SymT.st_name sym ->
      relocSymName_reads ELFCLASS64 dangling_name_model 257
      = ([ReadSym (sym_index ELFCLASS64 257)], Ok "N/A"%string))
  /\ (forall i,
        In (ReadStr i) (fst (relocSymName_reads ELFCLASS64 dangling_name_model 257)) ->
        0 <= i < 5)
  /\ (forall i,
        In (ReadSym i) (fst (relocSymName_reads ELFCLASS64 dangling_name_model 257)) ->
        0 <= i < 1).
Proof.
  apply (relocSymName_name_index_checked ELFCLASS64 dangling_name_model 257).
  - lia.
  - repeat constructor. cbn. lia.
Defined.

(** ** [swapN] *)

Section SwapN.
Variable cls : ImageClass.
Variable rnd : nat -> Z.

(** The writes of a round go to offsets recorded in the store. *)
Lemma swap_round_writes (e : ElfT) (s s' : swap_state) :
  swap_round cls rnd e s = Some s' ->
  forall pos buf,
    In (pos, buf) (written (output s')) ->
    In (pos, buf) (written (output s))
    \/ In pos (map fst (relocs e))
    \/ In pos (map fst (relocsAddends e)).
Proof.
  unfold swap_round.
  destruct (choose_collection rnd e s) as [[u s0] |] eqn:Hcc;
    [| discriminate].
  destruct (choose_collection_frame rnd e s s0 u Hcc) as (Ho0 & _ & Hsz).
  destruct u.
  - destruct (choose_indices rnd (length (relocs e)) s0)
      as [[a b] s2] eqn:Hci.
    destruct (choose_indices_frame rnd _ s0 s2 a b Hsz Hci)
      as (Ho2 & _ & Ha & Hb).
    intros [= <-] pos buf. cbn [output].
    destruct (swap_rel_effect cls e a b (output s2)) as [-> _].
    rewrite Ho2, Ho0, in_app_iff. cbn [In].
    intros [H | [[= <- _] | [[= <- _] | []]]]; [now left | right; left ..];
      apply in_map, nth_In; assumption.
  - destruct (choose_indices rnd (length (relocsAddends e)) s0)
      as [[a b] s2] eqn:Hci.
    destruct (choose_indices_frame rnd _ s0 s2 a b Hsz Hci)
      as (Ho2 & _ & Ha & Hb).
    intros [= <-] pos buf. cbn [output].
    destruct (swap_rela_effect cls e a b (output s2)) as [-> _].
    rewrite Ho2, Ho0, in_app_iff. cbn [In].
    intros [H | [[= <- _] | [[= <- _] | []]]]; [now left | right; right ..];
      apply in_map, nth_In; assumption.
Qed.

Lemma swap_loop_writes (e : ElfT) (n : nat) : forall s pos buf,
  In (pos, buf) (written (output (swap_loop cls rnd e n s))) ->
  In (pos, buf) (written (output s))
  \/ In pos (map fst (relocs e))
  \/ In pos (map fst (relocsAddends e)).
Proof.
  induction n as [| n IH]; intros s pos buf; cbn [swap_loop];
    [now left |].
  destruct (swap_round cls rnd e s) as [s1 |] eqn:Hr; [| now left].
  intros H. apply IH in H as [H | H]; [| now right].
  eapply swap_round_writes; eauto.
Qed.

(** With both collections empty the first round returns. *)
Lemma swap_round_empty (e : ElfT) (s : swap_state) :
  relocs e = [] -> relocsAddends e = [] -> swap_round cls rnd e s = None.
Proof.
  intros H1 H2. unfold swap_round, choose_collection.
  now rewrite H1, H2.
Qed.

Lemma choose_collection_calls (e : ElfT) (s s0 : swap_state) (u : bool) :
  choose_collection rnd e s = Some (u, s0) ->
  (rand_calls s0 + 2 = rand_calls s + draws_per_round e)%nat.
Proof.
  unfold choose_collection, draws_per_round.
  destruct (negb (Nat.eqb (length (relocs e)) 0)
            && negb (Nat.eqb (length (relocsAddends e)) 0)).
  - intros [= <- <-]. cbn. lia.
  - destruct (negb (Nat.eqb (length (relocs e)) 0));
      [intros [= <- <-]; lia |].
    destruct (negb (Nat.eqb (length (relocsAddends e)) 0));
      [intros [= <- <-]; lia | discriminate].
Qed.

(** What a round does besides its two writes: it draws from the
    pseudo-random sequence and prints its line. *)
Lemma swap_round_trace (e : ElfT) (s s' : swap_state) :
  hexfield (cout s) = false ->
  swap_round cls rnd e s = Some s' ->
  exists (w : bool) (a b : nat),
    text (cout s') = (text (cout s) ++ round_line w a b)%string
    /\ hexfield (cout s') = false
    /\ rand_calls s' = (rand_calls s + draws_per_round e)%nat.
Proof.
  intros Hh. unfold swap_round.
  destruct (choose_collection rnd e s) as [[u s0] |] eqn:Hcc;
    [| discriminate].
  pose proof (choose_collection_calls e s s0 u Hcc) as Hd.
  destruct (choose_collection_frame rnd e s s0 u Hcc) as (_ & Hc0 & _).
  destruct u; unfold choose_indices, rand; intros [= <-];
    cbn [cout rand_calls]; rewrite Hc0;
    [exists false | exists true]; eexists _, _;
    (split; [| split; [| lia]]);
    unfold puts, round_line; cbn [fold_left put text hexfield];
    rewrite ?Hh; cbn [text hexfield]; rewrite ?append_assoc; reflexivity.
Qed.

(** The loop: the rounds it made, with their lines. *)
Lemma swap_loop_trace (e : ElfT) (n : nat) : forall s,
  hexfield (cout s) = false ->
  exists rounds : list (bool * nat * nat),
    (length rounds <= n)%nat
    /\ (relocs e <> [] \/ relocsAddends e <> [] -> length rounds = n)
    /\ text (cout (swap_loop cls rnd e n s))
       = (text (cout s) ++ round_lines rounds)%string
    /\ rand_calls (swap_loop cls rnd e n s)
       = (rand_calls s + draws_per_round e * length rounds)%nat.
Proof.
  induction n as [| n IH]; intros s Hh; cbn [swap_loop].
  - exists []. cbn [length round_lines]. rewrite append_nil_r.
    split; [lia |]. split; [reflexivity |]. split; [reflexivity | lia].
  - destruct (swap_round cls rnd e s) as [s1 |] eqn:Hr.
    + destruct (swap_round_trace e s s1 Hh Hr) as (w & a & b & Ht & Hh1 & Hc).
      destruct (IH s1 Hh1) as (rounds & Hle & Hall & Ht' & Hc').
      exists ((w, a, b) :: rounds). cbn [length round_lines].
      rewrite Ht', Ht, Hc', Hc, append_assoc.
      split; [lia |]. split; [intros Hne; now rewrite (Hall Hne) |].
      split; [reflexivity | nia].
    + exists []. cbn [length round_lines]. rewrite append_nil_r.
      split; [lia |]. split; [| split; [reflexivity | lia]].
      intros Hne. exfalso. unfold swap_round in Hr.
      destruct (choose_collection rnd e s) as [[[|] s0] |] eqn:Hcc.
      * destruct (choose_indices _ _ _) as [[a b] s2]. discriminate.
      * destruct (choose_indices _ _ _) as [[a b] s2]. discriminate.
      * unfold choose_collection in Hcc.
        destruct (relocs e), (relocsAddends e); cbn in Hcc;
          try discriminate. destruct Hne; congruence.
Qed.
End SwapN.

(** ** What [swapN] writes, and how often *)

Section SwapTrace.
Variable cls : ImageClass.
Variable rnd : nat -> Z.
Variable e : ElfT.

Lemma nth_In_pair {R : Type} (l : list (Z * R)) (i : nat) (d : Z * R) :
  (i < length l)%nat ->
  In (fst (nth i l d), snd (nth i l d)) l /\ In (snd (nth i l d)) (map snd l).
Proof.
  intros Hi. rewrite <- surjective_pairing.
  split; [now apply nth_In | now apply in_map, nth_In].
Qed.

Lemma swap_round_buffers (s s' : swap_state) :
  swap_round cls rnd e s = Some s' ->
  forall pos buf,
    In (pos, buf) (written (output s')) ->
    In (pos, buf) (written (output s)) \/ exchanged_buffer cls e pos buf.
Proof.
  unfold swap_round.
  destruct (choose_collection rnd e s) as [[u s0] |] eqn:Hcc;
    [| discriminate].
  destruct (choose_collection_frame rnd e s s0 u Hcc) as (Ho0 & _ & Hsz).
  destruct u.
  - destruct (choose_indices rnd (length (relocs e)) s0)
      as [[a b] s2] eqn:Hci.
    destruct (choose_indices_frame rnd _ s0 s2 a b Hsz Hci)
      as (Ho2 & _ & Ha & Hb).
    intros [= <-] pos buf. cbn [output].
    destruct (swap_rel_effect cls e a b (output s2)) as [-> _].
    rewrite Ho2, Ho0, in_app_iff. cbn [In].
    destruct (nth_In_pair (relocs e) a no_rel Ha) as [Ha1 Ha2].
    destruct (nth_In_pair (relocs e) b no_rel Hb) as [Hb1 Hb2].
    intros [H | [[= <- <-] | [[= <- <-] | []]]]; [now left | right; left ..];
      eexists _, _; eauto.
  - destruct (choose_indices rnd (length (relocsAddends e)) s0)
      as [[a b] s2] eqn:Hci.
    destruct (choose_indices_frame rnd _ s0 s2 a b Hsz Hci)
      as (Ho2 & _ & Ha & Hb).
    intros [= <-] pos buf. cbn [output].
    destruct (swap_rela_effect cls e a b (output s2)) as [-> _].
    rewrite Ho2, Ho0, in_app_iff. cbn [In].
    destruct (nth_In_pair (relocsAddends e) a no_rela Ha) as [Ha1 Ha2].
    destruct (nth_In_pair (relocsAddends e) b no_rela Hb) as [Hb1 Hb2].
    intros [H | [[= <- <-] | [[= <- <-] | []]]]; [now left | right; right ..];
      eexists _, _; eauto.
Qed.

Lemma swap_loop_buffers (n : nat) : forall s pos buf,
  In (pos, buf) (written (output (swap_loop cls rnd e n s))) ->
  In (pos, buf) (written (output s)) \/ exchanged_buffer cls e pos buf.
Proof.
  induction n as [| n IH]; intros s pos buf; cbn [swap_loop]; [now left |].
  destruct (swap_round cls rnd e s) as [s1 |] eqn:Hr; [| now left].
  intros H. apply IH in H as [H | H]; [| now right].
  eapply swap_round_buffers; eauto.
Qed.

Lemma swap_round_counts (s : swap_state) :
  relocs e <> [] \/ relocsAddends e <> [] ->
  exists s',
    swap_round cls rnd e s = Some s'
    /\ length (written (output s')) = (length (written (output s)) + 2)%nat
    /\ rand_calls s' = (rand_calls s + draws_per_round e)%nat.
Proof.
  intros Hne. unfold swap_round.
  destruct (choose_collection rnd e s) as [[u s0] |] eqn:Hcc.
  - pose proof (choose_collection_calls rnd e s s0 u Hcc) as Hd.
    destruct (choose_collection_frame rnd e s s0 u Hcc) as (Ho0 & _ & _).
    destruct u.
    + eexists. split; [reflexivity |]. cbn [output rand_calls].
      destruct (swap_rel_effect cls e
                  (Z.to_nat (fst (rand rnd s0) mod Z.of_nat (length (relocs e))))
                  (Z.to_nat (fst (rand rnd (snd (rand rnd s0)))
                             mod Z.of_nat (length (relocs e))))
                  (output s0)) as [Hw _].
      cbn [rand fst snd output rand_calls] in *.
      rewrite Hw, length_app, Ho0. cbn [length]. lia.
    + eexists. split; [reflexivity |]. cbn [output rand_calls].
      destruct (swap_rela_effect cls e
                  (Z.to_nat (fst (rand rnd s0)
                             mod Z.of_nat (length (relocsAddends e))))
                  (Z.to_nat (fst (rand rnd (snd (rand rnd s0)))
                             mod Z.of_nat (length (relocsAddends e))))
                  (output s0)) as [Hw _].
      cbn [rand fst snd output rand_calls] in *.
      rewrite Hw, length_app, Ho0. cbn [length]. lia.
  - exfalso. unfold choose_collection in Hcc.
    destruct (relocs e), (relocsAddends e); cbn in Hcc;
      try discriminate. destruct Hne; congruence.
Qed.

Lemma swap_loop_counts (n : nat) : forall s,
  relocs e <> [] \/ relocsAddends e <> [] ->
  length (written (output (swap_loop cls rnd e n s)))
  = (length (written (output s)) + 2 * n)%nat
  /\ rand_calls (swap_loop cls rnd e n s)
     = (rand_calls s + draws_per_round e * n)%nat.
Proof.
  induction n as [| n IH]; intros s Hne; cbn [swap_loop]; [lia |].
  destruct (swap_round_counts s Hne) as (s1 & -> & Hw & Hr).
  destruct (IH s1 Hne) as [-> ->]. lia.
Qed.
End SwapTrace.

(** C5, as the code has it.  For every count [n > 0] and every
    pseudo-random sequence, [swapN] returns with the object it was called
    on, and all its rounds have worked from that object as it was parsed:
    every buffer it wrote went to an offset recorded in one of the two
    collections and is the entry recorded there with the [r_offset] (and
    [r_addend]) of an entry of the same collection.  The output stream is
    not all it acts on: every round draws from the pseudo-random sequence,
    two or three values, and prints one line on the standard output. *)
Theorem swapN_leaves_model (cls : ImageClass) (rnd : nat -> Z) (e : ElfT)
  (n : Z) (s : swap_state) :
  0 < n ->
  hexfield (cout s) = false ->
  exists (s' : swap_state) (rounds : list (bool * nat * nat)),
    swapN cls rnd e n s = Ok (e, s')
    /\ (forall pos buf,
          In (pos, buf) (written (output s')) ->
          In (pos, buf) (written (output s))
          \/ ((In pos (map fst (relocs e))
               \/ In pos (map fst (relocsAddends e)))
              /\ exchanged_buffer cls e pos buf))
    /\ (length rounds <= Z.to_nat n)%nat
    /\ (relocs e <> [] \/ relocsAddends e <> [] ->
        length rounds = Z.to_nat n)
    /\ text (cout s') = (text (cout s) ++ round_lines rounds)%string
    /\ rand_calls s'
       = (rand_calls s + draws_per_round e * length rounds)%nat.
Proof.
  intros Hn Hh. unfold swapN.
  destruct (Z.ltb_spec 0 n); [| lia]. cbn [assert bind].
  destruct (swap_loop_trace cls rnd e (Z.to_nat n) s Hh)
    as (rounds & Hle & Hall & Ht & Hc).
  eexists. exists rounds. split; [reflexivity |].
  split; [| auto].
  intros pos buf Hin.
  pose proof (swap_loop_writes cls rnd e _ _ _ _ Hin) as Hw.
  pose proof (swap_loop_buffers cls rnd e _ _ _ _ Hin) as Hb.
  destruct Hw as [Hw | Hw]; [now left |].
  destruct Hb as [Hb | Hb]; [now left | right; now split].
Qed.

Lemma swapN_leaves_model_witness :
  exists (s' : swap_state) (rounds : list (bool * nat * nat)),
    swapN ELFCLASS64 Z.of_nat two_rela_model 3 (fresh Image.two_rela)
    = Ok (two_rela_model, s')
    /\ (forall pos buf,
          In (pos, buf) (written (output s')) ->
          In (pos, buf) (written (output (fresh Image.two_rela)))
          \/ ((In pos (map fst (relocs two_rela_model))
               \/ In pos (map fst (relocsAddends two_rela_model)))
              /\ exchanged_buffer ELFCLASS64 two_rela_model pos buf))
    /\ (length rounds <= Z.to_nat 3)%nat
    /\ (relocs two_rela_model <> [] \/ relocsAddends two_rela_model <> [] ->
        length rounds = Z.to_nat 3)
    /\ text (cout s')
       = (text (cout (fresh Image.two_rela)) ++ round_lines rounds)%string
    /\ rand_calls s'
       = (rand_calls (fresh Image.two_rela)
          + draws_per_round two_rela_model * length rounds)%nat.
Proof.
  apply (swapN_leaves_model ELFCLASS64 Z.of_nat two_rela_model 3
           (fresh Image.two_rela)).
  - lia.
  - reflexivity.
Defined.

(** One round on [Image.two_rela]: besides the two writes to the output
    stream, two values are drawn from the pseudo-random sequence and a line
    is printed on the standard output. *)
Lemma swapN_acts_beyond_output_stream :
  exists s',
    swapN ELFCLASS64 Z.of_nat two_rela_model 1 (fresh Image.two_rela)
    = Ok (two_rela_model, s')
    /\ rand_calls (fresh Image.two_rela) = 0%nat
    /\ rand_calls s' = 2%nat
    /\ text (cout (fresh Image.two_rela)) = ""%string
    /\ text (cout s')
       = ("Swapped reloc with addend 0 with 1" ++ newline)%string
    /\ rand_calls s' <> rand_calls (fresh Image.two_rela)
    /\ cout s' <> cout (fresh Image.two_rela).
Proof.
  eexists. split; [vm_compute; reflexivity |].
  repeat match goal with |- _ /\ _ => split end;
    try (vm_compute; reflexivity); cbn; discriminate.
Qed.

(** C6.  With both collections empty, [swapN] with any count [n >= 1]
    returns normally from its first round: the state it returns is the state
    it was given, so the content of the output file is unchanged, no write
    was made, no pseudo-random number drawn and nothing printed. *)
Theorem swapN_empty_is_noop (cls : ImageClass) (rnd : nat -> Z) (e : ElfT)
  (n : Z) (s : swap_state) :
  relocs e = [] -> relocsAddends e = [] -> 1 <= n ->
  swapN cls rnd e n s = Ok (e, s).
Proof.
  intros H1 H2 Hn. unfold swapN.
  destruct (Z.ltb_spec 0 n); [| lia]. cbn [assert bind].
  destruct (Z.to_nat n) as [| k] eqn:Hk; [lia |].
  cbn [swap_loop]. now rewrite swap_round_empty.
Qed.

Lemma parseElf_no_relocs :
  parseElf Image.no_relocs = Ok (ELFCLASS64, no_relocs_model).
Proof. vm_compute. reflexivity. Qed.

Lemma swapN_empty_is_noop_witness :
  swapN ELFCLASS64 Z.of_nat no_relocs_model 3 (fresh Image.no_relocs)
  = Ok (no_relocs_model, fresh Image.no_relocs).
Proof.
  apply (swapN_empty_is_noop ELFCLASS64 Z.of_nat no_relocs_model 3
           (fresh Image.no_relocs)).
  - reflexivity.
  - reflexivity.
  - lia.
Defined.

(** C7, as the code has it.  [swapN] asserts [n > 0]: called with a count
    of zero or less it fails its assertion.  [main], whose count is zero
    once a negative one has been clamped, then runs as it does without an
    output path: it makes no output file and does not call [swapN], so
    nothing is written. *)
Theorem swap_count_zero (cls : ImageClass) (rnd : nat -> Z) (e : ElfT)
  (s : swap_state) (doDump : bool) (outFname : option string) (n : Z)
  (f : file) :
  n <= 0 ->
  swapN cls rnd e n s = AssertFail "Invalid input."
  /\ main rnd doDump outFname n f = main rnd doDump None n f
  /\ forall r, main rnd doDump outFname n f = Ok r -> snd r = None.
Proof.
  intros Hn.
  assert (Hmain : main rnd doDump outFname n f = main rnd doDump None n f).
  { unfold main. destruct (parseElf f) as [[c e'] | | |]; cbn [bind];
      try reflexivity.
    destruct (if doDump then _ else _) as [o | | |]; cbn [bind];
      try reflexivity.
    destruct outFname; [| reflexivity].
    destruct (Z.ltb_spec n 0); [reflexivity |].
    destruct (Z.ltb_spec 0 n); [lia | reflexivity]. }
  split; [| split; [exact Hmain |]].
  - unfold swapN. destruct (Z.ltb_spec 0 n); [lia | reflexivity].
  - intros r. rewrite Hmain. unfold main.
    destruct (parseElf f) as [[c e'] | | |]; cbn [bind]; try discriminate.
    destruct (if doDump then _ else _) as [o | | |]; cbn [bind];
      try discriminate.
    now intros [= <-].
Qed.

Lemma swap_count_zero_witness :
  swapN ELFCLASS64 Z.of_nat two_rela_model 0 (fresh Image.two_rela)
  = AssertFail "Invalid input."
  /\ main Z.of_nat true (Some "out"%string) 0 Image.two_rela
     = main Z.of_nat true None 0 Image.two_rela
  /\ forall r,
      main Z.of_nat true (Some "out"%string) 0 Image.two_rela = Ok r ->
      snd r = None.
Proof.
  apply (swap_count_zero ELFCLASS64 Z.of_nat two_rela_model
           (fresh Image.two_rela) true (Some "out"%string) 0 Image.two_rela).
  lia.
Defined.

(** [swapN] does not accept the count 0, and [main] with the count 0 and an
    output path ends without an output file. *)
Lemma swapN_rejects_zero :
  swapN ELFCLASS64 Z.of_nat two_rela_model 0 (fresh Image.two_rela)
  = AssertFail "Invalid input."
  /\ main Z.of_nat false (Some "out"%string) 0 Image.two_rela
     = Ok (""%string, None).
Proof. split; vm_compute; reflexivity. Qed.

(** ** Rounds that draw the same index twice *)

Lemma write_at_twice (c : file) (p : nat) (buf : list byte) :
  (p + length buf <= length c)%nat ->
  write_at (write_at c p buf) p buf = write_at c p buf.
Proof.
  intros H.
  rewrite <- (slice_write_at c p buf H) at 2.
  apply write_at_slice. rewrite length_write_at; lia.
Qed.

Lemma swap_rel_same cls f e a out :
  store_ok cls f e -> length (contents out) = length f ->
  (a < length (relocs e))%nat ->
  let off := Z.to_nat (fst (nth a (relocs e) no_rel)) in
  (off + RelT.sizeof cls <= length f)%nat
  /\ contents (swap_rel cls e a a out)
     = write_at (contents out) off (slice f off (RelT.sizeof cls)).
Proof.
  intros [Hst _] Hlen Ha. cbv zeta.
  destruct (swap_rel_effect cls e a a out) as [_ Hc]. cbv zeta in Hc.
  pose proof (nth_Forall _ _ _ no_rel Hst Ha) as (Ha0 & Ha1 & Ha2).
  set (pa := nth a (relocs e) no_rel) in *.
  split; [lia |]. rewrite Hc.
  replace (RelT.mk (RelT.r_offset (snd pa)) (RelT.r_info (snd pa)))
    with (snd pa) by now destruct (snd pa).
  rewrite Ha2, rel_encode_decode by (apply length_slice; lia).
  apply write_at_twice. rewrite length_slice; lia.
Qed.

Lemma swap_rela_same cls f e a out :
  store_ok cls f e -> length (contents out) = length f ->
  (a < length (relocsAddends e))%nat ->
  let off := Z.to_nat (fst (nth a (relocsAddends e) no_rela)) in
  (off + RelaT.sizeof cls <= length f)%nat
  /\ contents (swap_rela cls e a a out)
     = write_at (contents out) off (slice f off (RelaT.sizeof cls)).
Proof.
  intros [_ Hst] Hlen Ha. cbv zeta.
  destruct (swap_rela_effect cls e a a out) as [_ Hc]. cbv zeta in Hc.
  pose proof (nth_Forall _ _ _ no_rela Hst Ha) as (Ha0 & Ha1 & Ha2).
  set (pa := nth a (relocsAddends e) no_rela) in *.
  split; [lia |]. rewrite Hc.
  replace (RelaT.mk (RelaT.r_offset (snd pa)) (RelaT.r_info (snd pa))
             (RelaT.r_addend (snd pa)))
    with (snd pa) by now destruct (snd pa).
  rewrite Ha2, rela_encode_decode by (apply length_slice; lia).
  apply write_at_twice. rewrite length_slice; lia.
Qed.

(** C8, as the code has it.  A round that draws the same index [a] twice
    writes, at the offset recorded with entry [a], the bytes that the parsed
    file [f] has there.  The output file is left as it was if it still has
    these bytes at that offset, as in the first round on a copy of the file;
    if an earlier round has changed them, the round puts the original bytes
    back. *)
Theorem same_index_round_rewrites_entry (cls : ImageClass) (rnd : nat -> Z)
  (f : file) (e : ElfT) (s s0 s2 : swap_state) (useRelocs : bool) (a : nat) :
  parseElf f = Ok (cls, e) ->
  length (contents (output s)) = length f ->
  choose_collection rnd e s = Some (useRelocs, s0) ->
  choose_indices rnd
    (if useRelocs then length (relocs e) else length (relocsAddends e)) s0
  = (a, a, s2) ->
  exists s',
    swap_round cls rnd e s = Some s'
    /\ let off :=
         Z.to_nat (if useRelocs then fst (nth a (relocs e) no_rel)
                   else fst (nth a (relocsAddends e) no_rela)) in
       let w := if useRelocs then RelT.sizeof cls else RelaT.sizeof cls in
       contents (output s')
       = write_at (contents (output s)) off (slice f off w)
       /\ (slice (contents (output s)) off w = slice f off w ->
           contents (output s') = contents (output s)).
Proof.
  intros Hp Hlen Hcc Hci.
  apply parseElf_store_ok in Hp.
  destruct (choose_collection_frame rnd e s s0 useRelocs Hcc)
    as (Ho0 & _ & Hsz).
  unfold swap_round. rewrite Hcc.
  destruct useRelocs; rewrite Hci;
    destruct (choose_indices_frame rnd _ s0 s2 a a Hsz Hci)
      as (Ho2 & _ & Ha & _);
    eexists; (split; [reflexivity |]); cbn [output]; cbv zeta;
    rewrite Ho2, Ho0.
  - destruct (swap_rel_same cls f e a (output s) Hp Hlen Ha) as [Hin ->].
    split; [reflexivity |]. intros <-. apply write_at_slice. lia.
  - destruct (swap_rela_same cls f e a (output s) Hp Hlen Ha) as [Hin ->].
    split; [reflexivity |]. intros <-. apply write_at_slice. lia.
Qed.

Lemma same_index_round_rewrites_entry_witness :
  exists s',
    swap_round ELFCLASS64 (fun _ => 0) two_rela_model (fresh Image.two_rela)
    = Some s'
    /\ (contents (output s')
        = write_at Image.two_rela 120 (slice Image.two_rela 120 24)
        /\ (slice Image.two_rela 120 24 = slice Image.two_rela 120 24 ->
            contents (output s') = Image.two_rela)).
Proof.
  apply (same_index_round_rewrites_entry ELFCLASS64 (fun _ => 0)
           Image.two_rela two_rela_model (fresh Image.two_rela)
           (fresh Image.two_rela)
           (mk_ss (mk_ofstream Image.two_rela 0 []) 2 (mk_ostream "" false))
           false 0).
  - exact parseElf_two_rela.
  - reflexivity.
  - reflexivity.
  - reflexivity.
Defined.

(** A round that draws the same index twice is not always without effect:
    after a round that exchanged entries 0 and 1, the round that draws 0
    twice changes the output file. *)
Lemma same_index_round_changes_file :
  exists s1 s1' s2,
    swap_round ELFCLASS64 rnd_0100 two_rela_model (fresh Image.two_rela)
    = Some s1
    /\ choose_indices rnd_0100 2 s1 = (0%nat, 0%nat, s1')
    /\ swap_round ELFCLASS64 rnd_0100 two_rela_model s1 = Some s2
    /\ contents (output s2) <> contents (output s1).
Proof.
  eexists. eexists. eexists.
  split; [vm_compute; reflexivity |].
  split; [vm_compute; reflexivity |].
  split; [vm_compute; reflexivity |].
  intros H. apply (f_equal (fun c => slice c 120 8)) in H.
  vm_compute in H. discriminate H.
Qed.


(** ** Runs on the small images *)

(** The symbol index is taken above the low 8 bits in the 32-bit class and
    above the low 32 bits in the 64-bit class. *)
Example relocSymName_class32 :
  relocSymName_reads ELFCLASS32 two_rela_model 0x0000000000000007
  = ([ReadSym 0; ReadStr 1], Ok "foo"%string)
  /\ relocSymName_reads ELFCLASS32 two_rela_model 0x0000000000000107
     = ([], Ok "N/A"%string).
Proof. split; reflexivity. Qed.

Example relocSymName_class64 :
  relocSymName_reads ELFCLASS64 two_rela_model 0x0000000000000107
  = ([ReadSym 0; ReadStr 1], Ok "foo"%string)
  /\ relocSymName_reads ELFCLASS64 two_rela_model 0x0000000100000007
     = ([], Ok "N/A"%string).
Proof. split; reflexivity. Qed.

(** A string table without a terminating NUL: the name cannot be read. *)
Example relocSymName_unterminated :
  relocSymName ELFCLASS64
    (mk_ElfT [] [] [SymT.mk 1] (list_byte_of_string "xfoo") []) 0
  = Undefined.
Proof. reflexivity. Qed.

(** The dump of [Image.two_rela]. *)
Example dump_two_rela :
  main Z.of_nat true None 1 Image.two_rela
  = Ok (("Dynamic or PLT relocs with addends (2)" ++ newline
         ++ "ELFOffset, RelocOffset, RelocInfo, RelocAddend, SymName"
         ++ newline
         ++ "  0) 0x78, 10, 0x101, 0x0, foo" ++ newline
         ++ "  1) 0x90, 20, 0x202, 0x4, foo" ++ newline)%string,
        None).
Proof. vm_compute. reflexivity. Qed.

(** The dump of [Image.three_rel]: no separator between [r_info] and the
    name in the lines of entries without addend. *)
Example dump_three_rel :
  main Z.of_nat true None 1 Image.three_rel
  = Ok (("Dynamic relocs (3)" ++ newline
         ++ "ELFOffset, RelocOffset, RelocInfo, SymName" ++ newline
         ++ "  0) 0x78, 10, 0x101N/A" ++ newline
         ++ "  1) 0x88, 20, 0x202N/A" ++ newline
         ++ "  2) 0x98, 30, 0x303N/A" ++ newline)%string,
        None).
Proof. vm_compute. reflexivity. Qed.

(** One swap on [Image.two_rela], whose only pair of distinct entries is
    (0, 1): read again, the output file has the [r_offset] and [r_addend] of
    the two entries exchanged and each [r_info] where it was. *)
Example swap_two_rela :
  exists txt out,
    main Z.of_nat false (Some "out"%string) 1 Image.two_rela
    = Ok (txt, Some out)
    /\ length (contents out) = length Image.two_rela
    /\ parseElf (contents out)
       = Ok (ELFCLASS64,
             mk_ElfT []
               [(120, RelaT.mk 32 257 4); (144, RelaT.mk 16 514 0)]
               [SymT.mk 1] Image.dynstr_foo Image.shstrtab).
Proof.
  eexists. eexists.
  split; [vm_compute; reflexivity |].
  split; vm_compute; reflexivity.
Qed.

(** The states used above are those that [parse] goes through: on
    [Image.dyn_and_plt] the second iteration of the loop over the section
    headers calls [addRels] in the state [before_plt]. *)
Example before_plt_reached :
  exists s1,
    parse_section ELFCLASS64
      (mk_ps (mk_ifstream Image.dyn_and_plt 192 true)
         (mk_ElfT [] [] [] [] Image.shstrtab))
    = Ok s1
    /\ this s1 = this before_plt
    /\ read 64 (fp s1)
       = (slice Image.dyn_and_plt 256 64, fp before_plt)
    /\ ShdrT.decode ELFCLASS64 (slice Image.dyn_and_plt 256 64) = plt_shdr.
Proof.
  eexists.
  split; [vm_compute; reflexivity |].
  split; [reflexivity |].
  split; vm_compute; reflexivity.
Qed.

Example after_first_occurrences_reached :
  exists s3,
    parse_sections ELFCLASS64 3
      (mk_ps (mk_ifstream Image.duplicates 226 true)
         (mk_ElfT [] [] [] [] Image.shstrtab))
    = Ok s3
    /\ this s3 = this after_first_occurrences
    /\ ShdrT.decode ELFCLASS64 (slice Image.duplicates 418 64)
       = second_rela_dyn
    /\ ShdrT.decode ELFCLASS64 (slice Image.duplicates 482 64)
       = second_dynsym
    /\ ShdrT.decode ELFCLASS64 (slice Image.duplicates 546 64)
       = second_dynstr.
Proof.
  eexists.
  split; [vm_compute; reflexivity |].
  split; [reflexivity |].
  repeat match goal with |- _ /\ _ => split end; vm_compute; reflexivity.
Qed.

(** On the malformed image [Image.overlapping] the entries 0 and 1 share
    bytes of the file.  The round writes the two buffers as always, but the
    second write covers part of the first. *)
Example swap_overlapping_entries :
  exists e s',
    parseElf Image.overlapping = Ok (ELFCLASS64, e)
    /\ map fst (relocsAddends e) = [120; 128]
    /\ swap_round ELFCLASS64 Z.of_nat e (fresh Image.overlapping) = Some s'
    /\ length (contents (output s')) = length Image.overlapping
    /\ map fst (written (output s')) = [120; 128]
    /\ slice (contents (output s')) 120 24
       <> nth 0 (map snd (written (output s'))) [].
Proof.
  eexists. eexists.
  split; [vm_compute; reflexivity |].
  split; [reflexivity |].
  split; [vm_compute; reflexivity |].
  split; [reflexivity |].
  split; [reflexivity |].
  vm_compute. discriminate.
Qed.

(** * Further properties *)

(** ** What [parseElf] accepts *)

(** X1.  Every entry in the store of a parsed image lies within the file at
    the offset stored with it, is the entry decoded from the bytes there,
    and written back as it is gives these bytes again; for [relocs] and for
    [relocsAddends]. *)
Theorem parsed_entries_lie_in_file (f : file) (cls : ImageClass) (e : ElfT) :
  parseElf f = Ok (cls, e) ->
  Forall (fun pr : Z * RelT.t =>
            0 <= fst pr
            /\ fst pr + Z.of_nat (RelT.sizeof cls) <= Z.of_nat (length f)
            /\ snd pr
               = RelT.decode cls
                   (slice f (Z.to_nat (fst pr)) (RelT.sizeof cls))
            /\ RelT.encode cls (snd pr)
               = slice f (Z.to_nat (fst pr)) (RelT.sizeof cls))
    (relocs e)
  /\ Forall (fun pr : Z * RelaT.t =>
               0 <= fst pr
               /\ fst pr + Z.of_nat (RelaT.sizeof cls) <= Z.of_nat (length f)
               /\ snd pr
                  = RelaT.decode cls
                      (slice f (Z.to_nat (fst pr)) (RelaT.sizeof cls))
               /\ RelaT.encode cls (snd pr)
                  = slice f (Z.to_nat (fst pr)) (RelaT.sizeof cls))
       (relocsAddends e).
Proof.
  intros Hp. apply parseElf_store_ok in Hp as [Hr Ha].
  split.
  - eapply Forall_impl; [| exact Hr].
    intros pr (H0 & H1 & H2). repeat split; try assumption.
    rewrite H2. apply rel_encode_decode, length_slice. lia.
  - eapply Forall_impl; [| exact Ha].
    intros pr (H0 & H1 & H2). repeat split; try assumption.
    rewrite H2. apply rela_encode_decode, length_slice. lia.
Qed.

Lemma parsed_entries_lie_in_file_witness :
  Forall (fun pr : Z * RelT.t =>
            0 <= fst pr
            /\ fst pr + Z.of_nat (RelT.sizeof ELFCLASS64)
               <= Z.of_nat (length Image.two_rela)
            /\ snd pr
               = RelT.decode ELFCLASS64
                   (slice Image.two_rela (Z.to_nat (fst pr))
                      (RelT.sizeof ELFCLASS64))
            /\ RelT.encode ELFCLASS64 (snd pr)
               = slice Image.two_rela (Z.to_nat (fst pr))
                   (RelT.sizeof ELFCLASS64))
    (relocs two_rela_model)
  /\ Forall (fun pr : Z * RelaT.t =>
               0 <= fst pr
               /\ fst pr + Z.of_nat (RelaT.sizeof ELFCLASS64)
                  <= Z.of_nat (length Image.two_rela)
               /\ snd pr
                  = RelaT.decode ELFCLASS64
                      (slice Image.two_rela (Z.to_nat (fst pr))
                         (RelaT.sizeof ELFCLASS64))
               /\ RelaT.encode ELFCLASS64 (snd pr)
                  = slice Image.two_rela (Z.to_nat (fst pr))
                      (RelaT.sizeof ELFCLASS64))
       (relocsAddends two_rela_model).
Proof.
  apply (parsed_entries_lie_in_file Image.two_rela ELFCLASS64 two_rela_model).
  exact parseElf_two_rela.
Defined.

(** X2.  [parseElf] ends with the message of [errExit] on every file that
    has fewer than [EI_NIDENT] bytes, does not start with the four bytes of
    [ELFMAG], or has a class byte other than 1 and 2; nothing is parsed. *)
Theorem parseElf_rejects_bad_ident (f : file) :
  (length f < 16)%nat \/ firstn 4 f <> ELFMAG
  \/ (nth 4 f Byte.x00 <> Byte.x01 /\ nth 4 f Byte.x00 <> Byte.x02) ->
  parseElf f = ErrExit "Failed to read ELF header.".
Proof.
  intros H. rewrite parseElf_ident.
  destruct (Nat.leb_spec 16 (length f)) as [Hle | Hlt]; [| reflexivity].
  destruct H as [H | [H | [H1 H2]]]; [lia | |].
  - destruct (list_eq_dec Byte.byte_eq_dec (firstn 4 f) ELFMAG);
      [contradiction | reflexivity].
  - destruct (list_eq_dec _ _ _); [| reflexivity]. cbn [negb orb].
    destruct (Byte.eqb (nth 4 f Byte.x00) Byte.x01) eqn:E1;
      [apply Byte.byte_dec_bl in E1; contradiction |].
    destruct (Byte.eqb (nth 4 f Byte.x00) Byte.x02) eqn:E2;
      [apply Byte.byte_dec_bl in E2; contradiction |].
    reflexivity.
Qed.

Lemma parseElf_rejects_bad_ident_witness :
  parseElf (list_byte_of_string "MZ") = ErrExit "Failed to read ELF header.".
Proof.
  apply (parseElf_rejects_bad_ident (list_byte_of_string "MZ")).
  left. cbn. lia.
Defined.

(** X3.  A file that [parseElf] accepts has at least [EI_NIDENT] bytes and
    starts with [ELFMAG]; its class byte is the one of the class that was
    chosen, and the object is the one that [parse] for this class fills from
    the start of the file. *)
Theorem parseElf_accepts (f : file) (cls : ImageClass) (e : ElfT) :
  parseElf f = Ok (cls, e) ->
  (16 <= length f)%nat
  /\ firstn 4 f = ELFMAG
  /\ nth 4 f Byte.x00 = class_byte cls
  /\ exists s, parse cls (mk_ifstream f 0 true) = Ok s /\ this s = e.
Proof.
  rewrite parseElf_ident.
  destruct (Nat.leb_spec 16 (length f)) as [Hle | Hlt]; [| discriminate].
  destruct (list_eq_dec Byte.byte_eq_dec (firstn 4 f) ELFMAG) as [Hm | Hm];
    [| discriminate].
  cbn [negb orb].
  destruct (Byte.eqb (nth 4 f Byte.x00) Byte.x01) eqn:E1; cbn [negb andb].
  - intros H. apply bind_Ok in H as (s & Hs & [= <- <-]).
    apply Byte.byte_dec_bl in E1. repeat split; eauto.
  - destruct (Byte.eqb (nth 4 f Byte.x00) Byte.x02) eqn:E2; [| discriminate].
    intros H. apply bind_Ok in H as (s & Hs & [= <- <-]).
    apply Byte.byte_dec_bl in E2. repeat split; eauto.
Qed.

Lemma parseElf_accepts_witness :
  (16 <= length Image.two_rela)%nat
  /\ firstn 4 Image.two_rela = ELFMAG
  /\ nth 4 Image.two_rela Byte.x00 = class_byte ELFCLASS64
  /\ exists s,
      parse ELFCLASS64 (mk_ifstream Image.two_rela 0 true) = Ok s
      /\ this s = two_rela_model.
Proof.
  apply (parseElf_accepts Image.two_rela ELFCLASS64 two_rela_model).
  exact parseElf_two_rela.
Defined.

(** ** The assertions *)

Lemma bind_no_assert {A B : Type} (r : result A) (k : A -> result B) :
  no_assert r -> (forall a, r = Ok a -> no_assert (k a)) ->
  no_assert (bind r k).
Proof.
  intros Hr Hk msg. destruct r as [a | m | m |]; cbn; try discriminate.
  - now apply Hk.
  - exfalso. now apply (Hr m).
Qed.

Lemma Ok_no_assert {A : Type} (a : A) : no_assert (Ok a).
Proof. intros msg. discriminate. Qed.

Lemma read_rels_no_assert cls n s : no_assert (read_rels cls n s).
Proof.
  intros msg. rewrite read_rels_spec.
  destruct (Nat.eqb n 0); [discriminate |].
  destruct (_ && _); discriminate.
Qed.

Lemma read_relas_no_assert cls n s : no_assert (read_relas cls n s).
Proof.
  intros msg. rewrite read_relas_spec.
  destruct (Nat.eqb n 0); [discriminate |].
  destruct (_ && _); discriminate.
Qed.

Lemma read_syms_no_assert cls n ent : forall s,
  no_assert (read_syms cls n ent s).
Proof.
  induction n as [| n IH]; intros s msg; cbn [read_syms]; [discriminate |].
  destruct (negb _); [discriminate |].
  destruct (read ent (fp s)) as [buf fp'].
  destruct (negb (good fp')); [discriminate | apply IH].
Qed.

Lemma addRels_no_assert cls shdr s :
  good (fp s) = true ->
  (ShdrT.sh_type shdr =? SHT_REL) || (ShdrT.sh_type shdr =? SHT_RELA) = true ->
  no_assert (addRels cls shdr s).
Proof.
  intros Hg Hty. unfold addRels. rewrite Hg, Hty. cbn [assert bind].
  destruct (ShdrT.sh_entsize shdr =? 0); [intros msg; discriminate |].
  apply bind_no_assert; [| intros; apply Ok_no_assert].
  destruct (ShdrT.sh_type shdr =? SHT_REL);
    [apply read_rels_no_assert | apply read_relas_no_assert].
Qed.

Lemma addStringTable_no_assert shdr s :
  good (fp s) = true -> (ShdrT.sh_type shdr =? SHT_STRTAB) = true ->
  no_assert (addStringTable shdr s).
Proof.
  intros Hg Hty msg. unfold addStringTable. rewrite Hg, Hty. cbn [assert bind].
  destruct (read _ _) as [tbl fp2]. destruct (negb (good fp2)); discriminate.
Qed.

Lemma addSymbolTable_no_assert cls shdr s :
  good (fp s) = true -> (ShdrT.sh_type shdr =? SHT_DYNSYM) = true ->
  no_assert (addSymbolTable cls shdr s).
Proof.
  intros Hg Hty. unfold addSymbolTable. rewrite Hg, Hty. cbn [assert bind].
  destruct (ShdrT.sh_entsize shdr =? 0); [intros msg; discriminate |].
  apply bind_no_assert; [apply read_syms_no_assert |].
  intros; apply Ok_no_assert.
Qed.

Lemma addSectionStringTable_no_assert cls hdr s :
  good (fp s) = true -> no_assert (addSectionStringTable cls hdr s).
Proof.
  intros Hg msg. unfold addSectionStringTable. rewrite Hg. cbn [assert bind].
  destruct (_ || _); [discriminate |].
  destruct (read (EhdrT.e_shentsize hdr) _) as [buf fp2].
  destruct (negb (good fp2)); [discriminate |].
  destruct (read (to_signed 8 _) _) as [tbl fp4].
  destruct (negb (good fp4)); discriminate.
Qed.

Lemma isSection_no_assert e idx name : no_assert (isSection e idx name).
Proof.
  intros msg. unfold isSection, cstr_at.
  destruct (idx <? _); [| discriminate].
  destruct (until_nul _); discriminate.
Qed.

Lemma or_else_no_assert a b :
  no_assert a -> no_assert b -> no_assert (or_else a b).
Proof.
  intros Ha Hb. apply bind_no_assert; [exact Ha |].
  intros [] _; [apply Ok_no_assert | exact Hb].
Qed.

Lemma and_then_Ok_true (c : bool) (x : result bool) :
  and_then (Ok c) x = Ok true -> c = true.
Proof. destruct c; [reflexivity | discriminate]. Qed.

Lemma and_then_no_assert c x : no_assert x -> no_assert (and_then (Ok c) x).
Proof. intros Hx. destruct c; [exact Hx | apply Ok_no_assert]. Qed.

Lemma parse_section_no_assert cls s : no_assert (parse_section cls s).
Proof.
  unfold parse_section.
  destruct (read _ (fp s)) as [buf fp'].
  destruct (good fp') eqn:Hg; cbn [negb]; [| intros msg; discriminate].
  apply bind_no_assert.
  { apply and_then_no_assert.
    repeat apply or_else_no_assert; apply isSection_no_assert. }
  intros [] HisRel.
  { apply and_then_Ok_true in HisRel. now apply addRels_no_assert. }
  apply bind_no_assert;
    [apply and_then_no_assert, isSection_no_assert |].
  intros [] HisStr.
  { apply and_then_Ok_true in HisStr. now apply addStringTable_no_assert. }
  apply bind_no_assert;
    [apply and_then_no_assert, isSection_no_assert |].
  intros [] HisSym.
  { apply and_then_Ok_true in HisSym. now apply addSymbolTable_no_assert. }
  apply Ok_no_assert.
Qed.

Lemma parse_sections_no_assert cls n : forall s,
  no_assert (parse_sections cls n s).
Proof.
  induction n as [| n IH]; intros s; cbn [parse_sections];
    [apply Ok_no_assert |].
  apply bind_no_assert; [apply parse_section_no_assert | intros; apply IH].
Qed.

Lemma parse_no_assert cls fp0 :
  good fp0 = true -> no_assert (parse cls fp0).
Proof.
  intros Hg. unfold parse. rewrite Hg. cbn [assert bind].
  destruct (read _ fp0) as [buf fp1].
  destruct (good fp1) eqn:Hg1; cbn [negb]; [| intros msg; discriminate].
  apply bind_no_assert; [now apply addSectionStringTable_no_assert |].
  intros; apply parse_sections_no_assert.
Qed.

Lemma parseElf_no_assert f : no_assert (parseElf f).
Proof.
  rewrite parseElf_ident.
  destruct (16 <=? length f)%nat; [| intros msg; discriminate].
  destruct (_ || _); [intros msg; discriminate |].
  apply bind_no_assert; [now apply parse_no_assert |].
  intros; apply Ok_no_assert.
Qed.

Lemma relocSymName_no_assert cls e rInfo :
  no_assert (relocSymName cls e rInfo).
Proof.
  intros msg. unfold relocSymName, relocSymName_reads, cstr_at.
  destruct (_ <? _); [| discriminate].
  destruct (nth_error _ _); [| discriminate].
  destruct (_ <? _); [| discriminate]. cbn [snd].
  destruct (until_nul _); discriminate.
Qed.

Lemma for_each_no_assert {R : Type} (dump : R -> ostream -> result ostream)
  (l : list (Z * R)) :
  (forall r o, no_assert (dump r o)) ->
  forall i o, no_assert (for_each dump l i o).
Proof.
  intros Hd. induction l as [| pr l IH]; intros i o; cbn [for_each];
    [apply Ok_no_assert |].
  apply bind_no_assert; [apply Hd | intros; apply IH].
Qed.

Lemma dumpRelocs_no_assert cls e o : no_assert (dumpRelocs cls e o).
Proof.
  unfold dumpRelocs. apply bind_no_assert.
  - destruct (negb _); [| apply Ok_no_assert].
    apply for_each_no_assert. intros r o'. unfold dumpReloc.
    apply bind_no_assert; [apply relocSymName_no_assert |].
    intros; apply Ok_no_assert.
  - intros o1 _. destruct (negb _); [| apply Ok_no_assert].
    apply for_each_no_assert. intros r o'. unfold dumpRelocA.
    apply bind_no_assert; [apply relocSymName_no_assert |].
    intros; apply Ok_no_assert.
Qed.

(** X4.  None of the assertions of [parse], of its helpers [addRels],
    [addSectionStringTable], [addStringTable] and [addSymbolTable], and of
    [swapN] can fail in a run of [main] on a file that could be opened,
    whatever the file, the options and the pseudo-random numbers: the
    helpers are only called with a good stream and a header of the type
    they assert, and [swapN] only with a positive count. *)
Theorem main_never_fails_an_assertion (rnd : nat -> Z) (doDump : bool)
  (outFname : option string) (nSwaps : Z) (f : file) (msg : string) :
  main rnd doDump outFname nSwaps f <> AssertFail msg.
Proof.
  revert msg. change (no_assert (main rnd doDump outFname nSwaps f)).
  unfold main. apply bind_no_assert; [apply parseElf_no_assert |].
  intros [c e] _. apply bind_no_assert.
  { destruct doDump; [apply dumpRelocs_no_assert | apply Ok_no_assert]. }
  intros o _. destruct outFname; [| apply Ok_no_assert].
  destruct (0 <? (if nSwaps <? 0 then 0 else nSwaps)) eqn:Hn;
    [| apply Ok_no_assert].
  unfold swapN. rewrite Hn. cbn [assert bind]. apply Ok_no_assert.
Qed.

(** ** The section name table and [isSection] *)

(** X5.  [addSectionStringTable] reads the section header at
    [e_shoff + e_shstrndx * e_shentsize] and makes the bytes of that section
    the section name table; when header and section lie within the file it
    ends normally, with the stream where it was and nothing else changed. *)
Theorem addSectionStringTable_loads (cls : ImageClass) (hdr : EhdrT.t)
  (s : parse_state) :
  let p := (EhdrT.e_shoff hdr + EhdrT.e_shstrndx hdr * EhdrT.e_shentsize hdr)
           mod 2 ^ (8 * Z.of_nat (wordsz cls)) in
  let shdr :=
    ShdrT.decode cls
      (slice (data (fp s)) (Z.to_nat p) (Z.to_nat (EhdrT.e_shentsize hdr))) in
  good (fp s) = true ->
  0 <= gpos (fp s) < 2 ^ 63 ->
  Z.of_nat (ShdrT.off_size cls + wordsz cls) <= EhdrT.e_shentsize hdr
    <= Z.of_nat (ShdrT.sizeof cls) ->
  p < 2 ^ 63 ->
  p + EhdrT.e_shentsize hdr <= Z.of_nat (length (data (fp s))) ->
  ShdrT.sh_offset shdr < 2 ^ 63 ->
  ShdrT.sh_size shdr < 2 ^ 63 ->
  (ShdrT.sh_size shdr = 0
   \/ ShdrT.sh_offset shdr + ShdrT.sh_size shdr
      <= Z.of_nat (length (data (fp s)))) ->
  addSectionStringTable cls hdr s
  = Ok (mk_ps (fp s)
          (mk_ElfT (relocs (this s)) (relocsAddends (this s))
             (symbolTable (this s)) (stringTable (this s))
             (slice (data (fp s)) (Z.to_nat (ShdrT.sh_offset shdr))
                (Z.to_nat (ShdrT.sh_size shdr))))).
Proof.
  cbv zeta. intros Hg Hpos Hent Hp Hfit Hoff Hsz Hfit2.
  set (p := (EhdrT.e_shoff hdr + EhdrT.e_shstrndx hdr * EhdrT.e_shentsize hdr)
            mod 2 ^ (8 * Z.of_nat (wordsz cls))) in *.
  assert (Hp0 : 0 <= p).
  { apply Z.mod_pos_bound. destruct cls; reflexivity. }
  unfold addSectionStringTable. fold p. rewrite Hg. cbn [assert bind].
  destruct (Z.ltb_spec (Z.of_nat (ShdrT.sizeof cls)) (EhdrT.e_shentsize hdr));
    [lia |].
  destruct (Z.ltb_spec (EhdrT.e_shentsize hdr)
              (Z.of_nat (ShdrT.off_size cls + wordsz cls))); [lia |].
  cbn [orb]. unfold with_fp, tellg. cbn [fp]. rewrite Hg.
  rewrite (seekg_small p _ Hg) by lia.
  rewrite read_inside by (cbn [good data gpos]; auto; lia).
  cbn [good negb data gpos].
  set (shdr := ShdrT.decode cls _) in *.
  assert (Ho0 : 0 <= ShdrT.sh_offset shdr)
    by (unfold shdr, ShdrT.decode; cbn [ShdrT.sh_offset];
        apply le_combine_slice_range).
  assert (Hs0 : 0 <= ShdrT.sh_size shdr)
    by (unfold shdr, ShdrT.decode; cbn [ShdrT.sh_size];
        apply le_combine_slice_range).
  rewrite seekg_small by (cbn; auto; lia).
  rewrite to_signed_small by lia.
  rewrite read_inside by (cbn [good data gpos]; auto; lia).
  cbn [good negb data gpos].
  rewrite seekg_small by (cbn; auto).
  destruct s as [[d g gd] e]. cbn in *. now subst gd.
Qed.

Lemma addSectionStringTable_loads_witness :
  addSectionStringTable ELFCLASS64 two_rela_hdr after_ehdr
  = Ok (mk_ps (fp after_ehdr)
          (mk_ElfT [] [] [] []
             (slice Image.two_rela
                (Z.to_nat
                   (ShdrT.sh_offset
                      (ShdrT.decode ELFCLASS64
                         (slice Image.two_rela
                            (Z.to_nat ((197 + 3 * 64) mod 2 ^ 64))
                            (Z.to_nat 64)))))
                (Z.to_nat
                   (ShdrT.sh_size
                      (ShdrT.decode ELFCLASS64
                         (slice Image.two_rela
                            (Z.to_nat ((197 + 3 * 64) mod 2 ^ 64))
                            (Z.to_nat 64)))))))).
Proof.
  apply (addSectionStringTable_loads ELFCLASS64 two_rela_hdr after_ehdr).
  - reflexivity.
  - cbn. lia.
  - cbn. lia.
  - vm_compute. reflexivity.
  - apply Z.leb_le. vm_compute. reflexivity.
  - vm_compute. reflexivity.
  - vm_compute. reflexivity.
  - right. apply Z.leb_le. vm_compute. reflexivity.
Defined.

Lemma until_nul_Some (l bs : list byte) :
  until_nul l = Some bs ->
  exists post, l = bs ++ Byte.x00 :: post /\ ~ In Byte.x00 bs.
Proof.
  revert bs. induction l as [| b l IH]; intros bs; cbn [until_nul];
    [discriminate |].
  destruct (Byte.eqb b Byte.x00) eqn:Eb.
  - intros [= <-]. apply Byte.byte_dec_bl in Eb. subst b.
    exists l. split; [reflexivity | intros []].
  - destruct (until_nul l) as [bs' |]; [| discriminate].
    cbn [option_map]. intros [= <-].
    destruct (IH bs' eq_refl) as (post & -> & Hn).
    exists post. split; [reflexivity |].
    intros [-> | Hin]; [| now apply Hn].
    cbn in Eb. discriminate.
Qed.

(** X6.  [isSection(idx, name)] is true exactly when the section name table
    holds, from index [idx] on, the bytes of [name] followed by NUL (so the
    whole name is compared, not a prefix), and [name] has no NUL in it; for
    an index past the table it is false without reading the table. *)
Theorem isSection_matches (e : ElfT) (idx : Z) (name : string) :
  0 <= idx ->
  (isSection e idx name = Ok true <->
   exists pre post,
     sectionStringTable e = pre ++ list_byte_of_string name ++ Byte.x00 :: post
     /\ length pre = Z.to_nat idx
     /\ ~ In Byte.x00 (list_byte_of_string name))
  /\ (Z.of_nat (length (sectionStringTable e)) <= idx ->
      isSection e idx name = Ok false).
Proof.
  intros Hidx. unfold isSection. split; [split |].
  - destruct (Z.ltb_spec idx (Z.of_nat (length (sectionStringTable e))))
      as [Hlt | Hge]; [| discriminate].
    unfold cstr_at.
    destruct (until_nul (skipn (Z.to_nat idx) (sectionStringTable e)))
      as [bs |] eqn:Hu; [| discriminate].
    cbn [bind]. intros [= Heq]. apply String.eqb_eq in Heq. subst name.
    rewrite list_byte_of_string_of_list_byte.
    apply until_nul_Some in Hu as (post & Hsk & Hn).
    exists (firstn (Z.to_nat idx) (sectionStringTable e)), post.
    split; [| split; [| exact Hn]].
    + rewrite <- Hsk. symmetry. apply firstn_skipn.
    + rewrite length_firstn. lia.
  - intros (pre & post & Htbl & Hpre & Hn).
    destruct (Z.ltb_spec idx (Z.of_nat (length (sectionStringTable e))))
      as [Hlt | Hge].
    + rewrite Htbl, <- Hpre, cstr_at_found by exact Hn. cbn [bind].
      now rewrite string_of_list_byte_of_string, String.eqb_refl.
    + rewrite Htbl, !length_app in Hge. cbn [length] in Hge. lia.
  - intros Hge.
    destruct (Z.ltb_spec idx (Z.of_nat (length (sectionStringTable e))));
      [lia | reflexivity].
Qed.

Lemma isSection_matches_witness :
  (isSection two_rela_model 30 ".dynsym" = Ok true <->
   exists pre post,
     sectionStringTable two_rela_model
     = pre ++ list_byte_of_string ".dynsym" ++ Byte.x00 :: post
     /\ length pre = Z.to_nat 30
     /\ ~ In Byte.x00 (list_byte_of_string ".dynsym"))
  /\ (Z.of_nat (length (sectionStringTable two_rela_model)) <= 30 ->
      isSection two_rela_model 30 ".dynsym" = Ok false).
Proof.
  apply (isSection_matches two_rela_model 30 ".dynsym"). lia.
Defined.

(** ** The loop over the section headers *)

(** X7.  A section header whose type is none of [SHT_REL], [SHT_RELA],
    [SHT_STRTAB] and [SHT_DYNSYM] is skipped: the iteration only moves the
    stream past the header and does not look at the section's name, so a
    name index without a string behind it does no harm. *)
Theorem parse_section_skips_other_types (cls : ImageClass) (s : parse_state) :
  let ty :=
    ShdrT.sh_type
      (ShdrT.decode cls
         (slice (data (fp s)) (Z.to_nat (gpos (fp s))) (ShdrT.sizeof cls))) in
  good (fp s) = true ->
  gpos (fp s) + Z.of_nat (ShdrT.sizeof cls)
  <= Z.of_nat (length (data (fp s))) ->
  ty <> SHT_REL -> ty <> SHT_RELA -> ty <> SHT_STRTAB -> ty <> SHT_DYNSYM ->
  parse_section cls s
  = Ok (mk_ps
          (mk_ifstream (data (fp s))
             (gpos (fp s) + Z.of_nat (ShdrT.sizeof cls)) true)
          (this s)).
Proof.
  cbv zeta. intros Hg Hfit H1 H2 H3 H4. unfold parse_section.
  rewrite read_inside by (auto; lia). cbn [good negb].
  rewrite Nat2Z.id.
  set (shdr := ShdrT.decode cls _) in *.
  destruct (Z.eqb_spec (ShdrT.sh_type shdr) SHT_REL); [contradiction |].
  destruct (Z.eqb_spec (ShdrT.sh_type shdr) SHT_RELA); [contradiction |].
  destruct (Z.eqb_spec (ShdrT.sh_type shdr) SHT_STRTAB); [contradiction |].
  destruct (Z.eqb_spec (ShdrT.sh_type shdr) SHT_DYNSYM); [contradiction |].
  reflexivity.
Qed.

Lemma parse_section_skips_other_types_witness :
  parse_section ELFCLASS64 (mk_ps (mk_ifstream first_occurrences 418 true)
                              empty_ElfT)
  = Ok (mk_ps (mk_ifstream first_occurrences (418 + Z.of_nat 64) true)
          empty_ElfT).
Proof.
  apply (parse_section_skips_other_types ELFCLASS64
           (mk_ps (mk_ifstream first_occurrences 418 true) empty_ElfT)).
  - reflexivity.
  - apply Z.leb_le. vm_compute. reflexivity.
  - vm_compute. discriminate.
  - vm_compute. discriminate.
  - vm_compute. discriminate.
  - vm_compute. discriminate.
Defined.

(** ** Sections that do not fit *)

(** X8.  [addRels] on a section whose entries reach past the end of the
    file ends with [errExit]: a short read is fatal, and no part of the
    section is kept. *)
Theorem addRels_short_section (cls : ImageClass) (shdr : ShdrT.t)
  (s : parse_state) :
  good (fp s) = true ->
  ShdrT.sh_type shdr = SHT_REL \/ ShdrT.sh_type shdr = SHT_RELA ->
  ShdrT.sh_entsize shdr <> 0 ->
  0 <= ShdrT.sh_offset shdr < 2 ^ 63 ->
  (0 < entry_count shdr)%nat ->
  Z.of_nat (length (data (fp s)))
  < ShdrT.sh_offset shdr
    + Z.of_nat (entry_count shdr)
      * Z.of_nat (if ShdrT.sh_type shdr =? SHT_REL then RelT.sizeof cls
                  else RelaT.sizeof cls) ->
  addRels cls shdr s = ErrExit "Failed to read relocation.".
Proof.
  intros Hg Hty Hent Hoff Hn Hshort. unfold addRels, entry_count in *.
  rewrite Hg. cbn [assert bind].
  replace ((ShdrT.sh_type shdr =? SHT_REL) || (ShdrT.sh_type shdr =? SHT_RELA))
    with true by (destruct Hty as [-> | ->]; reflexivity).
  cbn [assert bind].
  destruct (Z.eqb_spec (ShdrT.sh_entsize shdr) 0) as [| _]; [contradiction |].
  set (n := Z.to_nat (ShdrT.sh_size shdr / ShdrT.sh_entsize shdr)) in *.
  unfold with_fp. rewrite (seekg_small _ _ Hg Hoff).
  destruct (ShdrT.sh_type shdr =? SHT_REL).
  - rewrite read_rels_spec. cbn [fp data gpos good andb].
    destruct (Nat.eqb_spec n 0); [lia |].
    destruct (Z.leb_spec (ShdrT.sh_offset shdr
                          + Z.of_nat n * Z.of_nat (RelT.sizeof cls))
                (Z.of_nat (length (data (fp s))))); [lia | reflexivity].
  - rewrite read_relas_spec. cbn [fp data gpos good andb].
    destruct (Nat.eqb_spec n 0); [lia |].
    destruct (Z.leb_spec (ShdrT.sh_offset shdr
                          + Z.of_nat n * Z.of_nat (RelaT.sizeof cls))
                (Z.of_nat (length (data (fp s))))); [lia | reflexivity].
Qed.

Lemma addRels_short_section_witness :
  addRels ELFCLASS64 long_rela_dyn after_ehdr
  = ErrExit "Failed to read relocation.".
Proof.
  apply (addRels_short_section ELFCLASS64 long_rela_dyn after_ehdr).
  - reflexivity.
  - right. reflexivity.
  - discriminate.
  - cbn. lia.
  - cbn. lia.
  - apply Z.ltb_lt. vm_compute. reflexivity.
Defined.

(** X9.  [addSymbolTable] keeps the number of symbols in an [int].  For a
    section that starts within the file, called with the stream at a
    position within the file: when the low 32 bits of
    [sh_size / sh_entsize] read as a negative [int], the loop does not run;
    the call ends normally, no symbol is loaded and nothing is read, however
    many symbols the section has. *)
Theorem addSymbolTable_count_truncated (cls : ImageClass) (shdr : ShdrT.t)
  (s : parse_state) :
  good (fp s) = true ->
  Z.of_nat (length (data (fp s))) < 2 ^ 63 ->
  0 <= gpos (fp s) <= Z.of_nat (length (data (fp s))) ->
  ShdrT.sh_type shdr = SHT_DYNSYM ->
  ShdrT.sh_entsize shdr <> 0 ->
  0 <= ShdrT.sh_offset shdr <= Z.of_nat (length (data (fp s))) ->
  2 ^ 31 <= (ShdrT.sh_size shdr / ShdrT.sh_entsize shdr) mod 2 ^ 32 ->
  addSymbolTable cls shdr s = Ok s.
Proof.
  intros Hg Hlen Hpos' Hty Hent Hoff' Hq.
  assert (Hpos : 0 <= gpos (fp s) < 2 ^ 63) by lia.
  assert (Hoff : 0 <= ShdrT.sh_offset shdr < 2 ^ 63) by lia.
  unfold addSymbolTable.
  rewrite Hty, Hg. cbn [assert bind Z.eqb SHT_DYNSYM Pos.eqb].
  destruct (Z.eqb_spec (ShdrT.sh_entsize shdr) 0) as [| _]; [contradiction |].
  set (q := (ShdrT.sh_size shdr / ShdrT.sh_entsize shdr) mod 2 ^ 32) in *.
  assert (Hq' : q < 2 ^ 32) by (apply Z.mod_pos_bound; reflexivity).
  assert (Hn : Z.to_nat (to_signed 4 q) = 0%nat).
  { unfold to_signed. change (2 ^ (8 * Z.of_nat 4 - 1)) with (2 ^ 31).
    change (2 ^ (8 * Z.of_nat 4)) with (2 ^ 32).
    destruct (Z.ltb_spec q (2 ^ 31)); lia. }
  rewrite Hn. cbn [read_syms bind].
  unfold with_fp, tellg. cbn [fp this]. rewrite Hg.
  rewrite (seekg_small _ _ Hg Hoff), seekg_small by (cbn; auto).
  destruct s as [[d g gd] e]. cbn in *. now subst gd.
Qed.

Lemma addSymbolTable_count_truncated_witness :
  addSymbolTable ELFCLASS64 huge_dynsym after_ehdr = Ok after_ehdr.
Proof.
  apply (addSymbolTable_count_truncated ELFCLASS64 huge_dynsym after_ehdr).
  - reflexivity.
  - apply Z.ltb_lt. vm_compute. reflexivity.
  - split; apply Z.leb_le; vm_compute; reflexivity.
  - reflexivity.
  - discriminate.
  - split; apply Z.leb_le; vm_compute; reflexivity.
  - apply Z.leb_le. vm_compute. reflexivity.
Defined.

(** ** The type part of an info value *)

(** X10.  [relocSymName] depends on the symbol index only: two info values
    with the same symbol index and any two types give the same reads and
    the same name. *)
Theorem relocSymName_ignores_type (cls : ImageClass) (e : ElfT)
  (sym ty ty' : Z) :
  0 <= ty < type_range cls ->
  0 <= ty' < type_range cls ->
  relocSymName_reads cls e (sym * type_range cls + ty)
  = relocSymName_reads cls e (sym * type_range cls + ty').
Proof.
  intros Hty Hty'. unfold relocSymName_reads. rewrite !relocSymName_index.
  assert (Hi : forall t, 0 <= t < type_range cls ->
                 sym_index cls (sym * type_range cls + t) = sym).
  { intros t Ht. destruct cls; cbn [sym_index type_range] in *;
      rewrite Z.div_add_l by lia; rewrite Z.div_small by lia; lia. }
  now rewrite !Hi.
Qed.

Lemma relocSymName_ignores_type_witness :
  relocSymName_reads ELFCLASS32 two_rela_model (0 * type_range ELFCLASS32 + 1)
  = relocSymName_reads ELFCLASS32 two_rela_model
      (0 * type_range ELFCLASS32 + 7).
Proof.
  apply (relocSymName_ignores_type ELFCLASS32 two_rela_model 0 1 7);
    cbn; lia.
Defined.

(** ** What [swapN] does to the file *)

Lemma nth_error_slice1 (f : file) (i : nat) :
  nth_error f i = hd_error (slice f i 1).
Proof.
  unfold slice. rewrite <- hd_error_skipn.
  now destruct (skipn i f).
Qed.

Lemma nth_error_write_at_outside (f : file) (p : nat) (buf : list byte)
  (i : nat) :
  (p + length buf <= length f)%nat ->
  (i < p \/ p + length buf <= i)%nat ->
  nth_error (write_at f p buf) i = nth_error f i.
Proof.
  intros Hin Hout. rewrite !nth_error_slice1.
  rewrite slice_write_at_disjoint by lia. reflexivity.
Qed.

Section SwapFrame.
Variable cls : ImageClass.
Variable rnd : nat -> Z.
Variable f : file.
Variable e : ElfT.
Hypothesis Hstore : store_ok cls f e.

Lemma swap_rel_frame (a b : nat) (out : ofstream) :
  length (contents out) = length f ->
  (a < length (relocs e))%nat -> (b < length (relocs e))%nat ->
  length (contents (swap_rel cls e a b out)) = length f
  /\ forall i, outside_entries cls e i ->
       nth_error (contents (swap_rel cls e a b out)) i
       = nth_error (contents out) i.
Proof.
  intros Hlen Ha Hb. destruct Hstore as [Hst _].
  destruct (swap_rel_effect cls e a b out) as [_ Hc]. cbv zeta in Hc.
  pose proof (nth_Forall _ _ _ no_rel Hst Ha) as (Ha0 & Ha1 & _).
  pose proof (nth_Forall _ _ _ no_rel Hst Hb) as (Hb0 & Hb1 & _).
  rewrite Hc.
  assert (L1 : forall r, length (write_at (contents out)
                                   (Z.to_nat (fst (nth a (relocs e) no_rel)))
                                   (RelT.encode cls r)) = length f).
  { intros r. rewrite length_write_at; rewrite ?rel_length_encode; lia. }
  split.
  - rewrite length_write_at; rewrite ?rel_length_encode, ?L1; lia.
  - intros i [Hout _].
    pose proof (nth_Forall _ _ _ no_rel Hout Ha) as Hia.
    pose proof (nth_Forall _ _ _ no_rel Hout Hb) as Hib.
    cbv beta in Hia, Hib.
    rewrite nth_error_write_at_outside
      by (rewrite ?rel_length_encode, ?L1; lia).
    rewrite nth_error_write_at_outside by (rewrite ?rel_length_encode; lia).
    reflexivity.
Qed.

Lemma swap_rela_frame (a b : nat) (out : ofstream) :
  length (contents out) = length f ->
  (a < length (relocsAddends e))%nat -> (b < length (relocsAddends e))%nat ->
  length (contents (swap_rela cls e a b out)) = length f
  /\ forall i, outside_entries cls e i ->
       nth_error (contents (swap_rela cls e a b out)) i
       = nth_error (contents out) i.
Proof.
  intros Hlen Ha Hb. destruct Hstore as [_ Hst].
  destruct (swap_rela_effect cls e a b out) as [_ Hc]. cbv zeta in Hc.
  pose proof (nth_Forall _ _ _ no_rela Hst Ha) as (Ha0 & Ha1 & _).
  pose proof (nth_Forall _ _ _ no_rela Hst Hb) as (Hb0 & Hb1 & _).
  rewrite Hc.
  assert (L1 : forall r, length (write_at (contents out)
                                   (Z.to_nat
                                      (fst (nth a (relocsAddends e) no_rela)))
                                   (RelaT.encode cls r)) = length f).
  { intros r. rewrite length_write_at; rewrite ?rela_length_encode; lia. }
  split.
  - rewrite length_write_at; rewrite ?rela_length_encode, ?L1; lia.
  - intros i [_ Hout].
    pose proof (nth_Forall _ _ _ no_rela Hout Ha) as Hia.
    pose proof (nth_Forall _ _ _ no_rela Hout Hb) as Hib.
    cbv beta in Hia, Hib.
    rewrite nth_error_write_at_outside
      by (rewrite ?rela_length_encode, ?L1; lia).
    rewrite nth_error_write_at_outside by (rewrite ?rela_length_encode; lia).
    reflexivity.
Qed.

Lemma swap_round_frame (s s' : swap_state) :
  length (contents (output s)) = length f ->
  swap_round cls rnd e s = Some s' ->
  length (contents (output s')) = length f
  /\ forall i, outside_entries cls e i ->
       nth_error (contents (output s')) i = nth_error (contents (output s)) i.
Proof.
  intros Hlen. unfold swap_round.
  destruct (choose_collection rnd e s) as [[u s0] |] eqn:Hcc;
    [| discriminate].
  destruct (choose_collection_frame rnd e s s0 u Hcc) as (Ho0 & _ & Hsz).
  destruct u.
  - destruct (choose_indices rnd (length (relocs e)) s0)
      as [[a b] s2] eqn:Hci.
    destruct (choose_indices_frame rnd _ s0 s2 a b Hsz Hci)
      as (Ho2 & _ & Ha & Hb).
    intros [= <-]. cbn [output]. rewrite Ho2, Ho0.
    now apply swap_rel_frame.
  - destruct (choose_indices rnd (length (relocsAddends e)) s0)
      as [[a b] s2] eqn:Hci.
    destruct (choose_indices_frame rnd _ s0 s2 a b Hsz Hci)
      as (Ho2 & _ & Ha & Hb).
    intros [= <-]. cbn [output]. rewrite Ho2, Ho0.
    now apply swap_rela_frame.
Qed.

Lemma swap_loop_frame (n : nat) : forall s,
  length (contents (output s)) = length f ->
  length (contents (output (swap_loop cls rnd e n s))) = length f
  /\ forall i, outside_entries cls e i ->
       nth_error (contents (output (swap_loop cls rnd e n s))) i
       = nth_error (contents (output s)) i.
Proof.
  induction n as [| n IH]; intros s Hlen; cbn [swap_loop];
    [now split |].
  destruct (swap_round cls rnd e s) as [s1 |] eqn:Hr; [| now split].
  destruct (swap_round_frame s s1 Hlen Hr) as [Hl1 Hf1].
  destruct (IH s1 Hl1) as [Hl Hf]. split; [exact Hl |].
  intros i Hi. rewrite Hf, Hf1 by exact Hi. reflexivity.
Qed.

(** With at most one entry in each collection a round can only draw the
    index 0 twice, and the file stays the parsed file. *)
Lemma swap_round_single (s s' : swap_state) :
  (length (relocs e) <= 1)%nat -> (length (relocsAddends e) <= 1)%nat ->
  contents (output s) = f ->
  swap_round cls rnd e s = Some s' ->
  contents (output s') = f.
Proof.
  intros H1 H2 Hc. unfold swap_round.
  destruct (choose_collection rnd e s) as [[u s0] |] eqn:Hcc;
    [| discriminate].
  destruct (choose_collection_frame rnd e s s0 u Hcc) as (Ho0 & _ & Hsz).
  destruct u.
  - destruct (choose_indices rnd (length (relocs e)) s0)
      as [[a b] s2] eqn:Hci.
    destruct (choose_indices_frame rnd _ s0 s2 a b Hsz Hci)
      as (Ho2 & _ & Ha & Hb).
    assert (a = 0%nat) by lia. assert (b = 0%nat) by lia. subst a b.
    intros [= <-]. cbn [output]. rewrite Ho2, Ho0.
    destruct (swap_rel_same cls f e 0 (output s) Hstore)
      as [Hin ->]; [now rewrite Hc | lia |].
    rewrite Hc. apply write_at_slice. lia.
  - destruct (choose_indices rnd (length (relocsAddends e)) s0)
      as [[a b] s2] eqn:Hci.
    destruct (choose_indices_frame rnd _ s0 s2 a b Hsz Hci)
      as (Ho2 & _ & Ha & Hb).
    assert (a = 0%nat) by lia. assert (b = 0%nat) by lia. subst a b.
    intros [= <-]. cbn [output]. rewrite Ho2, Ho0.
    destruct (swap_rela_same cls f e 0 (output s) Hstore)
      as [Hin ->]; [now rewrite Hc | lia |].
    rewrite Hc. apply write_at_slice. lia.
Qed.

Lemma swap_loop_single (n : nat) : forall s,
  (length (relocs e) <= 1)%nat -> (length (relocsAddends e) <= 1)%nat ->
  contents (output s) = f ->
  contents (output (swap_loop cls rnd e n s)) = f.
Proof.
  induction n as [| n IH]; intros s H1 H2 Hc; cbn [swap_loop];
    [exact Hc |].
  destruct (swap_round cls rnd e s) as [s1 |] eqn:Hr; [| exact Hc].
  apply IH; try assumption. eapply swap_round_single; eauto.
Qed.
End SwapFrame.

(** X11.  On a parsed image and an output file as long as the image,
    [swapN] with any positive count leaves the length of the output file as
    it is and changes no byte that lies outside the entries of the store:
    whatever the pseudo-random numbers, only relocation entries are
    overwritten. *)
Theorem swapN_touches_only_entries (cls : ImageClass) (rnd : nat -> Z)
  (f : file) (e : ElfT) (n : Z) (s : swap_state) :
  parseElf f = Ok (cls, e) ->
  length (contents (output s)) = length f ->
  0 < n ->
  exists s',
    swapN cls rnd e n s = Ok (e, s')
    /\ length (contents (output s')) = length f
    /\ forall i, outside_entries cls e i ->
         nth_error (contents (output s')) i
         = nth_error (contents (output s)) i.
Proof.
  intros Hp Hlen Hn. apply parseElf_store_ok in Hp.
  unfold swapN. destruct (Z.ltb_spec 0 n); [| lia]. cbn [assert bind].
  eexists. split; [reflexivity |]. now apply swap_loop_frame.
Qed.

Lemma swapN_touches_only_entries_witness :
  exists s',
    swapN ELFCLASS64 Z.of_nat two_rela_model 5 (fresh Image.two_rela)
    = Ok (two_rela_model, s')
    /\ length (contents (output s')) = length Image.two_rela
    /\ forall i, outside_entries ELFCLASS64 two_rela_model i ->
         nth_error (contents (output s')) i
         = nth_error (contents (output (fresh Image.two_rela))) i.
Proof.
  apply (swapN_touches_only_entries ELFCLASS64 Z.of_nat Image.two_rela
           two_rela_model 5 (fresh Image.two_rela)).
  - exact parseElf_two_rela.
  - reflexivity.
  - lia.
Defined.

(** X12.  With at most one entry in [relocs] and at most one in
    [relocsAddends] there is nothing to exchange: on a parsed image and a
    copy of it, [swapN] with any positive count leaves the output file
    identical to the input, whatever the pseudo-random numbers. *)
Theorem swapN_single_entry_identity (cls : ImageClass) (rnd : nat -> Z)
  (f : file) (e : ElfT) (n : Z) (s : swap_state) :
  parseElf f = Ok (cls, e) ->
  (length (relocs e) <= 1)%nat ->
  (length (relocsAddends e) <= 1)%nat ->
  contents (output s) = f ->
  0 < n ->
  exists s',
    swapN cls rnd e n s = Ok (e, s') /\ contents (output s') = f.
Proof.
  intros Hp H1 H2 Hc Hn. apply parseElf_store_ok in Hp.
  unfold swapN. destruct (Z.ltb_spec 0 n); [| lia]. cbn [assert bind].
  eexists. split; [reflexivity |]. now apply (swap_loop_single cls rnd f e Hp).
Qed.

Lemma parseElf_one_rela : parseElf one_rela = Ok (ELFCLASS64, one_rela_model).
Proof. vm_compute. reflexivity. Qed.

Lemma swapN_single_entry_identity_witness :
  exists s',
    swapN ELFCLASS64 Z.of_nat one_rela_model 4 (fresh one_rela)
    = Ok (one_rela_model, s')
    /\ contents (output s') = one_rela.
Proof.
  apply (swapN_single_entry_identity ELFCLASS64 Z.of_nat one_rela
           one_rela_model 4 (fresh one_rela)).
  - exact parseElf_one_rela.
  - cbn. lia.
  - cbn. lia.
  - reflexivity.
  - lia.
Defined.

(** ** The buffers and the rounds of [swapN] *)

(** X13.  Every buffer that [swapN] writes, at an offset [pos], is the
    entry that the store holds with the offset [pos], with its own [r_info]
    and with the [r_offset] (and [r_addend]) of an entry of the same
    collection: no info value ever moves to another entry, and no offset or
    addend is written that is not in the store. *)
Theorem swapN_buffers_keep_info (cls : ImageClass) (rnd : nat -> Z)
  (e : ElfT) (n : Z) (s : swap_state) :
  0 < n ->
  exists s',
    swapN cls rnd e n s = Ok (e, s')
    /\ forall pos buf,
        In (pos, buf) (written (output s')) ->
        In (pos, buf) (written (output s)) \/ exchanged_buffer cls e pos buf.
Proof.
  intros Hn. unfold swapN.
  destruct (Z.ltb_spec 0 n); [| lia]. cbn [assert bind].
  eexists. split; [reflexivity |]. apply swap_loop_buffers.
Qed.

Lemma swapN_buffers_keep_info_witness :
  exists s',
    swapN ELFCLASS64 Z.of_nat two_rela_model 3 (fresh Image.two_rela)
    = Ok (two_rela_model, s')
    /\ forall pos buf,
        In (pos, buf) (written (output s')) ->
        In (pos, buf) (written (output (fresh Image.two_rela)))
        \/ exchanged_buffer ELFCLASS64 two_rela_model pos buf.
Proof.
  apply (swapN_buffers_keep_info ELFCLASS64 Z.of_nat two_rela_model 3
           (fresh Image.two_rela)).
  lia.
Defined.

(** X14.  When the store is not empty, [swapN] runs all [n] rounds: it makes
    exactly two writes per round, and draws two pseudo-random numbers per
    round when only one collection has entries and three when both have. *)
Theorem swapN_runs_all_rounds (cls : ImageClass) (rnd : nat -> Z) (e : ElfT)
  (n : Z) (s : swap_state) :
  relocs e <> [] \/ relocsAddends e <> [] ->
  0 < n ->
  exists s',
    swapN cls rnd e n s = Ok (e, s')
    /\ length (written (output s'))
       = (length (written (output s)) + 2 * Z.to_nat n)%nat
    /\ rand_calls s'
       = (rand_calls s + draws_per_round e * Z.to_nat n)%nat.
Proof.
  intros Hne Hn. unfold swapN.
  destruct (Z.ltb_spec 0 n); [| lia]. cbn [assert bind].
  eexists. split; [reflexivity |]. now apply swap_loop_counts.
Qed.

Lemma swapN_runs_all_rounds_witness :
  exists s',
    swapN ELFCLASS64 Z.of_nat two_rela_model 3 (fresh Image.two_rela)
    = Ok (two_rela_model, s')
    /\ length (written (output s'))
       = (length (written (output (fresh Image.two_rela))) + 2 * Z.to_nat 3)%nat
    /\ rand_calls s'
       = (rand_calls (fresh Image.two_rela)
          + draws_per_round two_rela_model * Z.to_nat 3)%nat.
Proof.
  apply (swapN_runs_all_rounds ELFCLASS64 Z.of_nat two_rela_model 3
           (fresh Image.two_rela)).
  - right. discriminate.
  - lia.
Defined.

(** ** [main] from the file to the output file *)

(** X15.  In a run of [main] that has opened its input file, and that
    opens its output file and copies the input to it when it comes to that:
    if the run ends normally, [parseElf] accepted the file, and an output
    file was made exactly when an output path was given and the swap count
    is positive; the output file then has the length of the input and
    differs from it at most within the relocation entries of the parsed
    store.  (The runs that end before the input is opened, for [-h] or for
    a missing file name, are outside [main] as modelled here.) *)
Theorem main_output_file (rnd : nat -> Z) (doDump : bool)
  (outFname : option string) (n : Z) (f : file) (txt : string)
  (r : option ofstream) :
  main rnd doDump outFname n f = Ok (txt, r) ->
  exists cls e,
    parseElf f = Ok (cls, e)
    /\ match r with
       | None => outFname = None \/ n <= 0
       | Some out =>
           outFname <> None /\ 0 < n
           /\ length (contents out) = length f
           /\ forall i, outside_entries cls e i ->
                nth_error (contents out) i = nth_error f i
       end.
Proof.
  unfold main. intros H.
  destruct (parseElf f) as [[c e] | | |] eqn:Hp; try discriminate.
  cbn [bind] in H. exists c, e. split; [reflexivity |].
  destruct (if doDump then _ else _) as [o | | |]; try discriminate.
  cbn [bind] in H.
  destruct outFname as [name |]; [| injection H as _ <-; now left].
  destruct (Z.ltb_spec n 0) as [Hneg | Hnn].
  - cbn in H. injection H as _ <-. right. lia.
  - destruct (Z.ltb_spec 0 n) as [Hpos | Hz];
      [| injection H as _ <-; right; lia].
    unfold swapN in H. destruct (Z.ltb_spec 0 n); [| lia].
    cbn [assert bind snd] in H. injection H as _ <-.
    apply parseElf_store_ok in Hp.
    destruct (swap_loop_frame c rnd f e Hp (Z.to_nat n)
                (mk_ss (mk_ofstream f 0 []) 0 o) eq_refl) as [Hl Hf].
    repeat split; [discriminate | assumption | exact Hl | exact Hf].
Qed.

Lemma main_output_file_witness :
  exists cls e,
    parseElf Image.two_rela = Ok (cls, e)
    /\ (Some "out"%string <> None /\ 0 < 1
        /\ length
             (contents
                (output (swap_loop ELFCLASS64 Z.of_nat two_rela_model 1
                           (fresh Image.two_rela))))
           = length Image.two_rela
        /\ forall i, outside_entries cls e i ->
             nth_error
               (contents
                  (output (swap_loop ELFCLASS64 Z.of_nat two_rela_model 1
                             (fresh Image.two_rela)))) i
             = nth_error Image.two_rela i).
Proof.
  apply (main_output_file Z.of_nat false (Some "out"%string) 1 Image.two_rela
           (text (cout (swap_loop ELFCLASS64 Z.of_nat two_rela_model 1
                          (fresh Image.two_rela))))
           (Some (output (swap_loop ELFCLASS64 Z.of_nat two_rela_model 1
                            (fresh Image.two_rela))))).
  vm_compute. reflexivity.
Defined.

(** ** Names that can always be read *)

Lemma until_nul_In (l : list byte) :
  In Byte.x00 l -> exists bs, until_nul l = Some bs.
Proof.
  induction l as [| b l IH]; intros Hin; [destruct Hin |].
  cbn [until_nul]. destruct (Byte.eqb b Byte.x00) eqn:Eb; [eauto |].
  destruct Hin as [-> | Hin]; [cbn in Eb; discriminate |].
  destruct (IH Hin) as (bs & ->). cbn [option_map]. eauto.
Qed.

Lemma cstr_at_terminated (pre : list byte) (i : nat) :
  (i < length (pre ++ [Byte.x00]))%nat ->
  exists name, cstr_at (pre ++ [Byte.x00]) i = Ok name.
Proof.
  intros Hi. unfold cstr_at. rewrite length_app in Hi. cbn [length] in Hi.
  destruct (until_nul_In (skipn i (pre ++ [Byte.x00]))) as (bs & ->);
    [| eauto].
  rewrite skipn_app. replace (i - length pre)%nat with 0%nat by lia.
  apply in_or_app. right. now left.
Qed.

Lemma relocSymName_terminated (cls : ImageClass) (e : ElfT) (pre : list byte)
  (rInfo : Z) :
  stringTable e = pre ++ [Byte.x00] -> 0 <= rInfo ->
  exists name, relocSymName cls e rInfo = Ok name.
Proof.
  intros Htbl Hr.
  assert (Hidx : 0 <= sym_index cls rInfo)
    by (destruct cls; cbn; apply Z.div_pos; lia).
  unfold relocSymName, relocSymName_reads. rewrite relocSymName_index.
  destruct (Z.ltb_spec (sym_index cls rInfo)
              (Z.of_nat (length (symbolTable e)))) as [Hlt | Hge];
    [| cbn; eauto].
  destruct (nth_error_in_bounds (symbolTable e)
              (Z.to_nat (sym_index cls rInfo))) as (sym & ->); [lia |].
  destruct (Z.ltb_spec (SymT.st_name sym)
              (Z.of_nat (length (stringTable e)))) as [Hs | Hs];
    [| cbn; eauto].
  cbn [snd]. rewrite Htbl in *. apply cstr_at_terminated.
  rewrite length_app in *. cbn [length] in *. lia.
Qed.

Lemma for_each_succeeds {R : Type} (dump : R -> ostream -> result ostream)
  (l : list (Z * R)) :
  Forall (fun pr => forall o, exists o', dump (snd pr) o = Ok o') l ->
  forall i o, exists o', for_each dump l i o = Ok o'.
Proof.
  induction 1 as [| pr l Hpr _ IH]; intros i o; cbn [for_each]; [eauto |].
  destruct (Hpr (puts o [Str "  "; Num i; Str ") 0x"; Hex; Num (fst pr);
                         Str ", "; Dec])) as (o2 & ->).
  cbn [bind]. apply IH.
Qed.

(** X16.  When the dynamic string table ends with a NUL byte, every name
    can be read: [relocSymName] returns a name for every info value, and the
    dump of a store whose info values are not negative ends normally, in
    whatever state the output stream is. *)
Theorem dumpRelocs_succeeds (cls : ImageClass) (e : ElfT) (pre : list byte)
  (o : ostream) :
  stringTable e = pre ++ [Byte.x00] ->
  Forall (fun pr : Z * RelT.t => 0 <= RelT.r_info (snd pr)) (relocs e) ->
  Forall (fun pr : Z * RelaT.t => 0 <= RelaT.r_info (snd pr))
    (relocsAddends e) ->
  (forall rInfo, 0 <= rInfo -> exists name, relocSymName cls e rInfo = Ok name)
  /\ exists o', dumpRelocs cls e o = Ok o'.
Proof.
  intros Htbl Hr Ha.
  split; [intros rInfo; now apply (relocSymName_terminated cls e pre) |].
  unfold dumpRelocs.
  assert (H1 : forall i o1, exists o',
               for_each (dumpReloc cls e) (relocs e) i o1 = Ok o').
  { apply for_each_succeeds. eapply Forall_impl; [| exact Hr].
    intros pr Hpr o1. unfold dumpReloc.
    destruct (relocSymName_terminated cls e pre _ Htbl Hpr) as (name & ->).
    cbn [bind]. eauto. }
  assert (H2 : forall i o1, exists o',
               for_each (dumpRelocA cls e) (relocsAddends e) i o1 = Ok o').
  { apply for_each_succeeds. eapply Forall_impl; [| exact Ha].
    intros pr Hpr o1. unfold dumpRelocA.
    destruct (relocSymName_terminated cls e pre _ Htbl Hpr) as (name & ->).
    cbn [bind]. eauto. }
  destruct (negb (Nat.eqb (length (relocs e)) 0)).
  - match goal with
    | |- context [for_each (dumpReloc cls e) (relocs e) ?i ?o1] =>
        destruct (H1 i o1) as (o1' & ->)
    end.
    cbn [bind]. destruct (negb _); [apply H2 | eauto].
  - cbn [bind]. destruct (negb _); [apply H2 | eauto].
Qed.

Lemma dumpRelocs_succeeds_witness :
  (forall rInfo, 0 <= rInfo ->
     exists name, relocSymName ELFCLASS64 two_rela_model rInfo = Ok name)
  /\ exists o', dumpRelocs ELFCLASS64 two_rela_model (mk_ostream "" true)
                = Ok o'.
Proof.
  apply (dumpRelocs_succeeds ELFCLASS64 two_rela_model
           (Byte.x00 :: list_byte_of_string "foo") (mk_ostream "" true)).
  - reflexivity.
  - constructor.
  - repeat constructor; cbn; lia.
Defined.

(** ** Truncated files *)



(** X18.  A file with a good identification that ends before the end of the
    ELF header, or whose table of section headers ends before the last of
    the [e_shnum] headers, is fatal: [parseElf] ends with [errExit] on the
    first, and the iteration of [parse] that finds no complete header ends
    with [errExit] on the second. *)
Theorem truncated_headers_are_fatal (f : file) (cls : ImageClass)
  (s : parse_state) :
  (16 <= length f < EhdrT.sizeof cls)%nat ->
  firstn 4 f = ELFMAG ->
  nth 4 f Byte.x00 = class_byte cls ->
  Z.of_nat (length (data (fp s)))
  < gpos (fp s) + Z.of_nat (ShdrT.sizeof cls) ->
  parseElf f = ErrExit "Failed to read ELF header."
  /\ parse_section cls s = ErrExit "Failed to read section header.".
Proof.
  intros Hlen Hmag Hcls Hshort. split.
  - rewrite parseElf_ident.
    destruct (Nat.leb_spec 16 (length f)); [| lia].
    destruct (list_eq_dec Byte.byte_eq_dec (firstn 4 f) ELFMAG);
      [| contradiction].
    rewrite Hcls. unfold parse.
    destruct cls; cbn [class_byte Byte.eqb negb andb orb good assert bind];
      rewrite read_pos by (cbn; lia); cbn [good data gpos andb Z.add];
      match goal with
      | |- context [Z.leb ?a ?b] => destruct (Z.leb_spec a b)
      end; try reflexivity; cbn in *; lia.
  - unfold parse_section.
    rewrite read_pos by (destruct cls; cbn; lia).
    destruct (good (fp s)); cbn [andb good negb]; [| reflexivity].
    destruct (Z.leb_spec (gpos (fp s) + Z.of_nat (ShdrT.sizeof cls))
                (Z.of_nat (length (data (fp s))))); [lia | reflexivity].
Qed.

Lemma truncated_headers_are_fatal_witness :
  parseElf cut_header = ErrExit "Failed to read ELF header."
  /\ parse_section ELFCLASS64 (mk_ps (mk_ifstream Image.two_rela 400 true)
                                 empty_ElfT)
     = ErrExit "Failed to read section header.".
Proof.
  apply (truncated_headers_are_fatal cut_header ELFCLASS64
           (mk_ps (mk_ifstream Image.two_rela 400 true) empty_ElfT)).
  - vm_compute. split; lia.
  - reflexivity.
  - reflexivity.
  - apply Z.ltb_lt. vm_compute. reflexivity.
Defined.
